(** * DGFEM-Acoustic: the explicit time-integration engine

    A shallow embedding of [src/solver.cpp] (namespace [solver]): the
    per-element update kernel [numStep] and the two integrators
    [forwardEuler] and [rungeKutta], with their source injection and
    snapshot scheduling.

    The C++ code computes on [double].  The embedding is written once over
    an arithmetic signature [Arith] (the operations the code applies to
    doubles, with no laws attached) and instantiated twice:
    - [binary64]: Rocq's primitive IEEE-754 binary64 floats, the
      arithmetic the compiled program runs on (executable);
    - [reals]: the real numbers, the exact arithmetic the scheme is
      designed in.
    A theorem stated for every [Arith] holds for both.  Where a property
    needs an algebraic law, the law is an explicit hypothesis. *)

From Stdlib Require Import ZArith List Bool Lia Reals Lra Floats String.
From stdpp Require Import base list.
Import ListNotations.

(** ** Arithmetic on [double] *)

(** The operations and literals [solver.cpp] uses on doubles. *)
Record Arith := {
  num :> Type;
  f0 : num;       (* 0 *)
  f1 : num;       (* 1 *)
  f2 : num;       (* 2 *)
  f6 : num;       (* 6.0 *)
  fhalf : num;    (* 0.5 *)
  M_PI : num;     (* M_PI of <cmath> *)
  fadd : num -> num -> num;
  fsub : num -> num -> num;
  fmul : num -> num -> num;
  fdiv : num -> num -> num;
  feq : num -> num -> bool;   (* == *)
  flt : num -> num -> bool;   (* <  *)
  fle : num -> num -> bool    (* <= ; [x >= y] is [fle y x] *)
}.

Notation "x ⊕ y" := (fadd _ x y) (at level 50, left associativity).
Notation "x ⊖ y" := (fsub _ x y) (at level 50, left associativity).
Notation "x ⊗ y" := (fmul _ x y) (at level 40, left associativity).
Notation "x ⊘ y" := (fdiv _ x y) (at level 40, left associativity).
Notation "x ==. y" := (feq _ x y) (at level 70, no associativity).
Notation "x <. y" := (flt _ x y) (at level 70, no associativity).
Notation "x <=. y" := (fle _ x y) (at level 70, no associativity).
Notation "x >=. y" := (fle _ y x) (at level 70, no associativity, only parsing).

(** The two functions of the C math library the solver calls. *)
Record Libm (A : Arith) := {
  sin : A -> A;
  pow : A -> A -> A
}.
Arguments sin {A} _ _.
Arguments pow {A} _ _ _.

(** IEEE-754 binary64, as the kernel's primitive floats implement it. *)
Definition binary64 : Arith := {|
  num := float;
  f0 := 0%float; f1 := 1%float; f2 := 2%float; f6 := 6%float;
  fhalf := 0x1p-1%float;
  M_PI := 0x1.921fb54442d18p+1%float;
  fadd := PrimFloat.add; fsub := PrimFloat.sub;
  fmul := PrimFloat.mul; fdiv := PrimFloat.div;
  feq := PrimFloat.eqb; flt := PrimFloat.ltb; fle := PrimFloat.leb |}.

(** Exact real arithmetic. *)
Definition reals : Arith := {|
  num := R;
  f0 := 0%R; f1 := 1%R; f2 := 2%R; f6 := 6%R;
  fhalf := (1 / 2)%R;
  M_PI := PI;
  fadd := Rplus; fsub := Rminus; fmul := Rmult; fdiv := Rdiv;
  feq := fun x y => if Req_dec_T x y then true else false;
  flt := fun x y => if Rlt_dec x y then true else false;
  fle := fun x y => if Rle_dec x y then true else false |}.

(** The real sine and power.  [Rpower] is defined through [exp] and [ln],
    for a positive base only; the solver calls [pow] with the exponent 2
    alone, where the power is the square whatever the sign of the base. *)
Definition Rpow (x y : R) : R :=
  if Req_dec_T y 2 then (x * x)%R else Rpower x y.

Definition libm_reals : Libm reals :=
  Build_Libm reals Rtrigo_def.sin Rpow.

(** ** Vectors and counted loops *)

(** [for (int i = 0; i < n; ++i) body], threading the state [s]. *)
Definition forLoop {S : Type} (n : nat) (body : nat -> S -> S) (s : S) : S :=
  fold_left (fun s i => body i s) (seq 0 n) s.

(** [for (i < n) v[off+i] = f i v[off+i]]: an in-place update of the block
    [off .. off+n-1], entry by entry; [d] is what a read past the end
    gives. *)
Definition updLoop {X : Type} (d : X) (off n : nat) (f : nat -> X -> X)
           (v : list X) : list X :=
  forLoop n (fun i v => <[off + i := f i (default d (v !! (off + i)))]> v) v.

Section Vectors.
Context {A : Arith}.

(** [v[i]] on a [std::vector<double>].  Reading or writing past the end
    is undefined behaviour in C++; the model reads [0] and leaves the
    vector unchanged there, and every theorem below states the sizes it
    relies on. *)
Definition vget (v : list A) (i : nat) : A := default (f0 A) (v !! i).

(** [u[eq]] on a vector of vectors. *)
Definition row {X : Type} (u : list (list X)) (eq : nat) : list X :=
  default [] (u !! eq).

(** [u[eq][i] = x]. *)
Definition vset2 (u : list (list A)) (eq i : nat) (x : A) : list (list A) :=
  <[eq := <[i := x]> (row u eq)]> u.

(** [x == 0]. *)
Definition isZero (x : A) : bool := x ==. f0 A.

(** The value zero itself. *)
Definition null (x : A) : Prop := x = f0 A.

(** A value the code's comparison finds equal to zero. *)
Definition zeroValue (x : A) : Prop := isZero x = true.

(** Every entry of [u], at every equation and index, is in the set [Z]. *)
Definition allIn (Z : A -> Prop) (u : list (list A)) : Prop :=
  forall eq j, Z (vget (row u eq) j).

(** A factor that turns a zero into a zero, on either side of [*] (in
    binary64: every finite value, while [0 * inf] is a NaN). *)
Definition scalar (c : A) : Prop :=
  forall y, isZero y = true ->
            isZero (c ⊗ y) = true /\ isZero (y ⊗ c) = true.

(** [for (k in idx) v[k] = x]. *)
Definition setAll (idx : list nat) (x : A) (v : list A) : list A :=
  fold_left (fun v k => <[k := x]> v) idx v.
End Vectors.

(** What the zero-preservation of the scheme needs of the arithmetic:
    the values equal to zero are closed under [+], [-] and [/ 6.0], and
    the literals of the solver are factors that keep them. *)
Record ZeroArith (A : Arith) : Prop := {
  za_zero : isZero (f0 A) = true;
  za_add : forall x y : A, isZero x = true -> isZero y = true ->
                           isZero (x ⊕ y) = true;
  za_sub : forall x y : A, isZero x = true -> isZero y = true ->
                           isZero (x ⊖ y) = true;
  za_div6 : forall x : A, isZero x = true -> isZero (x ⊘ f6 A) = true;
  za_0 : scalar (f0 A);
  za_1 : scalar (f1 A);
  za_2 : scalar (f2 A);
  za_half : scalar (fhalf A)
}.

(** The identities of exact arithmetic that make a mesh at rest leave the
    solution as it is. *)
Record ExactArith (A : Arith) : Prop := {
  ea_add_0_l : forall x : A, f0 A ⊕ x = x;
  ea_add_0_r : forall x : A, x ⊕ f0 A = x;
  ea_sub_0_0 : f0 A ⊖ f0 A = f0 A;
  ea_mul_0_l : forall x : A, f0 A ⊗ x = f0 A;
  ea_mul_0_r : forall x : A, x ⊗ f0 A = f0 A;
  ea_mul_1_l : forall x : A, f1 A ⊗ x = x;
  ea_mul_1_r : forall x : A, x ⊗ f1 A = x;
  ea_div_0_6 : f0 A ⊘ f6 A = f0 A
}.

(** ** Collaborators *)

(** [Config] (configParser.h): the fields the solver reads.  A source is a
    [std::vector<double>]; the solver reads its entries 1 to 8: centre
    x, y, z, radius, amplitude, frequency, phase, duration. *)
Record Config (A : Arith) := {
  c0 : A; v0 : A; rho0 : A;
  timeStart : A; timeEnd : A; timeStep : A; timeRate : A;
  numThreads : nat;
  saveFile : string;
  sources : list (list A)
}.
Arguments c0 {A} _.
Arguments v0 {A} _.
Arguments rho0 {A} _.
Arguments timeStart {A} _.
Arguments timeEnd {A} _.
Arguments timeStep {A} _.
Arguments timeRate {A} _.
Arguments numThreads {A} _.
Arguments saveFile {A} _.
Arguments sources {A} _.

(** [Mesh] (Mesh.h) as the solver uses it.  The mesh object is mutable:
    [MS] is the type of its internal state and the methods that write to
    it return the new state.  [Flux] arguments are passed by reference in
    the source, so the methods that fill them return them.
    [elMassMatrix ms el i j] is entry (i, j) of the matrix that
    [precomputeMassMatrix] leaves for element [el], the one [linEq]
    applies to the residual (the inverse mass matrix, [M^-1] in the doc
    comment of [numStep]).  [getNode] is gmsh's
    [gmsh::model::mesh::getNode], giving the coordinates of a node tag. *)
Record Mesh (A : Arith) (MS : Type) := {
  getElNum : nat;
  getElNumNodes : nat;
  getNumNodes : nat;
  elTag : nat -> Z;
  getElNodeTags : nat -> Z;
  getNode : Z -> list A;
  precomputeMassMatrix : MS -> MS;
  elMassMatrix : MS -> nat -> nat -> nat -> A;
  precomputeFlux : MS -> list A -> list (list A) -> nat -> MS * list (list A);
  getElFlux : MS -> nat -> list A;
  getElStiffVector : MS -> nat -> list (list A) -> list A -> list A;
  updateFlux : MS -> list (list A) -> list (list (list A)) -> A -> A -> A ->
               MS * list (list (list A))
}.
Arguments getElNum {A MS} _.
Arguments getElNumNodes {A MS} _.
Arguments getNumNodes {A MS} _.
Arguments elTag {A MS} _ _.
Arguments getElNodeTags {A MS} _ _.
Arguments getNode {A MS} _ _.
Arguments precomputeMassMatrix {A MS} _ _.
Arguments elMassMatrix {A MS} _ _ _ _ _.
Arguments precomputeFlux {A MS} _ _ _ _ _.
Arguments getElFlux {A MS} _ _ _.
Arguments getElStiffVector {A MS} _ _ _ _ _.
Arguments updateFlux {A MS} _ _ _ _ _ _ _.

(** The output sink: the gmsh calls the integrators make, in order.  The
    log line of a snapshot carries the wall-clock time, which is not
    modelled; its simulated time and step are. *)
Inductive View := Pressure | Velocity | Density.

Inductive GmshCall (A : Arith) :=
| addModelData (view : View) (step : nat) (tags : list Z)
               (data : list (list A)) (time : A) (numComponents : nat)
| loggerWrite (time : A) (step : nat)
| viewWrite (view : View) (file : string).
Arguments addModelData {A} _ _ _ _ _ _.
Arguments loggerWrite {A} _ _.
Arguments viewWrite {A} _ _.

(** ** Linear-algebra helpers (namespace [eigen], utils.h) *)

Section Eigen.
Context {A : Arith}.

(** Modelled from the spec: [eigen::minus] is declared in utils.h, which
    is not among the sources.  Spec 4.1: "minus is element-wise
    subtraction of two length-elNumNodes vectors", in place on the first. *)
Definition minus (a b : list A) (N : nat) : list A :=
  forLoop N (fun i a => <[i := vget a i ⊖ vget b i]> a) a.

(** The product of row [r] of a matrix with the vector [x], the sum that
    [linEq] below forms for each entry. *)
Definition dot (r : nat -> A) (x : list A) (N : nat) : A :=
  forLoop N (fun j acc => acc ⊕ r j ⊗ vget x j) (f0 A).

(** Modelled from the spec: [eigen::linEq] is declared in utils.h, which
    is not among the sources.  Spec 4.1 and the doc comment of [numStep]:
    [Y = alpha * M^-1 * X + beta * Y] on the [N] entries that [Y] points
    to.  [Y] is a pointer into [u[eq]]: the model takes the whole vector
    and the offset [off] of the block. *)
Definition linEq (Am : nat -> nat -> A) (X Y : list A) (off : nat)
           (alpha beta : A) (N : nat) : list A :=
  forLoop N
    (fun i Y => <[off + i := alpha ⊗ dot (Am i) X N ⊕ beta ⊗ vget Y (off + i)]> Y)
    Y.

(** Modelled from the spec: [eigen::plusTimes] is declared in utils.h,
    which is not among the sources.  Spec 4.3 reads
    [plusTimes(k2, k1, 0.5, n)] as "set k2 = k1 * 0.5 pointwise" and
    [plusTimes(k4, k3, 1, n)] as "k4 = k3 * 1 (identity copy)". *)
Definition plusTimes (a b : list A) (c : A) (N : nat) : list A :=
  forLoop N (fun i a => <[i := vget b i ⊗ c]> a) a.
End Eigen.

(** ** The solver *)

Section Solver.
Context {A : Arith} (L : Libm A) {MS : Type} (M : Mesh A MS) (cfg : Config A).

(** The globals [elNumNodes] and [numNodes], set from the mesh at the
    top of each integrator. *)
Definition elNumNodes : nat := getElNumNodes M.
Definition numNodes : nat := getNumNodes M.

(** *** [numStep] (lines 35-52) *)

(** The body of the element loop.  [elFlux] and [elStiffvector] are
    buffers of [elNumNodes] doubles that the mesh fills through their
    data pointer.  The OpenMP loop gives each thread its own copy of
    the two buffers; elements are taken here in index order. *)
Definition elementStep (ms : MS) (Fq : list (list A)) (beta : A)
           (el : nat) (ueq : list A) : list A :=
  let elFlux := resize elNumNodes (f0 A) (getElFlux M ms el) in
  let elStiffvector :=
    resize elNumNodes (f0 A) (getElStiffVector M ms el Fq ueq) in
  let elStiffvector := minus elStiffvector elFlux elNumNodes in
  linEq (elMassMatrix M ms el) elStiffvector ueq (el * elNumNodes)
        (timeStep cfg) beta elNumNodes.

(** The body of the equation loop, on the mesh state, [u] and [Flux]. *)
Definition equationStep (beta : A) (eq : nat)
           (s : MS * list (list A) * list (list (list A)))
  : MS * list (list A) * list (list (list A)) :=
  let '(ms, u, Flux) := s in
  let '(ms, Fq) := precomputeFlux M ms (row u eq) (row Flux eq) eq in
  let ueq := forLoop (getElNum M) (elementStep ms Fq beta) (row u eq) in
  (ms, <[eq := ueq]> u, <[eq := Fq]> Flux).

Definition numStep (ms : MS) (u : list (list A))
           (Flux : list (list (list A))) (beta : A)
  : MS * list (list A) * list (list (list A)) :=
  forLoop 4 (equationStep beta) (ms, u, Flux).

(** [mesh.updateFlux(u, Flux, v0, c0, rho0); numStep(mesh, config, u, Flux, beta)]:
    the pair of calls every stage of both integrators makes. *)
Definition fluxStep (ms : MS) (u : list (list A))
           (Flux : list (list (list A))) (beta : A)
  : MS * list (list A) * list (list (list A)) :=
  let '(ms, Flux) := updateFlux M ms u Flux (v0 cfg) (c0 cfg) (rho0 cfg) in
  numStep ms u Flux beta.

(** *** Sources (lines 86-99 and 139-147; the same text in [rungeKutta],
    lines 197-210 and 248-256) *)

(** The two sides of the membership test of node [n] for the source
    [src]: the squared distance of the node to the centre, and the
    squared radius. *)
Definition dist2 (src : list A) (n : nat) : A :=
  let coord := getNode M (getElNodeTags M n) in
  pow L (vget coord 0 ⊖ vget src 1) (f2 A) ⊕
  pow L (vget coord 1 ⊖ vget src 2) (f2 A) ⊕
  pow L (vget coord 2 ⊖ vget src 3) (f2 A).

Definition radius2 (src : list A) : A := pow L (vget src 4) (f2 A).

Definition inSource (src : list A) (n : nat) : bool :=
  dist2 src n <. radius2 src.

(** [indice]: the nodes pushed for one source. *)
Definition indice (src : list A) : list nat :=
  forLoop numNodes
    (fun n ind => if inSource src n then ind ++ [n] else ind) [].

Definition srcIndices : list (list nat) :=
  forLoop (length (sources cfg))
    (fun i acc => acc ++ [indice (row (sources cfg) i)]) [].

(** The value a source injects at time [t]:
    [amp*sin(2*M_PI*freq*t+phase)]. *)
Definition srcValue (src : list A) (t : A) : A :=
  let amp := vget src 5 in
  let freq := vget src 6 in
  let phase := vget src 7 in
  amp ⊗ sin L (f2 A ⊗ M_PI A ⊗ freq ⊗ t ⊕ phase).

(** One turn of the source loop. *)
Definition injectSource (t : A) (src : nat) (u : list (list A))
  : list (list A) :=
  let s := row (sources cfg) src in
  let duration := vget s 8 in
  if t <. duration then
    forLoop (length (row srcIndices src))
      (fun n u => vset2 u 0 (nth n (row srcIndices src) 0%nat) (srcValue s t))
      u
  else u.

Definition updateSource (t : A) (u : list (list A)) : list (list A) :=
  forLoop (length (sources cfg)) (injectSource t) u.

(** *** Snapshots (lines 111-134; the same text in [rungeKutta], lines 222-245) *)

(** [elTags]: the element tags captured at the top of the integrator. *)
Definition elTags : list Z := map (elTag M) (seq 0 (getElNum M)).

(** The three buffers [g_p], [g_rho], [g_v] are overwritten in full by
    the copy loops of every snapshot, so each is given here as the value
    the loops leave: entry [n] of element [el] comes from
    [u[.][el*elNumNodes+n]]. *)
Definition g_p (u : list (list A)) : list (list A) :=
  map (fun el =>
         map (fun n => vget (row u 0) (el * elNumNodes + n))
             (seq 0 (getElNumNodes M)))
      (seq 0 (getElNum M)).

Definition g_rho (u : list (list A)) : list (list A) :=
  map (fun el =>
         map (fun n => vget (row u 0) (el * elNumNodes + n) ⊘ (c0 cfg ⊗ c0 cfg))
             (seq 0 (getElNumNodes M)))
      (seq 0 (getElNum M)).

Definition g_v (u : list (list A)) : list (list A) :=
  map (fun el =>
         flat_map (fun n => [vget (row u 1) (el * elNumNodes + n);
                             vget (row u 2) (el * elNumNodes + n);
                             vget (row u 3) (el * elNumNodes + n)])
                  (seq 0 (getElNumNodes M)))
      (seq 0 (getElNum M)).

(** The calls of one snapshot, in the order of the source. *)
Definition snapshot (t : A) (step : nat) (u : list (list A))
  : list (GmshCall A) :=
  [ addModelData Pressure step elTags (g_p u) t 1;
    addModelData Density step elTags (g_rho u) t 1;
    addModelData Velocity step elTags (g_v u) t 3;
    loggerWrite t step ].

(** *** The time loop (lines 105-155 and 216-286) *)

(** What the loop body reads and writes besides the loop variables. *)
Record Run := {
  r_mesh : MS;
  r_u : list (list A);
  r_Flux : list (list (list A));
  r_out : list (GmshCall A)
}.

(** The snapshot test and its effect on [tDisplay] and the output. *)
Definition snapshotDue (step : nat) (tDisplay : A) : bool :=
  (tDisplay >=. timeRate cfg) || (step =? 0)%nat.

(** One iteration: the snapshot when due, then [update] (source
    injection and the integrator's step) at time [t].  Returns the value
    of [tDisplay] at the end of the body. *)
Definition iteration (update : A -> Run -> Run)
           (t : A) (step : nat) (tDisplay : A) (s : Run) : A * Run :=
  if snapshotDue step tDisplay then
    (f0 A, update t {| r_mesh := r_mesh s; r_u := r_u s; r_Flux := r_Flux s;
                       r_out := r_out s ++ snapshot t step (r_u s) |})
  else (tDisplay, update t s).

(** [for (double t = timeStart, step = 0, tDisplay = 0; t <= timeEnd;
         t += timeStep, tDisplay += timeStep, ++step)].
    [step] is declared [double] in the source and only ever counts up
    from 0 by 1, which binary64 does exactly below 2^53; it is a [nat]
    here.  The loop has no bound the model could compute beforehand, so
    it runs on [fuel]: [None] means the fuel ran out before the test
    [t <= timeEnd] failed.  On exit it returns the number of iterations
    made and the final state. *)
Fixpoint timeLoop (update : A -> Run -> Run) (fuel : nat)
         (t : A) (step : nat) (tDisplay : A) (s : Run) : option (nat * Run) :=
  if t <=. timeEnd cfg then
    match fuel with
    | O => None
    | S fuel =>
        let '(tDisplay, s) := iteration update t step tDisplay s in
        timeLoop update fuel (t ⊕ timeStep cfg) (S step)
                 (tDisplay ⊕ timeStep cfg) s
    end
  else Some (step, s).

(** The frame shared by the two integrators: allocation and
    precomputation before the loop, the three [gmsh::view::write] calls
    after it. *)
Definition integrate (update : A -> Run -> Run) (fuel : nat)
           (u : list (list A)) (ms : MS) : option (nat * Run) :=
  let Flux := replicate 4 (replicate (getNumNodes M) (replicate 3 (f0 A))) in
  let ms := precomputeMassMatrix M ms in
  match timeLoop update fuel (timeStart cfg) 0 (f0 A)
                 {| r_mesh := ms; r_u := u; r_Flux := Flux; r_out := [] |} with
  | None => None
  | Some (n, s) =>
      Some (n, {| r_mesh := r_mesh s; r_u := r_u s; r_Flux := r_Flux s;
                  r_out := r_out s ++ [ viewWrite Pressure (saveFile cfg);
                                        viewWrite Density (saveFile cfg);
                                        viewWrite Velocity (saveFile cfg) ] |})
  end.

(** *** [forwardEuler] (lines 61-161) *)

Definition eulerUpdate (t : A) (s : Run) : Run :=
  let u := updateSource t (r_u s) in
  let '(ms, u, Flux) := fluxStep (r_mesh s) u (r_Flux s) (f1 A) in
  {| r_mesh := ms; r_u := u; r_Flux := Flux; r_out := r_out s |}.

Definition forwardEuler (fuel : nat) (u : list (list A)) (ms : MS)
  : option (nat * Run) :=
  integrate eulerUpdate fuel u ms.

(** *** [rungeKutta] (lines 171-292) *)

(** [for (eq < u.size()) eigen::plusTimes(kd[eq].data(), ks[eq].data(), c, numNodes)]. *)
Definition plusTimesAll (usize : nat) (kd ks : list (list A)) (c : A)
  : list (list A) :=
  forLoop usize
    (fun eq kd => <[eq := plusTimes (row kd eq) (row ks eq) c numNodes]> kd) kd.

(** The increment [(k1[eq][i]+2*k2[eq][i]+2*k3[eq][i]+k4[eq][i])/6.0], and
    the value that [u[eq][i] += ...] assigns. *)
Definition rkIncrement (k1 k2 k3 k4 : list (list A)) (eq i : nat) : A :=
  (vget (row k1 eq) i ⊕ f2 A ⊗ vget (row k2 eq) i ⊕
   f2 A ⊗ vget (row k3 eq) i ⊕ vget (row k4 eq) i) ⊘ f6 A.

Definition rkSum (u k1 k2 k3 k4 : list (list A)) (eq i : nat) : A :=
  vget (row u eq) i ⊕ rkIncrement k1 k2 k3 k4 eq i.

(** "Concat results of R-K iterations" (lines 281-285). *)
Definition rkConcat (u k1 k2 k3 k4 : list (list A)) : list (list A) :=
  forLoop (length u)
    (fun eq u =>
       forLoop numNodes
         (fun i u => vset2 u eq i (rkSum u k1 k2 k3 k4 eq i)) u)
    u.

(** The values the four stages leave: after stage [j] (flux refresh and
    [numStep] on [kj]) the mesh state [rk_mj], the stage vector [rk_kj]
    and the flux [rk_Fj]; [rk_b2], [rk_b3], [rk_b4] are [k2], [k3], [k4]
    as [plusTimes] leaves them before their own stage. *)
Record RKStages := {
  rk_m1 : MS; rk_k1 : list (list A); rk_F1 : list (list (list A));
  rk_b2 : list (list A);
  rk_m2 : MS; rk_k2 : list (list A); rk_F2 : list (list (list A));
  rk_b3 : list (list A);
  rk_m3 : MS; rk_k3 : list (list A); rk_F3 : list (list (list A));
  rk_b4 : list (list A);
  rk_m4 : MS; rk_k4 : list (list A); rk_F4 : list (list (list A))
}.

(** Lines 261-279, from [k1 = k2 = k3 = k4 = u] to the fourth [numStep]. *)
Definition rkStages (ms : MS) (u : list (list A))
           (Flux : list (list (list A))) : RKStages :=
  let k1 := u in
  let k2 := u in
  let k3 := u in
  let k4 := u in
  let '(m1, k1, F1) := fluxStep ms k1 Flux (f0 A) in
  let b2 := plusTimesAll (length u) k2 k1 (fhalf A) in
  let '(m2, k2, F2) := fluxStep m1 b2 F1 (f0 A) in
  let b3 := plusTimesAll (length u) k3 k2 (fhalf A) in
  let '(m3, k3, F3) := fluxStep m2 b3 F2 (f0 A) in
  let b4 := plusTimesAll (length u) k4 k3 (f1 A) in
  let '(m4, k4, F4) := fluxStep m3 b4 F3 (f0 A) in
  {| rk_m1 := m1; rk_k1 := k1; rk_F1 := F1; rk_b2 := b2;
     rk_m2 := m2; rk_k2 := k2; rk_F2 := F2; rk_b3 := b3;
     rk_m3 := m3; rk_k3 := k3; rk_F3 := F3; rk_b4 := b4;
     rk_m4 := m4; rk_k4 := k4; rk_F4 := F4 |}.

Definition rkUpdate (t : A) (s : Run) : Run :=
  let u := updateSource t (r_u s) in
  let st := rkStages (r_mesh s) u (r_Flux s) in
  {| r_mesh := rk_m4 st;
     r_u := rkConcat u (rk_k1 st) (rk_k2 st) (rk_k3 st) (rk_k4 st);
     r_Flux := rk_F4 st;
     r_out := r_out s |}.

Definition rungeKutta (fuel : nat) (u : list (list A)) (ms : MS)
  : option (nat * Run) :=
  integrate rkUpdate fuel u ms.

(** *** Readings of the code used in the statements *)

(** The invariant of the data model: [u] holds 4 equations of [numNodes]
    entries each, and [numNodes == elNum * elNumNodes]. *)
Definition meshSized : Prop :=
  getNumNodes M = (getElNum M * getElNumNodes M)%nat.

Definition sized (u : list (list A)) : Prop :=
  length u = 4%nat /\
  forall eq, (eq < 4)%nat -> length (row u eq) = getNumNodes M.

(** [elStiffvector] after [eigen::minus] in the body of the element loop:
    the stiffness vector of [el] minus its flux vector. *)
Definition residual (ms : MS) (Fq : list (list A)) (el : nat)
           (ueq : list A) : list A :=
  minus (resize elNumNodes (f0 A) (getElStiffVector M ms el Fq ueq))
        (resize elNumNodes (f0 A) (getElFlux M ms el)) elNumNodes.

(** The mesh state and [Flux[eq]] that [precomputeFlux] leaves for the
    element loop of equation [eq], in a call of [numStep]. *)
Definition precomputed (beta : A) (eq : nat) (ms : MS) (u : list (list A))
           (Flux : list (list (list A))) : MS * list (list A) :=
  let '(ms, u, Flux) := forLoop eq (equationStep beta) (ms, u, Flux) in
  precomputeFlux M ms (row u eq) (row Flux eq) eq.

(** [u[eq]] when the element loop of equation [eq] reaches element [el]. *)
Definition uAtElement (beta : A) (eq el : nat) (ms : MS)
           (u : list (list A)) (Flux : list (list (list A))) : list A :=
  let '(ms', Fq) := precomputed beta eq ms u Flux in
  forLoop el (elementStep ms' Fq beta) (row u eq).

(** The increment of the loop header, [t += timeStep] (and
    [tDisplay += timeStep]). *)
Definition advance (t : A) : A := t ⊕ timeStep cfg.

(** The value of [t] at iteration [k] of the time loop, and the value of
    [tDisplay] [j] iterations after a snapshot. *)
Definition timeAt (k : nat) : A := Nat.iter k advance (timeStart cfg).

Definition accAt (j : nat) : A := Nat.iter j advance (f0 A).

(** [tDisplay] and the state after [k] iterations of the loop body,
    started at [t], [step], [tDisplay]. *)
Fixpoint iterate (update : A -> Run -> Run) (k : nat)
         (t : A) (step : nat) (tDisplay : A) (s : Run) : A * Run :=
  match k with
  | O => (tDisplay, s)
  | S k =>
      let '(tDisplay, s) := iteration update t step tDisplay s in
      iterate update k (t ⊕ timeStep cfg) (S step) (tDisplay ⊕ timeStep cfg) s
  end.

(** The run that [integrate] starts the loop from, the run after [n]
    iterations of the loop, and the run [integrate] returns when the loop
    ends there. *)
Definition initialRun (u : list (list A)) (ms : MS) : Run :=
  {| r_mesh := precomputeMassMatrix M ms; r_u := u;
     r_Flux := replicate 4 (replicate (getNumNodes M) (replicate 3 (f0 A)));
     r_out := [] |}.

Definition runAfter (update : A -> Run -> Run) (n : nat)
           (u : list (list A)) (ms : MS) : Run :=
  snd (iterate update n (timeStart cfg) 0 (f0 A) (initialRun u ms)).

Definition finalRun (update : A -> Run -> Run) (n : nat)
           (u : list (list A)) (ms : MS) : Run :=
  let s := runAfter update n u ms in
  {| r_mesh := r_mesh s; r_u := r_u s; r_Flux := r_Flux s;
     r_out := r_out s ++ [ viewWrite Pressure (saveFile cfg);
                           viewWrite Density (saveFile cfg);
                           viewWrite Velocity (saveFile cfg) ] |}.

(** The display accumulator at the start of iteration [n]. *)
Definition displayAt (update : A -> Run -> Run) (n : nat)
           (u : list (list A)) (ms : MS) : A :=
  fst (iterate update n (timeStart cfg) 0 (f0 A) (initialRun u ms)).

(** The output ends with the three [gmsh::view::write] calls. *)
Definition flushed (r : Run) : Prop :=
  exists out,
    r_out r = out ++ [ viewWrite Pressure (saveFile cfg);
                       viewWrite Density (saveFile cfg);
                       viewWrite Velocity (saveFile cfg) ].

(** The loop test [t <= timeEnd] holds at iterations [0 .. n-1] and fails
    at iteration [n]. *)
Definition stopsAt (n : nat) : bool :=
  forallb (fun k => timeAt k <=. timeEnd cfg) (seq 0 n) &&
  negb (timeAt n <=. timeEnd cfg).

(** [m] is the first count of added time steps at which the display
    accumulator passes the test [tDisplay >= timeRate]. *)
Definition cadence (m : nat) : bool :=
  (1 <=? m)%nat &&
  forallb (fun j => negb (accAt j >=. timeRate cfg)) (seq 1 (m - 1)) &&
  (accAt m >=. timeRate cfg).

(** The steps at which the output holds a pressure snapshot, and the
    pressure data recorded with it. *)
Definition snapshotSteps (out : list (GmshCall A)) : list nat :=
  flat_map (fun c => match c with
                     | addModelData Pressure step _ _ _ _ => [step]
                     | _ => []
                     end) out.

Definition pressureSnapshots (out : list (GmshCall A))
  : list (nat * A * list (list A)) :=
  flat_map (fun c => match c with
                     | addModelData Pressure step _ data t _ => [(step, t, data)]
                     | _ => []
                     end) out.

(** A source is active at time [t]: the test [t < duration] of the
    injection loop. *)
Definition active (t : A) (src : nat) : bool :=
  t <. vget (row (sources cfg) src) 8.

End Solver.

(** ** The snapshot buffers and the element loop, as written *)

Section Loops.
Context {A : Arith} {MS : Type} (M : Mesh A MS) (cfg : Config A).

(** The buffers [g_p], [g_rho] and [g_v] that the copy loops of a
    snapshot fill (lines 78-80 and 189-191). *)
Record Buffers := {
  b_p : list (list A);
  b_rho : list (list A);
  b_v : list (list A)
}.

(** As allocated: [elNum] rows of [elNumNodes] doubles ([3*elNumNodes]
    for [g_v]), value-initialised. *)
Definition allocBuffers : Buffers :=
  {| b_p := replicate (getElNum M) (replicate (elNumNodes M) (f0 A));
     b_rho := replicate (getElNum M) (replicate (elNumNodes M) (f0 A));
     b_v := replicate (getElNum M) (replicate (3 * elNumNodes M) (f0 A)) |}.

(** The body of the inner copy loop (lines 117-122 and 228-233). *)
Definition copyNode (u : list (list A)) (el n : nat) (g : Buffers) : Buffers :=
  let elN := el * elNumNodes M + n in
  {| b_p := vset2 (b_p g) el n (vget (row u 0) elN);
     b_rho := vset2 (b_rho g) el n (vget (row u 0) elN ⊘ (c0 cfg ⊗ c0 cfg));
     b_v := vset2 (vset2 (vset2 (b_v g) el (3 * n + 0) (vget (row u 1) elN))
                         el (3 * n + 1) (vget (row u 2) elN))
                  el (3 * n + 2) (vget (row u 3) elN) |}.

(** "[1] Copy solution to match GMSH format" (lines 115-124 and 226-235). *)
Definition copySolution (u : list (list A)) (g : Buffers) : Buffers :=
  forLoop (getElNum M)
    (fun el g => forLoop (getElNumNodes M) (copyNode u el) g) g.

(** The buffers have the sizes they are allocated with. *)
Definition shaped (g : Buffers) : Prop :=
  length (b_p g) = getElNum M /\
  length (b_rho g) = getElNum M /\
  length (b_v g) = getElNum M /\
  forall el, el < getElNum M ->
    length (row (b_p g) el) = getElNumNodes M /\
    length (row (b_rho g) el) = getElNumNodes M /\
    length (row (b_v g) el) = 3 * getElNumNodes M.

(** The element loop of [numStep] (lines 42-49) with its iterations taken
    in the order [order]; the loop as modelled in [equationStep] is the
    order [0, 1, ..., elNum-1].  The OpenMP pragma on the loop hands the
    iterations out to threads, so the order in which they run is not
    fixed by the source. *)
Definition elementLoop (ms : MS) (Fq : list (list A)) (beta : A)
           (order : list nat) (ueq : list A) : list A :=
  fold_left (fun v el => elementStep M cfg ms Fq beta el v) order ueq.

(** The stiffness vector of an element reads [u[eq]] at the nodes of that
    element only. *)
Definition localStiff : Prop :=
  forall ms el Fq (v w : list A),
    (forall i, i < elNumNodes M ->
               v !! (el * elNumNodes M + i) = w !! (el * elNumNodes M + i)) ->
    getElStiffVector M ms el Fq v = getElStiffVector M ms el Fq w.
End Loops.

(** [cfg] with other output settings: the snapshot rate and the output
    file. *)
Definition withOutput {A : Arith} (cfg : Config A) (rate : A) (file : string)
  : Config A :=
  {| c0 := c0 cfg; v0 := v0 cfg; rho0 := rho0 cfg;
     timeStart := timeStart cfg; timeEnd := timeEnd cfg; timeStep := timeStep cfg;
     timeRate := rate; numThreads := numThreads cfg; saveFile := file;
     sources := sources cfg |}.

(** Two runs that hold the same mesh state, solution and flux. *)
Definition sameState {A : Arith} {MS : Type} (s s' : Run (A:=A) (MS:=MS)) : Prop :=
  r_mesh s = r_mesh s' /\ r_u s = r_u s' /\ r_Flux s = r_Flux s'.

(** What a run computes, without what it writes: the number of
    iterations, the mesh state, the solution and the flux. *)
Definition computed {A : Arith} {MS : Type}
           (r : option (nat * Run (A:=A) (MS:=MS)))
  : option (nat * MS * list (list A) * list (list (list A))) :=
  option_map (fun r => (fst r, r_mesh (snd r), r_u (snd r), r_Flux (snd r))) r.

(** A call that hands gmsh element-node data in the layout gmsh reads:
    one tag and one data row per element of the mesh, and in each row
    [numComponents] values per node of the element; 1 component for the
    pressure and the density, 3 for the velocity. *)
Definition wellFormed {A : Arith} {MS : Type} (M : Mesh A MS) (c : GmshCall A) : Prop :=
  match c with
  | addModelData view _ tags data _ nc =>
      nc = match view with Velocity => 3 | _ => 1 end /\
      length tags = getElNum M /\ length data = getElNum M /\
      Forall (fun r => length r = nc * getElNumNodes M) data
  | _ => True
  end.

(** ** Counting the calls to the mesh *)

(** How often a run has called the three methods of the mesh that write
    to it. *)
Record Calls := {
  massMatrixCalls : nat;
  updateFluxCalls : nat;
  precomputeFluxCalls : nat
}.

Definition noCalls : Calls :=
  {| massMatrixCalls := 0; updateFluxCalls := 0; precomputeFluxCalls := 0 |}.

(** The mesh [M] with a counter beside its state: every method does what
    it does in [M], and the three that write to the mesh count their
    calls. *)
Definition counting {A : Arith} {MS : Type} (M : Mesh A MS) : Mesh A (MS * Calls) := {|
  getElNum := getElNum M;
  getElNumNodes := getElNumNodes M;
  getNumNodes := getNumNodes M;
  elTag := elTag M;
  getElNodeTags := getElNodeTags M;
  getNode := getNode M;
  precomputeMassMatrix := fun s =>
    (precomputeMassMatrix M (fst s),
     {| massMatrixCalls := S (massMatrixCalls (snd s));
        updateFluxCalls := updateFluxCalls (snd s);
        precomputeFluxCalls := precomputeFluxCalls (snd s) |});
  elMassMatrix := fun s => elMassMatrix M (fst s);
  precomputeFlux := fun s ueq Fq eq =>
    (fst (precomputeFlux M (fst s) ueq Fq eq),
     {| massMatrixCalls := massMatrixCalls (snd s);
        updateFluxCalls := updateFluxCalls (snd s);
        precomputeFluxCalls := S (precomputeFluxCalls (snd s)) |},
     snd (precomputeFlux M (fst s) ueq Fq eq));
  getElFlux := fun s => getElFlux M (fst s);
  getElStiffVector := fun s => getElStiffVector M (fst s);
  updateFlux := fun s u Flux v0 c0 rho0 =>
    (fst (updateFlux M (fst s) u Flux v0 c0 rho0),
     {| massMatrixCalls := massMatrixCalls (snd s);
        updateFluxCalls := S (updateFluxCalls (snd s));
        precomputeFluxCalls := precomputeFluxCalls (snd s) |},
     snd (updateFlux M (fst s) u Flux v0 c0 rho0)) |}.

(** [j] calls of [updateFlux] and [k] calls of [precomputeFlux] more. *)
Definition moreCalls (j k : nat) (c : Calls) : Calls :=
  {| massMatrixCalls := massMatrixCalls c;
     updateFluxCalls := j + updateFluxCalls c;
     precomputeFluxCalls := k + precomputeFluxCalls c |}.

(** A run of [M] seen as a run of [counting M] with the counter [c]. *)
Definition withCalls {A : Arith} {MS : Type} (c : Calls) (s : Run (A:=A) (MS:=MS))
  : Run (A:=A) (MS:=MS * Calls) :=
  {| r_mesh := (r_mesh s, c); r_u := r_u s; r_Flux := r_Flux s; r_out := r_out s |}.

(** The integer part of a non-negative real, as a [nat]. *)
Definition floorR (x : R) : nat := Z.to_nat (Int_part x).

(** ** Concrete meshes and configurations

    Small inputs on which the definitions are evaluated. *)

(** A mesh at rest, the mesh of the end-to-end scenarios of the spec:
    [elNum] elements of [elNodes] nodes, identity mass matrix, zero
    stiffness and flux vectors, a flux refresh that leaves [Flux] as it
    is.  Node [n] has tag [n+1] and the coordinates [coords n]. *)
Definition restMesh (A : Arith) (elNum elNodes : nat)
           (coords : nat -> list A) : Mesh A unit := {|
  getElNum := elNum;
  getElNumNodes := elNodes;
  getNumNodes := elNum * elNodes;
  elTag := fun el => (Z.of_nat el + 1)%Z;
  getElNodeTags := fun n => (Z.of_nat n + 1)%Z;
  getNode := fun tag => coords (Z.to_nat (tag - 1));
  precomputeMassMatrix := fun ms => ms;
  elMassMatrix := fun _ _ i j => if (i =? j)%nat then f1 A else f0 A;
  precomputeFlux := fun ms _ Fq _ => (ms, Fq);
  getElFlux := fun _ _ => replicate elNodes (f0 A);
  getElStiffVector := fun _ _ _ _ => replicate elNodes (f0 A);
  updateFlux := fun ms _ Flux _ _ _ => (ms, Flux) |}.

(** A mesh that exercises every collaborator call: 2 elements of 2
    nodes on a line, the matrix [[2 1] [1 2]] for every element, a
    stiffness vector that reads the element's own nodes in reverse, a
    flux vector read from the precomputed [Flux[eq]], and a mesh state
    that counts the [precomputeFlux] calls. *)
Definition toyMesh (A : Arith) : Mesh A nat := {|
  getElNum := 2;
  getElNumNodes := 2;
  getNumNodes := 4;
  elTag := fun el => (Z.of_nat el + 10)%Z;
  getElNodeTags := fun n => (Z.of_nat n + 1)%Z;
  getNode := fun tag =>
    match tag with
    | 1%Z => [f0 A; f0 A; f0 A]
    | 2%Z => [f1 A; f0 A; f0 A]
    | 3%Z => [f1 A; f0 A; f0 A]
    | _ => [f2 A; f0 A; f0 A]
    end;
  precomputeMassMatrix := fun ms => ms;
  elMassMatrix := fun _ _ i j => if (i =? j)%nat then f2 A else f1 A;
  precomputeFlux := fun ms ueq Fq _ => (S ms, map (fun x => [x; f0 A; f0 A]) ueq);
  getElFlux := fun _ el => [f1 A; f0 A];
  getElStiffVector := fun _ el Fq ueq =>
    [vget ueq (el * 2 + 1) ⊕ vget (row Fq (el * 2)) 0; vget ueq (el * 2)];
  updateFlux := fun ms u Flux _ _ _ =>
    (ms, map (fun ueq => map (fun x => [x; x; x]) ueq) u) |}.

(** The doubles nearest to 0.1, 0.8, 1.6 and 2.5. *)
Definition d0_1 : float := 0x1.999999999999ap-4%float.
Definition d0_8 : float := 0x1.999999999999ap-1%float.
Definition d1_6 : float := 0x1.999999999999ap+0%float.
Definition d2_5 : float := 0x1.4p+1%float.

(** A configuration without sources over [0, timeEnd], in binary64. *)
Definition cfg64 (timeEnd timeStep timeRate : float) : Config binary64 :=
  Build_Config binary64
    1%float 0%float 1%float     (* c0, v0, rho0 *)
    0%float timeEnd             (* timeStart, timeEnd *)
    timeStep timeRate
    1 "out.msh" [].

(** A solution on the 4 nodes of [toyMesh] in binary64, and a
    configuration with the time step 0.25. *)
Definition u64 : list (list binary64) :=
  [[1; 2; 3; 4]; [0; 0; 0; 0]; [1; 1; 1; 1]; [0; 1; 0; 1]]%float.

Definition toyCfg64 : Config binary64 := cfg64 1%float 0.25%float 0.5%float.

(** The zero solution on [n] nodes. *)
Definition zeroU (A : Arith) (n : nat) : list (list A) :=
  replicate 4 (replicate n (f0 A)).

(** A configuration over [0, timeEnd] in exact arithmetic, and a source
    at the origin: radius 1, amplitude 1, frequency 1, phase 0, and a
    duration no run below reaches. *)
Definition cfgR (timeEnd timeStep timeRate : R) (srcs : list (list R))
  : Config reals :=
  Build_Config reals 1%R 0%R 1%R 0%R timeEnd timeStep timeRate 1 "out.msh" srcs.

Definition unitSource : list reals := [0; 0; 0; 0; 1; 1; 1; 0; 1000]%R.

(** A solution on the 4 nodes of [toyMesh], and a run that holds it. *)
Definition uR : list (list reals) :=
  [[1; 2; 3; 4]; [0; 0; 0; 0]; [1; 1; 1; 1]; [0; 1; 0; 1]]%R.

Definition runR : Run (A := reals) (MS := nat) :=
  @Build_Run reals nat 0%nat uR [] [].

(** The scenario of the point source: one element with one node at the
    origin, inside the unit source; time step and snapshot rate 1/4 over
    [0, 1/4]. *)
Definition pointMesh : Mesh reals unit :=
  restMesh reals 1 1 (fun _ => [0; 0; 0]%R).

Definition pointCfg : Config reals :=
  cfgR (1 / 4) (1 / 4) (1 / 4) [unitSource].

(** A configuration for [toyMesh] in exact arithmetic, with the unit
    source. *)
Definition toyCfg : Config reals := cfgR 1 (1 / 4) (1 / 2) [unitSource].

(** A clock that stalls after one step in binary64: [timeStart] the
    double just below 1 and [timeStep = 2^-53]; the first addition gives
    1, and [1 + 2^-53] rounds back to 1. *)
Definition stallCfg : Config binary64 :=
  Build_Config binary64 1%float 0%float 1%float
    0x1.fffffffffffffp-1%float 2%float 0x1p-53%float 1%float 1 "out.msh" [].

(** A sound speed whose square underflows to zero in binary64, on
    [toyMesh]. *)
Definition slowCfg : Config binary64 :=
  Build_Config binary64 0x1p-600%float 0%float 1%float
    0%float 1%float 0.25%float 0.5%float 1 "out.msh" [].

(** The unit source with the radius -1. *)
Definition mirrorSource : list reals := [0; 0; 0; 0; -1; 1; 1; 0; 1000]%R.

(** * Properties *)

(** ** Counted loops and in-place updates *)

Lemma forLoop_S {S : Type} (n : nat) (body : nat -> S -> S) (s : S) :
  forLoop (Datatypes.S n) body s = body n (forLoop n body s).
Proof.
  unfold forLoop. rewrite seq_S, fold_left_app. reflexivity.
Qed.

Lemma forLoop_0 {S : Type} (body : nat -> S -> S) (s : S) : forLoop 0 body s = s.
Proof. reflexivity. Qed.

Lemma forLoop_inv {S : Type} (P : nat -> S -> Prop) (n : nat)
      (body : nat -> S -> S) (s : S) :
  P 0%nat s ->
  (forall i s, i < n -> P i s -> P (Datatypes.S i) (body i s)) ->
  P n (forLoop n body s).
Proof.
  intros H0 Hstep. induction n as [|n IH].
  - exact H0.
  - rewrite forLoop_S. apply Hstep; [lia|]. apply IH. intros i s' Hi. apply Hstep. lia.
Qed.

Lemma forLoop_ext {S : Type} (n : nat) (f g : nat -> S -> S) (s : S) :
  (forall i s, i < n -> f i s = g i s) -> forLoop n f s = forLoop n g s.
Proof.
  intros H. induction n as [|n IH]; [reflexivity|].
  rewrite !forLoop_S, IH, H by (intros; try apply H; lia). reflexivity.
Qed.

Section UpdLoop.
Context {X : Type} (d : X).

Lemma updLoop_S off n f v :
  updLoop d off (S n) f v =
  <[off + n := f n (default d (updLoop d off n f v !! (off + n)))]> (updLoop d off n f v).
Proof. unfold updLoop. rewrite forLoop_S. reflexivity. Qed.

Lemma updLoop_length off n f v : length (updLoop d off n f v) = length v.
Proof.
  unfold updLoop. apply (forLoop_inv (fun _ w => length w = length v)); [reflexivity|].
  intros i w _ Hw. rewrite length_insert. exact Hw.
Qed.

Lemma updLoop_lookup off n f v j :
  updLoop d off n f v !! j =
  if decide (off <= j < off + n) then f (j - off) <$> (v !! j) else v !! j.
Proof.
  unfold updLoop. induction n as [|n IH].
  - rewrite forLoop_0. case_decide; [lia|reflexivity].
  - rewrite forLoop_S. set (w := forLoop n _ v) in *.
    assert (Hlen : length w = length v) by apply (updLoop_length off n f v).
    destruct (decide (j = off + n)) as [->|Hne].
    + rewrite decide_True by lia.
      destruct (decide (off + n < length v)) as [Hlt|Hge].
      * rewrite list_lookup_insert_eq by lia.
        rewrite IH. rewrite decide_False by lia.
        destruct (lookup_lt_is_Some_2 v (off + n) Hlt) as [x Hx].
        rewrite Hx. simpl. do 2 f_equal. lia.
      * rewrite list_insert_ge by lia. rewrite IH, decide_False by lia.
        rewrite (lookup_ge_None_2 v) by lia. reflexivity.
    + rewrite list_lookup_insert_ne by lia. rewrite IH.
      repeat case_decide; try lia; reflexivity.
Qed.

Lemma updLoop_in off n f v i :
  i < n -> off + i < length v ->
  default d (updLoop d off n f v !! (off + i)) = f i (default d (v !! (off + i))).
Proof.
  intros Hi Hlen. rewrite updLoop_lookup, decide_True by lia.
  destruct (lookup_lt_is_Some_2 v (off + i) Hlen) as [x Hx].
  rewrite Hx. simpl. f_equal. lia.
Qed.

Lemma updLoop_out off n f v j :
  (j < off \/ off + n <= j) -> updLoop d off n f v !! j = v !! j.
Proof.
  intros H. rewrite updLoop_lookup, decide_False by lia. reflexivity.
Qed.
End UpdLoop.

Section VectorUpdates.
Context {A : Arith}.

Lemma vget_updLoop_in off n f (v : list A) i :
  i < n -> off + i < length v ->
  vget (updLoop (f0 A) off n f v) (off + i) = f i (vget v (off + i)).
Proof. apply updLoop_in. Qed.

Lemma vget_updLoop_out off n f (v : list A) j :
  (j < off \/ off + n <= j) -> vget (updLoop (f0 A) off n f v) j = vget v j.
Proof. intros H. unfold vget. rewrite updLoop_out by exact H. reflexivity. Qed.

Lemma row_updLoop_in {X} off n f (u : list (list X)) i :
  i < n -> off + i < length u ->
  row (updLoop [] off n f u) (off + i) = f i (row u (off + i)).
Proof. apply updLoop_in. Qed.

Lemma row_updLoop_out {X} off n f (u : list (list X)) j :
  (j < off \/ off + n <= j) -> row (updLoop [] off n f u) j = row u j.
Proof. intros H. unfold row. rewrite updLoop_out by exact H. reflexivity. Qed.
End VectorUpdates.

(** ** The kernel [numStep] *)

Section Kernel.
Context {A : Arith} (L : Libm A) {MS : Type} (M : Mesh A MS) (cfg : Config A).

Lemma minus_updLoop (a b : list A) N : minus a b N = updLoop (f0 A) 0 N (fun i x => x ⊖ vget b i) a.
Proof. reflexivity. Qed.

Lemma linEq_updLoop Am (X Y : list A) off alpha beta N :
  linEq Am X Y off alpha beta N =
  updLoop (f0 A) off N (fun i y => alpha ⊗ dot (Am i) X N ⊕ beta ⊗ y) Y.
Proof. reflexivity. Qed.

Lemma plusTimes_updLoop (a b : list A) c N :
  plusTimes a b c N = updLoop (f0 A) 0 N (fun i _ => vget b i ⊗ c) a.
Proof. reflexivity. Qed.

Lemma elementStep_updLoop ms Fq beta el v :
  elementStep M cfg ms Fq beta el v =
  updLoop (f0 A) (el * elNumNodes M) (elNumNodes M)
    (fun i y => timeStep cfg ⊗ dot (elMassMatrix M ms el i) (residual M ms Fq el v) (elNumNodes M)
                ⊕ beta ⊗ y) v.
Proof. reflexivity. Qed.

Lemma vget_resize (l : list A) N j : j < N -> vget (resize N (f0 A) l) j = vget l j.
Proof.
  intros Hj. unfold vget. destruct (decide (j < length l)) as [Hl|Hl].
  - rewrite lookup_resize by lia. reflexivity.
  - rewrite lookup_resize_new by lia. rewrite (lookup_ge_None_2 l) by lia. reflexivity.
Qed.

Lemma vget_residual ms Fq el v j :
  j < elNumNodes M ->
  vget (residual M ms Fq el v) j =
  vget (getElStiffVector M ms el Fq v) j ⊖ vget (getElFlux M ms el) j.
Proof.
  intros Hj. unfold residual. rewrite minus_updLoop.
  assert (H := vget_updLoop_in 0 (elNumNodes M)
     (fun i x => x ⊖ vget (resize (elNumNodes M) (f0 A) (getElFlux M ms el)) i)
     (resize (elNumNodes M) (f0 A) (getElStiffVector M ms el Fq v)) j Hj).
  simpl in H. rewrite H by (rewrite length_resize; lia).
  rewrite !vget_resize by lia. reflexivity.
Qed.

(** The element loop. *)
Lemma elementLoop_length ms Fq beta k v :
  length (forLoop k (elementStep M cfg ms Fq beta) v) = length v.
Proof.
  apply (forLoop_inv (fun _ w => length w = length v)); [reflexivity|].
  intros i w _ Hw. rewrite elementStep_updLoop, updLoop_length. exact Hw.
Qed.

Lemma elementLoop_untouched ms Fq beta k v j :
  k * elNumNodes M <= j ->
  vget (forLoop k (elementStep M cfg ms Fq beta) v) j = vget v j.
Proof.
  induction k as [|k IH]; intros Hj; [reflexivity|].
  rewrite forLoop_S, elementStep_updLoop, vget_updLoop_out by lia.
  apply IH. lia.
Qed.

Lemma elementLoop_done ms Fq beta k el v i :
  el < k -> i < elNumNodes M ->
  vget (forLoop k (elementStep M cfg ms Fq beta) v) (el * elNumNodes M + i) =
  vget (forLoop (S el) (elementStep M cfg ms Fq beta) v) (el * elNumNodes M + i).
Proof.
  intros Hel Hi. induction k as [|k IH]; [lia|].
  destruct (decide (el = k)) as [->|Hne]; [reflexivity|].
  rewrite forLoop_S, elementStep_updLoop, vget_updLoop_out by nia.
  apply IH. lia.
Qed.

Lemma elementLoop_block ms Fq beta k el v i :
  el < k -> i < elNumNodes M -> el * elNumNodes M + i < length v ->
  vget (forLoop k (elementStep M cfg ms Fq beta) v) (el * elNumNodes M + i) =
  timeStep cfg ⊗ dot (elMassMatrix M ms el i)
    (residual M ms Fq el (forLoop el (elementStep M cfg ms Fq beta) v)) (elNumNodes M)
  ⊕ beta ⊗ vget v (el * elNumNodes M + i).
Proof.
  intros Hel Hi Hlen. rewrite elementLoop_done by assumption.
  rewrite forLoop_S, elementStep_updLoop.
  rewrite vget_updLoop_in by (rewrite ?elementLoop_length; lia).
  rewrite elementLoop_untouched by lia. reflexivity.
Qed.

(** The equation loop. *)
Lemma equationStep_u beta eq (s : MS * list (list A) * list (list (list A))) :
  snd (fst (equationStep M cfg beta eq s)) =
  <[eq := forLoop (getElNum M)
            (elementStep M cfg (fst (precomputeFlux M (fst (fst s)) (row (snd (fst s)) eq) (row (snd s) eq) eq))
                         (snd (precomputeFlux M (fst (fst s)) (row (snd (fst s)) eq) (row (snd s) eq) eq)) beta)
            (row (snd (fst s)) eq)]> (snd (fst s)).
Proof.
  destruct s as [[ms u] Flux]. simpl.
  destruct (precomputeFlux M ms (row u eq) (row Flux eq) eq) as [ms' Fq]. reflexivity.
Qed.

Lemma row_insert_ne {X} (u : list (list X)) i j v : i <> j -> row (<[i := v]> u) j = row u j.
Proof. intros H. unfold row. rewrite list_lookup_insert_ne by exact H. reflexivity. Qed.

Lemma row_insert_eq {X} (u : list (list X)) i v : i < length u -> row (<[i := v]> u) i = v.
Proof. intros H. unfold row. rewrite list_lookup_insert_eq by exact H. reflexivity. Qed.

Lemma equationStep_length beta eq (s : MS * list (list A) * list (list (list A))) :
  length (snd (fst (equationStep M cfg beta eq s))) = length (snd (fst s)).
Proof. rewrite equationStep_u, length_insert. reflexivity. Qed.

Lemma equationStep_row_ne beta eq eq' (s : MS * list (list A) * list (list (list A))) :
  eq <> eq' -> row (snd (fst (equationStep M cfg beta eq s))) eq' = row (snd (fst s)) eq'.
Proof. intros H. rewrite equationStep_u. apply row_insert_ne. exact H. Qed.

Lemma equationLoop_length beta k (s : MS * list (list A) * list (list (list A))) :
  length (snd (fst (forLoop k (equationStep M cfg beta) s))) = length (snd (fst s)).
Proof.
  induction k as [|k IH]; [reflexivity|].
  rewrite forLoop_S, equationStep_length. exact IH.
Qed.

Lemma equationLoop_row_later beta k eq (s : MS * list (list A) * list (list (list A))) :
  k <= eq -> row (snd (fst (forLoop k (equationStep M cfg beta) s))) eq = row (snd (fst s)) eq.
Proof.
  induction k as [|k IH]; intros Hk; [reflexivity|].
  rewrite forLoop_S, equationStep_row_ne by lia. apply IH. lia.
Qed.

Lemma equationLoop_row_done beta k eq (s : MS * list (list A) * list (list (list A))) :
  eq < k ->
  row (snd (fst (forLoop k (equationStep M cfg beta) s))) eq =
  row (snd (fst (forLoop (S eq) (equationStep M cfg beta) s))) eq.
Proof.
  intros Hk. induction k as [|k IH]; [lia|].
  destruct (decide (eq = k)) as [->|Hne]; [reflexivity|].
  rewrite forLoop_S, equationStep_row_ne by lia. apply IH. lia.
Qed.

Lemma numStep_row beta eq ms u Flux :
  eq < 4 -> eq < length u ->
  row (snd (fst (numStep M cfg ms u Flux beta))) eq =
  forLoop (getElNum M)
    (elementStep M cfg (fst (precomputed M cfg beta eq ms u Flux))
                 (snd (precomputed M cfg beta eq ms u Flux)) beta)
    (row u eq).
Proof.
  intros Heq Hlen. unfold numStep.
  rewrite equationLoop_row_done by exact Heq.
  rewrite forLoop_S, equationStep_u.
  rewrite row_insert_eq by (rewrite equationLoop_length; exact Hlen).
  rewrite equationLoop_row_later by lia. unfold precomputed.
  destruct (forLoop eq (equationStep M cfg beta) (ms, u, Flux)) as [[ms' u'] Flux'] eqn:E.
  simpl.
  assert (Hrow : row u' eq = row u eq).
  { change u' with (snd (fst (ms', u', Flux'))). rewrite <- E.
    apply equationLoop_row_later. lia. }
  rewrite Hrow. reflexivity.
Qed.

Lemma numStep_length beta ms u Flux :
  length (snd (fst (numStep M cfg ms u Flux beta))) = length u.
Proof. apply equationLoop_length. Qed.

Lemma numStep_block beta eq el i ms u Flux :
  eq < 4 -> eq < length u -> el < getElNum M -> i < elNumNodes M ->
  el * elNumNodes M + i < length (row u eq) ->
  vget (row (snd (fst (numStep M cfg ms u Flux beta))) eq) (el * elNumNodes M + i) =
  timeStep cfg ⊗
    dot (elMassMatrix M (fst (precomputed M cfg beta eq ms u Flux)) el i)
        (residual M (fst (precomputed M cfg beta eq ms u Flux))
                  (snd (precomputed M cfg beta eq ms u Flux)) el
                  (uAtElement M cfg beta eq el ms u Flux))
        (elNumNodes M)
  ⊕ beta ⊗ vget (row u eq) (el * elNumNodes M + i).
Proof.
  intros Heq Hlen Hel Hi Hin. rewrite numStep_row by assumption.
  rewrite elementLoop_block by assumption.
  unfold uAtElement.
  destruct (precomputed M cfg beta eq ms u Flux) as [ms' Fq]. reflexivity.
Qed.

Lemma numStep_row_length beta eq ms u Flux :
  eq < 4 -> eq < length u ->
  length (row (snd (fst (numStep M cfg ms u Flux beta))) eq) = length (row u eq).
Proof.
  intros Heq Hlen. rewrite numStep_row by assumption. apply elementLoop_length.
Qed.
End Kernel.

(** ** Source sets and injection *)

Lemma forLoop_nth {S X : Type} (d : X) (l : list X) (g : X -> S -> S) (s : S) :
  forLoop (length l) (fun n s => g (nth n l d) s) s = fold_left (fun s x => g x s) l s.
Proof.
  induction l as [|x l IH] using rev_ind; [reflexivity|].
  rewrite length_app, Nat.add_1_r, forLoop_S, fold_left_app. simpl.
  rewrite app_nth2, Nat.sub_diag by lia. simpl. f_equal.
  rewrite <- IH. apply forLoop_ext. intros i s' Hi.
  rewrite app_nth1 by lia. reflexivity.
Qed.

Lemma forLoop_snoc {X : Type} (n : nat) (g : nat -> X) :
  forLoop n (fun i acc => acc ++ [g i]) [] = map g (seq 0 n).
Proof.
  induction n as [|n IH]; [reflexivity|].
  rewrite forLoop_S, IH, seq_S, map_app. reflexivity.
Qed.

Lemma forLoop_filter (n : nat) (p : nat -> bool) :
  forLoop n (fun i acc => if p i then acc ++ [i] else acc) [] = List.filter p (seq 0 n).
Proof.
  induction n as [|n IH]; [reflexivity|].
  rewrite forLoop_S, IH, seq_S, List.filter_app. simpl.
  destruct (p n); [reflexivity|]. rewrite app_nil_r. reflexivity.
Qed.

Section SourceSets.
Context {A : Arith} (L : Libm A) {MS : Type} (M : Mesh A MS) (cfg : Config A).

Lemma indice_filter src :
  indice L M src = List.filter (inSource L M src) (seq 0 (numNodes M)).
Proof. apply forLoop_filter. Qed.

Lemma elem_of_indice src n :
  n ∈ indice L M src <-> n < numNodes M /\ inSource L M src n = true.
Proof.
  rewrite indice_filter, list_elem_of_In, List.filter_In, in_seq. split.
  - intros [[_ H] H']. split; [exact H|exact H'].
  - intros [H H']. split; [lia|exact H'].
Qed.

Lemma srcIndices_map :
  srcIndices L M cfg = map (indice L M) (sources cfg).
Proof.
  unfold srcIndices. rewrite forLoop_snoc.
  apply list_eq. intros i. rewrite !list_lookup_fmap.
  destruct (decide (i < length (sources cfg))) as [Hi|Hi].
  - rewrite lookup_seq_lt by exact Hi. simpl. unfold row.
    destruct (lookup_lt_is_Some_2 _ _ Hi) as [x Hx]. rewrite Hx. reflexivity.
  - rewrite lookup_seq_ge by lia. rewrite (lookup_ge_None_2 (sources cfg)) by lia. reflexivity.
Qed.

Lemma row_srcIndices i :
  i < length (sources cfg) ->
  row (srcIndices L M cfg) i = indice L M (row (sources cfg) i).
Proof.
  intros Hi. rewrite srcIndices_map. unfold row. rewrite list_lookup_fmap.
  destruct (lookup_lt_is_Some_2 _ _ Hi) as [x Hx]. rewrite Hx. reflexivity.
Qed.

(** *** Injection *)

Lemma setAll_length idx (x : A) v : length (setAll idx x v) = length v.
Proof.
  revert v. induction idx as [|k idx IH]; intros v; [reflexivity|].
  change (setAll (k :: idx) x v) with (setAll idx x (<[k := x]> v)).
  rewrite IH, length_insert. reflexivity.
Qed.

Lemma setAll_lookup idx (x : A) v k :
  setAll idx x v !! k =
  if decide (k ∈ idx) then (fun _ => x) <$> (v !! k) else v !! k.
Proof.
  revert v. induction idx as [|j idx IH]; intros v.
  - change (setAll [] x v) with v. rewrite decide_False; [reflexivity|]. apply not_elem_of_nil.
  - change (setAll (j :: idx) x v) with (setAll idx x (<[j := x]> v)).
    rewrite IH. destruct (decide (k = j)) as [->|Hne].
    + rewrite (decide_True (P := j ∈ j :: idx)) by apply list_elem_of_here.
      destruct (decide (j < length v)) as [Hl|Hl].
      * rewrite list_lookup_insert_eq by exact Hl.
        destruct (lookup_lt_is_Some_2 _ _ Hl) as [y Hy]. rewrite Hy.
        case_decide; reflexivity.
      * rewrite list_insert_ge by lia. rewrite (lookup_ge_None_2 v) by lia.
        case_decide; reflexivity.
    + rewrite list_lookup_insert_ne by congruence.
      destruct (decide (k ∈ idx)) as [Hin|Hin].
      * rewrite decide_True by (apply list_elem_of_further; exact Hin). reflexivity.
      * rewrite decide_False; [reflexivity|].
        intros H. apply elem_of_cons in H. destruct H; [congruence|contradiction].
Qed.

Lemma vset2_fold idx (x : A) (u : list (list A)) :
  fold_left (fun u k => vset2 u 0 k x) idx u = <[0 := setAll idx x (row u 0)]> u.
Proof.
  revert u. induction idx as [|k idx IH]; intros u.
  - simpl. destruct u as [|r u]; reflexivity.
  - simpl. rewrite IH. unfold vset2. destruct u as [|r u]; reflexivity.
Qed.

Lemma injectSource_active t src u :
  active cfg t src = true ->
  injectSource L M cfg t src u =
  <[0 := setAll (row (srcIndices L M cfg) src) (srcValue L (row (sources cfg) src) t) (row u 0)]> u.
Proof.
  intros Ha. unfold injectSource. unfold active in Ha. rewrite Ha.
  rewrite (forLoop_nth 0 (row (srcIndices L M cfg) src)
             (fun k u => vset2 u 0 k (srcValue L (row (sources cfg) src) t))).
  apply vset2_fold.
Qed.

Lemma injectSource_inactive t src u :
  active cfg t src = false -> injectSource L M cfg t src u = u.
Proof. intros Ha. unfold injectSource. unfold active in Ha. rewrite Ha. reflexivity. Qed.

Lemma injectSource_length t src u : length (injectSource L M cfg t src u) = length u.
Proof.
  destruct (active cfg t src) eqn:Ha.
  - rewrite injectSource_active by exact Ha. apply length_insert.
  - rewrite injectSource_inactive by exact Ha. reflexivity.
Qed.

Lemma injectSource_row_ne t src u eq :
  eq <> 0 -> row (injectSource L M cfg t src u) eq = row u eq.
Proof.
  intros Heq. destruct (active cfg t src) eqn:Ha.
  - rewrite injectSource_active by exact Ha. apply row_insert_ne. congruence.
  - rewrite injectSource_inactive by exact Ha. reflexivity.
Qed.

Lemma injectSource_row0_lookup t src u n :
  row (injectSource L M cfg t src u) 0 !! n =
  if active cfg t src && bool_decide (n ∈ row (srcIndices L M cfg) src)
  then (fun _ => srcValue L (row (sources cfg) src) t) <$> (row u 0 !! n)
  else row u 0 !! n.
Proof.
  destruct (active cfg t src) eqn:Ha; simpl.
  - rewrite injectSource_active by exact Ha.
    destruct u as [|r u].
    + simpl. unfold row. simpl. rewrite lookup_nil. case_bool_decide; reflexivity.
    + simpl. unfold row. simpl. rewrite setAll_lookup.
      case_bool_decide; case_decide; try contradiction; reflexivity.
  - rewrite injectSource_inactive by exact Ha. reflexivity.
Qed.

Lemma updateSource_length t u : length (updateSource L M cfg t u) = length u.
Proof.
  unfold updateSource.
  apply (forLoop_inv (fun _ w => length w = length u)); [reflexivity|].
  intros i w _ Hw. rewrite injectSource_length. exact Hw.
Qed.

Lemma updateSource_row_ne t u eq :
  eq <> 0 -> row (updateSource L M cfg t u) eq = row u eq.
Proof.
  intros Heq. unfold updateSource.
  apply (forLoop_inv (fun _ w => row w eq = row u eq)); [reflexivity|].
  intros i w _ Hw. rewrite injectSource_row_ne by exact Heq. exact Hw.
Qed.

Lemma updateSource_row0_length t u :
  length (row (updateSource L M cfg t u) 0) = length (row u 0).
Proof.
  unfold updateSource.
  apply (forLoop_inv (fun _ w => length (row w 0) = length (row u 0))); [reflexivity|].
  intros i w _ Hw. rewrite <- Hw.
  destruct (active cfg t i) eqn:Ha.
  - rewrite injectSource_active by exact Ha.
    destruct w as [|r w]; [reflexivity|]. unfold row. simpl. apply setAll_length.
  - rewrite injectSource_inactive by exact Ha. reflexivity.
Qed.

(** After the first [k] turns of the source loop, node [n] is untouched
    if no active source among them holds it. *)
Lemma sourceLoop_untouched t u n k :
  (forall src, src < k -> active cfg t src = true -> n ∉ row (srcIndices L M cfg) src) ->
  row (forLoop k (injectSource L M cfg t) u) 0 !! n = row u 0 !! n.
Proof.
  induction k as [|k IH]; intros H; [reflexivity|].
  rewrite forLoop_S, injectSource_row0_lookup.
  destruct (active cfg t k) eqn:Ha; simpl.
  - rewrite bool_decide_eq_false_2 by (apply H; [lia|exact Ha]).
    apply IH. intros src Hs. apply H. lia.
  - apply IH. intros src Hs. apply H. lia.
Qed.

(** ... and holds the value of the last active source that holds it. *)
Lemma sourceLoop_last t u n k src :
  src < k -> active cfg t src = true -> n ∈ row (srcIndices L M cfg) src ->
  (forall src', src < src' < k -> active cfg t src' = true ->
                n ∉ row (srcIndices L M cfg) src') ->
  row (forLoop k (injectSource L M cfg t) u) 0 !! n =
  (fun _ => srcValue L (row (sources cfg) src) t) <$> (row u 0 !! n).
Proof.
  induction k as [|k IH]; intros Hk Ha Hin Hlater; [lia|].
  rewrite forLoop_S, injectSource_row0_lookup.
  destruct (decide (src = k)) as [->|Hne].
  - rewrite Ha. simpl. rewrite bool_decide_eq_true_2 by exact Hin.
    assert (Hlen : length (row (forLoop k (injectSource L M cfg t) u) 0) = length (row u 0)).
    { apply (forLoop_inv (fun _ w => length (row w 0) = length (row u 0))); [reflexivity|].
      intros i w _ Hw. rewrite <- Hw.
      destruct (active cfg t i) eqn:Ha'.
      - rewrite injectSource_active by exact Ha'.
        destruct w as [|r w]; [reflexivity|]. unfold row. simpl. apply setAll_length.
      - rewrite injectSource_inactive by exact Ha'. reflexivity. }
    destruct (decide (n < length (row u 0))) as [Hl|Hl].
    + destruct (lookup_lt_is_Some_2 (row u 0) n Hl) as [x Hx].
      destruct (lookup_lt_is_Some_2 (row (forLoop k (injectSource L M cfg t) u) 0) n) as [y Hy];
        [lia|]. rewrite Hx, Hy. reflexivity.
    + rewrite (lookup_ge_None_2 (row u 0)) by lia.
      rewrite (lookup_ge_None_2 (row (forLoop k (injectSource L M cfg t) u) 0)) by lia.
      reflexivity.
  - destruct (active cfg t k) eqn:Hak; simpl.
    + rewrite bool_decide_eq_false_2 by (apply Hlater; [lia|exact Hak]).
      apply IH; try assumption; [lia|]. intros src' Hs. apply Hlater. lia.
    + apply IH; try assumption; [lia|]. intros src' Hs. apply Hlater. lia.
Qed.
End SourceSets.

(** ** The stage scaling and the combination of [rungeKutta] *)

Lemma insert_row_id {X} (u : list (list X)) eq : <[eq := row u eq]> u = u.
Proof.
  destruct (decide (eq < length u)) as [H|H].
  - destruct (lookup_lt_is_Some_2 _ _ H) as [r Hr].
    unfold row. rewrite Hr. simpl. apply list_insert_id. exact Hr.
  - apply list_insert_ge. lia.
Qed.

Section Combination.
Context {A : Arith} (L : Libm A) {MS : Type} (M : Mesh A MS) (cfg : Config A).

Lemma plusTimesAll_updLoop usize (kd ks : list (list A)) c :
  plusTimesAll M usize kd ks c =
  updLoop [] 0 usize (fun eq r => plusTimes r (row ks eq) c (numNodes M)) kd.
Proof. reflexivity. Qed.

Lemma plusTimesAll_length usize (kd ks : list (list A)) c :
  length (plusTimesAll M usize kd ks c) = length kd.
Proof. rewrite plusTimesAll_updLoop. apply updLoop_length. Qed.

Lemma plusTimesAll_row usize (kd ks : list (list A)) c eq :
  eq < usize -> eq < length kd ->
  row (plusTimesAll M usize kd ks c) eq = plusTimes (row kd eq) (row ks eq) c (numNodes M).
Proof.
  intros H1 H2. rewrite plusTimesAll_updLoop.
  exact (row_updLoop_in 0 usize
           (fun eq r => plusTimes r (row ks eq) c (numNodes M)) kd eq H1 H2).
Qed.

Lemma plusTimes_length (a b : list A) c N : length (plusTimes a b c N) = length a.
Proof. rewrite plusTimes_updLoop. apply updLoop_length. Qed.

Lemma vget_plusTimes (a b : list A) c N i :
  i < N -> i < length a -> vget (plusTimes a b c N) i = vget b i ⊗ c.
Proof.
  intros H1 H2. rewrite plusTimes_updLoop.
  exact (vget_updLoop_in 0 N (fun i _ => vget b i ⊗ c) a i H1 H2).
Qed.

Lemma plusTimesAll_get usize (kd ks : list (list A)) c eq i :
  eq < usize -> eq < length kd -> i < numNodes M -> i < length (row kd eq) ->
  vget (row (plusTimesAll M usize kd ks c) eq) i = vget (row ks eq) i ⊗ c.
Proof.
  intros. rewrite plusTimesAll_row by assumption. apply vget_plusTimes; assumption.
Qed.

(** The combination loop. *)
Lemma rkConcat_inner (k1 k2 k3 k4 : list (list A)) eq n (u : list (list A)) :
  forLoop n (fun i u => vset2 u eq i (rkSum u k1 k2 k3 k4 eq i)) u =
  <[eq := updLoop (f0 A) 0 n (fun i x => x ⊕ rkIncrement k1 k2 k3 k4 eq i) (row u eq)]> u.
Proof.
  destruct (decide (eq < length u)) as [Hlt|Hge].
  - induction n as [|n IH].
    + rewrite forLoop_0. symmetry. apply insert_row_id.
    + rewrite forLoop_S, IH. unfold vset2.
      rewrite row_insert_eq by exact Hlt. rewrite list_insert_insert_eq.
      rewrite updLoop_S. unfold rkSum.
      rewrite row_insert_eq by exact Hlt. reflexivity.
  - rewrite (list_insert_ge u) by lia.
    apply (forLoop_inv (fun _ w => w = u)); [reflexivity|].
    intros i w _ ->. unfold vset2. apply list_insert_ge. lia.
Qed.

Lemma rkConcat_updLoop (u k1 k2 k3 k4 : list (list A)) :
  rkConcat M u k1 k2 k3 k4 =
  updLoop [] 0 (length u)
    (fun eq r => updLoop (f0 A) 0 (numNodes M)
                   (fun i x => x ⊕ rkIncrement k1 k2 k3 k4 eq i) r) u.
Proof.
  unfold rkConcat, updLoop at 1. apply forLoop_ext. intros eq w _.
  apply rkConcat_inner.
Qed.

Lemma rkConcat_length (u k1 k2 k3 k4 : list (list A)) :
  length (rkConcat M u k1 k2 k3 k4) = length u.
Proof. rewrite rkConcat_updLoop. apply updLoop_length. Qed.

Lemma rkConcat_row (u k1 k2 k3 k4 : list (list A)) eq :
  eq < length u ->
  row (rkConcat M u k1 k2 k3 k4) eq =
  updLoop (f0 A) 0 (numNodes M) (fun i x => x ⊕ rkIncrement k1 k2 k3 k4 eq i) (row u eq).
Proof.
  intros H. rewrite rkConcat_updLoop.
  exact (row_updLoop_in 0 (length u)
           (fun eq r => updLoop (f0 A) 0 (numNodes M)
                          (fun i x => x ⊕ rkIncrement k1 k2 k3 k4 eq i) r) u eq H H).
Qed.

Lemma rkConcat_get (u k1 k2 k3 k4 : list (list A)) eq i :
  eq < length u -> i < numNodes M -> i < length (row u eq) ->
  vget (row (rkConcat M u k1 k2 k3 k4) eq) i = rkSum u k1 k2 k3 k4 eq i.
Proof.
  intros H1 H2 H3. rewrite rkConcat_row by exact H1.
  exact (vget_updLoop_in 0 (numNodes M)
           (fun i x => x ⊕ rkIncrement k1 k2 k3 k4 eq i) (row u eq) i H2 H3).
Qed.

Lemma rkConcat_beyond (u k1 k2 k3 k4 : list (list A)) eq i :
  eq < length u -> numNodes M <= i ->
  vget (row (rkConcat M u k1 k2 k3 k4) eq) i = vget (row u eq) i.
Proof.
  intros H1 H2. rewrite rkConcat_row by exact H1.
  apply vget_updLoop_out. lia.
Qed.
End Combination.

(** ** The time loop *)

Section Loop.
Context {A : Arith} (L : Libm A) {MS : Type} (M : Mesh A MS) (cfg : Config A).
Variable update : A -> Run (A:=A) (MS:=MS) -> Run (A:=A) (MS:=MS).


Lemma iter_advance k t :
  Nat.iter k (advance cfg) (t ⊕ timeStep cfg) = Nat.iter (S k) (advance cfg) t.
Proof. symmetry. apply (Nat.iter_succ_r k (advance cfg) t). Qed.

Lemma timeLoop_stop fuel t step tD s :
  (t <=. timeEnd cfg) = false ->
  timeLoop M cfg update fuel t step tD s = Some (step, s).
Proof. intros H. destruct fuel; simpl; rewrite H; reflexivity. Qed.

Lemma timeLoop_step fuel t step tD s :
  (t <=. timeEnd cfg) = true ->
  timeLoop M cfg update (S fuel) t step tD s =
  timeLoop M cfg update fuel (t ⊕ timeStep cfg) (S step)
           (fst (iteration M cfg update t step tD s) ⊕ timeStep cfg)
           (snd (iteration M cfg update t step tD s)).
Proof.
  intros H. simpl. rewrite H.
  destruct (iteration M cfg update t step tD s) as [tD' s']. reflexivity.
Qed.

Lemma iterate_S k t step tD s :
  iterate M cfg update (S k) t step tD s =
  iterate M cfg update k (t ⊕ timeStep cfg) (S step)
          (fst (iteration M cfg update t step tD s) ⊕ timeStep cfg)
          (snd (iteration M cfg update t step tD s)).
Proof.
  simpl. destruct (iteration M cfg update t step tD s) as [tD' s']. reflexivity.
Qed.

(** The loop makes exactly [n] iterations when the test holds at the
    first [n] values of [t] and fails at the next one, given fuel for them. *)
Lemma timeLoop_exact n : forall fuel t step tD s,
  (forall k, k < n -> (Nat.iter k (advance cfg) t <=. timeEnd cfg) = true) ->
  (Nat.iter n (advance cfg) t <=. timeEnd cfg) = false ->
  n <= fuel ->
  timeLoop M cfg update fuel t step tD s =
  Some (step + n, snd (iterate M cfg update n t step tD s)).
Proof.
  induction n as [|n IH]; intros fuel t step tD s Hlt Hn Hfuel.
  - rewrite timeLoop_stop by exact Hn. rewrite Nat.add_0_r. reflexivity.
  - destruct fuel as [|fuel]; [lia|].
    rewrite timeLoop_step by (apply (Hlt 0); lia).
    rewrite IH.
    + rewrite iterate_S. f_equal. f_equal. lia.
    + intros k Hk. rewrite iter_advance. apply Hlt. lia.
    + rewrite iter_advance. exact Hn.
    + lia.
Qed.

(** ... and gives no result on less fuel. *)
Lemma timeLoop_out_of_fuel fuel : forall t step tD s,
  (forall k, k <= fuel -> (Nat.iter k (advance cfg) t <=. timeEnd cfg) = true) ->
  timeLoop M cfg update fuel t step tD s = None.
Proof.
  induction fuel as [|fuel IH]; intros t step tD s Hlt.
  - assert (H0 := Hlt 0 (Nat.le_refl 0)). simpl in *. rewrite H0. reflexivity.
  - rewrite timeLoop_step by (apply (Hlt 0); lia).
    apply IH. intros k Hk. rewrite iter_advance. apply Hlt. lia.
Qed.

Lemma stopsAt_spec n :
  stopsAt cfg n = true <->
  (forall k, k < n -> (timeAt cfg k <=. timeEnd cfg) = true) /\
  (timeAt cfg n <=. timeEnd cfg) = false.
Proof.
  unfold stopsAt. rewrite andb_true_iff, negb_true_iff, forallb_forall. split.
  - intros [H1 H2]. split; [|exact H2]. intros k Hk. apply H1, in_seq. lia.
  - intros [H1 H2]. split; [|exact H2]. intros k Hk. apply H1. apply in_seq in Hk. lia.
Qed.

Lemma cadence_spec m :
  cadence cfg m = true <->
  1 <= m /\
  (forall j, 1 <= j < m -> (accAt cfg j >=. timeRate cfg) = false) /\
  (accAt cfg m >=. timeRate cfg) = true.
Proof.
  unfold cadence. rewrite !andb_true_iff, forallb_forall, Nat.leb_le. split.
  - intros [[H1 H2] H3]. repeat split; try assumption.
    intros j Hj. apply negb_true_iff, H2, in_seq. lia.
  - intros (H1 & H2 & H3). repeat split; try assumption.
    intros j Hj. apply negb_true_iff, H2. apply in_seq in Hj. lia.
Qed.

Lemma stopsAt_unique n n' :
  stopsAt cfg n = true -> stopsAt cfg n' = true -> n = n'.
Proof.
  rewrite !stopsAt_spec. intros [H1 H2] [H1' H2'].
  destruct (Nat.lt_trichotomy n n') as [H|[H|H]]; [|exact H|].
  - rewrite (H1' n H) in H2. discriminate.
  - rewrite (H1 n' H) in H2'. discriminate.
Qed.

(** *** Snapshots along the loop *)

Hypothesis update_out : forall t s, r_out (update t s) = r_out s.

Lemma snapshotSteps_app (o1 o2 : list (GmshCall A)) :
  snapshotSteps (o1 ++ o2) = snapshotSteps o1 ++ snapshotSteps o2.
Proof. unfold snapshotSteps. apply flat_map_app. Qed.

Lemma iteration_out t step tD s :
  r_out (snd (iteration M cfg update t step tD s)) =
  if snapshotDue cfg step tD then r_out s ++ snapshot M cfg t step (r_u s) else r_out s.
Proof.
  unfold iteration. destruct (snapshotDue cfg step tD); simpl; apply update_out.
Qed.

Lemma iteration_tDisplay t step tD s :
  fst (iteration M cfg update t step tD s) =
  if snapshotDue cfg step tD then f0 A else tD.
Proof. unfold iteration. destruct (snapshotDue cfg step tD); reflexivity. Qed.

Lemma iterate_snapshotSteps m :
  cadence cfg m = true ->
  forall n t step tD s j,
  (step = 0 \/ (1 <= step /\ 1 <= j <= m /\ tD = accAt cfg j /\ step mod m = j mod m)) ->
  snapshotSteps (r_out (snd (iterate M cfg update n t step tD s))) =
  snapshotSteps (r_out s) ++ List.filter (fun k => k mod m =? 0) (seq step n).
Proof.
  intros Hc. apply cadence_spec in Hc. destruct Hc as (Hm & Hbelow & Hat).
  induction n as [|n IH]; intros t step tD s j Hinv.
  - simpl. rewrite app_nil_r. reflexivity.
  - rewrite iterate_S.
    assert (Hdue : snapshotDue cfg step tD = (step mod m =? 0)).
    { unfold snapshotDue. destruct Hinv as [->|(Hs & Hj & -> & Hmod)].
      - rewrite Nat.Div0.mod_0_l. rewrite orb_true_r. reflexivity.
      - replace (step =? 0) with false by (symmetry; apply Nat.eqb_neq; lia).
        rewrite orb_false_r. destruct (decide (j = m)) as [->|Hne].
        + rewrite Hat, Hmod, Nat.Div0.mod_same. reflexivity.
        + rewrite Hbelow by lia. rewrite Hmod, Nat.mod_small by lia.
          symmetry. apply Nat.eqb_neq. lia. }
    rewrite (IH _ _ _ _ (if step mod m =? 0 then 1 else S j)).
    + rewrite iteration_out, Hdue. simpl seq. simpl List.filter.
      destruct (step mod m =? 0).
      * rewrite snapshotSteps_app. simpl. rewrite <- app_assoc. reflexivity.
      * reflexivity.
    + right. rewrite iteration_tDisplay, Hdue.
      destruct (step mod m =? 0) eqn:E.
      * apply Nat.eqb_eq in E. repeat split; try lia.
        rewrite <- Nat.add_1_r, Nat.Div0.add_mod, E. simpl.
        rewrite Nat.Div0.mod_mod. reflexivity.
      * apply Nat.eqb_neq in E.
        destruct Hinv as [->|(Hs & Hj & -> & Hmod)].
        { rewrite Nat.Div0.mod_0_l in E. lia. }
        assert (j <> m).
        { intros ->. rewrite Nat.Div0.mod_same in Hmod. lia. }
        repeat split; try lia.
        rewrite <- (Nat.add_1_r step), <- (Nat.add_1_r j).
        rewrite Nat.Div0.add_mod, Hmod, <- Nat.Div0.add_mod. reflexivity.
Qed.
End Loop.

(** ** One step of each integrator *)

Section Steps.
Context {A : Arith} (L : Libm A) {MS : Type} (M : Mesh A MS) (cfg : Config A).

Lemma fluxStep_numStep ms u Flux beta :
  fluxStep M cfg ms u Flux beta =
  numStep M cfg (fst (updateFlux M ms u Flux (v0 cfg) (c0 cfg) (rho0 cfg))) u
          (snd (updateFlux M ms u Flux (v0 cfg) (c0 cfg) (rho0 cfg))) beta.
Proof.
  unfold fluxStep. destruct (updateFlux M ms u Flux (v0 cfg) (c0 cfg) (rho0 cfg)).
  reflexivity.
Qed.

Lemma updateSource_sized t u : sized M u -> sized M (updateSource L M cfg t u).
Proof.
  intros [H4 Hrows]. split.
  - rewrite updateSource_length. exact H4.
  - intros eq Heq. destruct (decide (eq = 0)) as [->|Hne].
    + rewrite updateSource_row0_length. apply Hrows. lia.
    + rewrite updateSource_row_ne by exact Hne. apply Hrows. exact Heq.
Qed.

Lemma fluxStep_sized ms u Flux beta :
  sized M u -> sized M (snd (fst (fluxStep M cfg ms u Flux beta))).
Proof.
  intros [H4 Hrows]. rewrite fluxStep_numStep. split.
  - rewrite numStep_length. exact H4.
  - intros eq Heq. rewrite numStep_row_length by lia. apply Hrows. exact Heq.
Qed.

Lemma eulerUpdate_u t s :
  r_u (eulerUpdate L M cfg t s) =
  snd (fst (fluxStep M cfg (r_mesh s) (updateSource L M cfg t (r_u s)) (r_Flux s) (f1 A))).
Proof.
  unfold eulerUpdate.
  destruct (fluxStep M cfg (r_mesh s) (updateSource L M cfg t (r_u s)) (r_Flux s) (f1 A))
    as [[ms u] Flux]. reflexivity.
Qed.

(** C1. One forward Euler step: after the source injection and the flux
    refresh, [numStep] with [beta = 1] leaves in the block of element [el]
    of [u[eq]], entry by entry, [timeStep] times the row of the element's
    matrix [M^-1] applied to the residual, plus the old value of the
    entry; the residual is the stiffness vector of the element minus its
    flux vector, as the mesh gives them when the element loop reaches
    [el].  The retention product [1 * u_old] is taken to be [u_old], as it
    is in binary64 and in exact arithmetic. *)
Theorem forwardEuler_step_block (t : A) (s : Run) (eq el i : nat) :
  let u := updateSource L M cfg t (r_u s) in
  let ms1 := fst (updateFlux M (r_mesh s) u (r_Flux s) (v0 cfg) (c0 cfg) (rho0 cfg)) in
  let Flux1 := snd (updateFlux M (r_mesh s) u (r_Flux s) (v0 cfg) (c0 cfg) (rho0 cfg)) in
  let mse := fst (precomputed M cfg (f1 A) eq ms1 u Flux1) in
  let Fq := snd (precomputed M cfg (f1 A) eq ms1 u Flux1) in
  let ue := uAtElement M cfg (f1 A) eq el ms1 u Flux1 in
  let k := el * elNumNodes M + i in
  sized M (r_u s) -> meshSized M ->
  eq < 4 -> el < getElNum M -> i < elNumNodes M ->
  f1 A ⊗ vget (row u eq) k = vget (row u eq) k ->
  vget (row (r_u (eulerUpdate L M cfg t s)) eq) k =
    timeStep cfg ⊗ dot (elMassMatrix M mse el i) (residual M mse Fq el ue) (elNumNodes M)
    ⊕ vget (row u eq) k
  /\ forall j, j < elNumNodes M ->
       vget (residual M mse Fq el ue) j =
       vget (getElStiffVector M mse el Fq ue) j ⊖ vget (getElFlux M mse el) j.
Proof.
  intros u ms1 Flux1 mse Fq ue k Hs Hm Heq Hel Hi Hone.
  assert (Hsu : sized M u) by (apply updateSource_sized; exact Hs).
  destruct Hsu as [H4 Hrows].
  assert (Hk : k < length (row u eq)).
  { rewrite Hrows by exact Heq. unfold meshSized in Hm. rewrite Hm.
    unfold k, elNumNodes in *. nia. }
  split.
  - rewrite eulerUpdate_u, fluxStep_numStep.
    fold u ms1 Flux1. unfold k.
    rewrite numStep_block by (try assumption; lia).
    fold mse Fq ue k. rewrite Hone. reflexivity.
  - intros j Hj. apply vget_residual. exact Hj.
Qed.

(** The stages of [rungeKutta], one equation per stage. *)
Lemma rkStages_eqs ms u Flux :
  let st := rkStages M cfg ms u Flux in
  (rk_m1 st, rk_k1 st, rk_F1 st) = fluxStep M cfg ms u Flux (f0 A) /\
  rk_b2 st = plusTimesAll M (length u) u (rk_k1 st) (fhalf A) /\
  (rk_m2 st, rk_k2 st, rk_F2 st) = fluxStep M cfg (rk_m1 st) (rk_b2 st) (rk_F1 st) (f0 A) /\
  rk_b3 st = plusTimesAll M (length u) u (rk_k2 st) (fhalf A) /\
  (rk_m3 st, rk_k3 st, rk_F3 st) = fluxStep M cfg (rk_m2 st) (rk_b3 st) (rk_F2 st) (f0 A) /\
  rk_b4 st = plusTimesAll M (length u) u (rk_k3 st) (f1 A) /\
  (rk_m4 st, rk_k4 st, rk_F4 st) = fluxStep M cfg (rk_m3 st) (rk_b4 st) (rk_F3 st) (f0 A).
Proof.
  unfold rkStages.
  destruct (fluxStep M cfg ms u Flux (f0 A)) as [[m1 k1] F1].
  destruct (fluxStep M cfg m1 (plusTimesAll M (length u) u k1 (fhalf A)) F1 (f0 A))
    as [[m2 k2] F2] eqn:E2.
  destruct (fluxStep M cfg m2 (plusTimesAll M (length u) u k2 (fhalf A)) F2 (f0 A))
    as [[m3 k3] F3] eqn:E3.
  destruct (fluxStep M cfg m3 (plusTimesAll M (length u) u k3 (f1 A)) F3 (f0 A))
    as [[m4 k4] F4] eqn:E4.
  simpl. rewrite E2, E3, E4. repeat split; reflexivity.
Qed.

(** C2. In [rungeKutta], after the [numStep] of stage 1 the vector [k2]
    is [k1 * 0.5] entry by entry, after stage 2 [k3] is [k2 * 0.5], after
    stage 3 [k4] is [k3 * 1]; and the flux refresh and [numStep] of each
    next stage run on the vector so obtained (with [beta = 0]). *)
Theorem rungeKutta_stage_scaling (ms : MS) (u : list (list A))
        (Flux : list (list (list A))) (eq i : nat) :
  let st := rkStages M cfg ms u Flux in
  sized M u -> eq < 4 -> i < numNodes M ->
  (rk_m1 st, rk_k1 st, rk_F1 st) = fluxStep M cfg ms u Flux (f0 A) /\
  vget (row (rk_b2 st) eq) i = vget (row (rk_k1 st) eq) i ⊗ fhalf A /\
  (rk_m2 st, rk_k2 st, rk_F2 st) =
    fluxStep M cfg (rk_m1 st) (rk_b2 st) (rk_F1 st) (f0 A) /\
  vget (row (rk_b3 st) eq) i = vget (row (rk_k2 st) eq) i ⊗ fhalf A /\
  (rk_m3 st, rk_k3 st, rk_F3 st) =
    fluxStep M cfg (rk_m2 st) (rk_b3 st) (rk_F2 st) (f0 A) /\
  vget (row (rk_b4 st) eq) i = vget (row (rk_k3 st) eq) i ⊗ f1 A /\
  (rk_m4 st, rk_k4 st, rk_F4 st) =
    fluxStep M cfg (rk_m3 st) (rk_b4 st) (rk_F3 st) (f0 A).
Proof.
  intros st [H4 Hrows] Heq Hi.
  destruct (rkStages_eqs ms u Flux) as (E1 & B2 & E2 & B3 & E3 & B4 & E4).
  fold st in E1, B2, E2, B3, E3, B4, E4.
  assert (Hlen : i < length (row u eq)) by (rewrite Hrows by exact Heq; exact Hi).
  repeat split; try assumption.
  - rewrite B2. apply plusTimesAll_get; try assumption; lia.
  - rewrite B3. apply plusTimesAll_get; try assumption; lia.
  - rewrite B4. apply plusTimesAll_get; try assumption; lia.
Qed.

(** C3. In [rungeKutta], once the four stages are done the solution is
    combined in place: for every equation [eq] in 0..3 and node
    [i < numNodes], [u[eq][i]] becomes
    [u[eq][i] + (k1[eq][i] + 2*k2[eq][i] + 2*k3[eq][i] + k4[eq][i]) / 6],
    with [k1 .. k4] the stage vectors of this iteration and [u] the
    solution after the source injection. *)
Theorem rungeKutta_combination (t : A) (s : Run) (eq i : nat) :
  let u := updateSource L M cfg t (r_u s) in
  let st := rkStages M cfg (r_mesh s) u (r_Flux s) in
  sized M (r_u s) -> eq < 4 -> i < numNodes M ->
  vget (row (r_u (rkUpdate L M cfg t s)) eq) i =
  vget (row u eq) i ⊕
  (vget (row (rk_k1 st) eq) i ⊕ f2 A ⊗ vget (row (rk_k2 st) eq) i ⊕
   f2 A ⊗ vget (row (rk_k3 st) eq) i ⊕ vget (row (rk_k4 st) eq) i) ⊘ f6 A.
Proof.
  intros u st Hs Heq Hi.
  destruct (updateSource_sized t _ Hs) as [H4 Hrows]. fold u in H4, Hrows.
  unfold rkUpdate. simpl. fold u st.
  rewrite rkConcat_get; [reflexivity|lia|exact Hi|].
  rewrite Hrows by exact Heq. exact Hi.
Qed.
End Steps.

(** ** Sources *)

Section SourceProperties.
Context {A : Arith} (L : Libm A) {MS : Type} (M : Mesh A MS) (cfg : Config A).

(** C6. For every configured source [i] and every node [n] of the mesh,
    [n] is in the precomputed index set of the source exactly when the
    squared distance of the node to the centre is strictly below the
    squared radius; a node whose squared distance equals the squared
    radius is left out ([<] being irreflexive at that value, as it is in
    binary64 and in exact arithmetic). *)
Theorem source_membership (i n : nat) :
  let src := row (sources cfg) i in
  i < length (sources cfg) ->
  (n ∈ row (srcIndices L M cfg) i <->
   n < numNodes M /\ (dist2 L M src n <. radius2 L src) = true) /\
  ((radius2 L src <. radius2 L src) = false ->
   dist2 L M src n = radius2 L src ->
   n ∉ row (srcIndices L M cfg) i).
Proof.
  intros src Hi. rewrite row_srcIndices by exact Hi. fold src. split.
  - apply elem_of_indice.
  - intros Hirr Hd Hin. apply elem_of_indice in Hin. destruct Hin as [_ Hin].
    unfold inSource in Hin. rewrite Hd, Hirr in Hin. discriminate.
Qed.

Lemma timeAt_S k : timeAt cfg (S k) = timeAt cfg k ⊕ timeStep cfg.
Proof. reflexivity. Qed.

Lemma inactive_later src :
  (forall t, active cfg t src = false -> active cfg (t ⊕ timeStep cfg) src = false) ->
  forall k k', k <= k' ->
  active cfg (timeAt cfg k) src = false -> active cfg (timeAt cfg k') src = false.
Proof.
  intros Hmono k k' Hle Hk. induction Hle as [|k' Hle IH]; [exact Hk|].
  rewrite timeAt_S. apply Hmono. exact IH.
Qed.

(** C7. At an iteration with simulated time [t], the turn of a source
    [src] in the injection loop, when [t < duration], overwrites the
    pressure [u[0]] at every node of its precomputed set with
    [amp * sin(2*M_PI*freq*t + phase)], whatever the old value; when the
    test fails the source writes nothing.  After the whole loop a node
    holds the value of the last active source whose set holds it.  The
    test is on the simulated time [t]; when advancing [t] by [timeStep]
    cannot bring it back below the duration, a source that has stopped
    writes nothing at any later iteration. *)
Theorem source_injection (t : A) (u : list (list A)) (src n : nat) :
  let s := row (sources cfg) src in
  let value := vget s 5 ⊗ sin L (f2 A ⊗ M_PI A ⊗ vget s 6 ⊗ t ⊕ vget s 7) in
  src < length (sources cfg) ->
  n ∈ row (srcIndices L M cfg) src ->
  n < length (row u 0) ->
  ((t <. vget s 8) = true ->
     vget (row (injectSource L M cfg t src u) 0) n = value /\
     ((forall src', src < src' < length (sources cfg) ->
                    active cfg t src' = true ->
                    n ∉ row (srcIndices L M cfg) src') ->
      vget (row (updateSource L M cfg t u) 0) n = value)) /\
  ((t <. vget s 8) = false -> injectSource L M cfg t src u = u) /\
  ((forall t', (t' <. vget s 8) = false -> (t' ⊕ timeStep cfg <. vget s 8) = false) ->
   forall k k' u', k <= k' ->
     (timeAt cfg k <. vget s 8) = false ->
     injectSource L M cfg (timeAt cfg k') src u' = u').
Proof.
  intros s value Hsrc Hin Hn. split; [|split].
  - intros Ha. split.
    + unfold vget at 1. rewrite injectSource_row0_lookup.
      unfold active. fold s. rewrite Ha. simpl.
      rewrite bool_decide_eq_true_2 by exact Hin.
      destruct (lookup_lt_is_Some_2 _ _ Hn) as [x Hx]. rewrite Hx. reflexivity.
    + intros Hlater. unfold vget at 1, updateSource.
      rewrite (sourceLoop_last L M cfg t u n (length (sources cfg)) src);
        try assumption.
      destruct (lookup_lt_is_Some_2 _ _ Hn) as [x Hx]. rewrite Hx. reflexivity.
  - intros Hf. apply injectSource_inactive. exact Hf.
  - intros Hmono k k' u' Hle Hk. apply injectSource_inactive.
    apply (inactive_later src Hmono k k' Hle Hk).
Qed.

(** C9. The injection stage changes nothing but pressure entries of
    active sources: the size of [u] and every sequence [u[eq]] with
    [eq <> 0] (the velocities [u[1]], [u[2]], [u[3]]) are unchanged, and so
    is every entry of [u[0]] whose index is in the set of no source with
    [t < duration]. *)
Theorem source_injection_frame (t : A) (u : list (list A)) :
  length (updateSource L M cfg t u) = length u /\
  (forall eq, eq <> 0 -> row (updateSource L M cfg t u) eq = row u eq) /\
  length (row (updateSource L M cfg t u) 0) = length (row u 0) /\
  (forall n,
     (forall src, src < length (sources cfg) ->
                  (t <. vget (row (sources cfg) src) 8) = true ->
                  n ∉ row (srcIndices L M cfg) src) ->
     row (updateSource L M cfg t u) 0 !! n = row u 0 !! n).
Proof.
  split; [apply updateSource_length|].
  split; [intros eq Heq; apply updateSource_row_ne; exact Heq|].
  split; [apply updateSource_row0_length|].
  intros n H. apply sourceLoop_untouched. exact H.
Qed.
End SourceProperties.

(** ** The integrators as runs of the loop *)

Section Integrate.
Context {A : Arith} (L : Libm A) {MS : Type} (M : Mesh A MS) (cfg : Config A).

Lemma integrate_exact update n fuel u ms :
  stopsAt cfg n = true -> n <= fuel ->
  integrate M cfg update fuel u ms = Some (n, finalRun M cfg update n u ms).
Proof.
  intros Hs Hf. apply stopsAt_spec in Hs. destruct Hs as [Hlt Hn].
  unfold integrate.
  rewrite (timeLoop_exact M cfg update n fuel _ _ _ _ Hlt Hn Hf). reflexivity.
Qed.

Lemma integrate_out_of_fuel update n fuel u ms :
  stopsAt cfg n = true -> fuel < n ->
  integrate M cfg update fuel u ms = None.
Proof.
  intros Hs Hf. apply stopsAt_spec in Hs. destruct Hs as [Hlt Hn].
  unfold integrate. rewrite timeLoop_out_of_fuel; [reflexivity|].
  intros k Hk. apply Hlt. lia.
Qed.

Lemma finalRun_flushed update n u ms : flushed cfg (finalRun M cfg update n u ms).
Proof. eexists. reflexivity. Qed.

Lemma eulerUpdate_out t s : r_out (eulerUpdate L M cfg t s) = r_out s.
Proof.
  unfold eulerUpdate.
  destruct (fluxStep M cfg (r_mesh s) (updateSource L M cfg t (r_u s)) (r_Flux s) (f1 A))
    as [[ms u] Flux]. reflexivity.
Qed.

Lemma rkUpdate_out t s : r_out (rkUpdate L M cfg t s) = r_out s.
Proof. reflexivity. Qed.

Lemma finalRun_snapshotSteps update n m u ms :
  (forall t s, r_out (update t s) = r_out s) ->
  cadence cfg m = true ->
  snapshotSteps (r_out (finalRun M cfg update n u ms)) =
  List.filter (fun k => k mod m =? 0) (seq 0 n).
Proof.
  intros Hout Hc. unfold finalRun, runAfter, initialRun. simpl r_out.
  rewrite snapshotSteps_app.
  rewrite (iterate_snapshotSteps M cfg update Hout m Hc n _ 0 _ _ 0) by (left; reflexivity).
  simpl. rewrite app_nil_r. reflexivity.
Qed.
End Integrate.

(** ** The loop in exact arithmetic *)

Section RealLoop.
Variable cfg : Config reals.
Open Scope R_scope.

Lemma fle_reals (x y : R) : (fle reals x y = true) <-> x <= y.
Proof. simpl. destruct (Rle_dec x y); split; intros; try easy. Qed.

Lemma fle_reals_false (x y : R) : (fle reals x y = false) <-> y < x.
Proof.
  simpl. destruct (Rle_dec x y); split; intros; try easy; lra.
Qed.

Lemma timeAt_reals k : timeAt cfg k = timeStart cfg + INR k * timeStep cfg.
Proof.
  induction k as [|k IH].
  - unfold timeAt. simpl. lra.
  - rewrite timeAt_S, IH, S_INR. simpl. lra.
Qed.

Lemma accAt_reals j : accAt cfg j = INR j * timeStep cfg.
Proof.
  induction j as [|j IH].
  - unfold accAt. simpl. lra.
  - change (accAt cfg (S j)) with (accAt cfg j + timeStep cfg).
    rewrite IH, S_INR. lra.
Qed.

Lemma stopsAt_reals (n : nat) :
  0 < timeStep cfg ->
  INR n <= (timeEnd cfg - timeStart cfg) / timeStep cfg < INR n + 1 ->
  stopsAt cfg (S n) = true.
Proof.
  intros Hdt [Hlo Hhi]. apply stopsAt_spec.
  set (q := (timeEnd cfg - timeStart cfg) / timeStep cfg) in *.
  assert (Hq : timeEnd cfg - timeStart cfg = q * timeStep cfg).
  { unfold q. field. lra. }
  split.
  - intros k Hk. apply fle_reals. rewrite timeAt_reals.
    assert (INR k <= INR n) by (apply le_INR; lia). nra.
  - apply fle_reals_false. rewrite timeAt_reals, S_INR. nra.
Qed.

Lemma stopsAt_reals_0 : timeEnd cfg < timeStart cfg -> stopsAt cfg 0 = true.
Proof.
  intros H. apply stopsAt_spec. split; [intros k Hk; lia|].
  apply fle_reals_false. exact H.
Qed.

Lemma cadence_reals (m : nat) :
  (1 <= m)%nat -> 0 < timeStep cfg ->
  timeRate cfg = INR m * timeStep cfg ->
  cadence cfg m = true.
Proof.
  intros Hm Hdt HR. apply cadence_spec. split; [exact Hm|]. split.
  - intros j Hj. apply fle_reals_false. rewrite accAt_reals, HR.
    assert (INR j < INR m) by (apply lt_INR; lia). nra.
  - apply fle_reals. rewrite accAt_reals, HR. lra.
Qed.
End RealLoop.

(** ** Iterations and snapshot cadence *)

Lemma floorR_spec (x : R) :
  (0 <= x)%R -> (INR (floorR x) <= x < INR (floorR x) + 1)%R.
Proof.
  intros Hx. destruct (base_Int_part x) as [H1 H2]. unfold floorR.
  assert (Hz : (0 <= Int_part x)%Z).
  { apply Z.lt_succ_r, lt_IZR. rewrite succ_IZR. lra. }
  rewrite INR_IZR_INZ, Z2Nat.id by exact Hz. lra.
Qed.

(** C10 (as amended). The loop body runs for the successive values
    [t_0 = timeStart], [t_(k+1) = t_k + timeStep] while [t_k <= timeEnd]:
    when the test holds for the first [n] values and fails for the next
    one, both integrators make exactly [n] iterations, then flush the
    three output streams and return (they return on any fuel of at least
    [n], and on none below).  When the test fails at [timeStart] the body
    runs zero times and the integrator returns the solution as it was,
    after the flush.  In exact arithmetic, with [timeStep > 0] and
    [timeStart <= timeEnd], the number of iterations is
    [floor((timeEnd - timeStart)/timeStep) + 1], and it is 0 when
    [timeEnd < timeStart]. *)
Theorem time_loop_iterations :
  (forall (A : Arith) (L : Libm A) (MS : Type) (M : Mesh A MS) (cfg : Config A)
          (u : list (list A)) (ms : MS) (n fuel : nat),
      stopsAt cfg n = true ->
      (n <= fuel ->
       forwardEuler L M cfg fuel u ms =
         Some (n, finalRun M cfg (eulerUpdate L M cfg) n u ms) /\
       rungeKutta L M cfg fuel u ms =
         Some (n, finalRun M cfg (rkUpdate L M cfg) n u ms) /\
       flushed cfg (finalRun M cfg (eulerUpdate L M cfg) n u ms) /\
       flushed cfg (finalRun M cfg (rkUpdate L M cfg) n u ms)) /\
      (fuel < n ->
       forwardEuler L M cfg fuel u ms = None /\
       rungeKutta L M cfg fuel u ms = None)) /\
  (forall (A : Arith) (L : Libm A) (MS : Type) (M : Mesh A MS) (cfg : Config A)
          (u : list (list A)) (ms : MS) (fuel : nat),
      (timeStart cfg <=. timeEnd cfg) = false ->
      forwardEuler L M cfg fuel u ms =
        Some (0, finalRun M cfg (eulerUpdate L M cfg) 0 u ms) /\
      rungeKutta L M cfg fuel u ms =
        Some (0, finalRun M cfg (rkUpdate L M cfg) 0 u ms) /\
      r_u (finalRun M cfg (eulerUpdate L M cfg) 0 u ms) = u /\
      r_u (finalRun M cfg (rkUpdate L M cfg) 0 u ms) = u /\
      r_out (finalRun M cfg (eulerUpdate L M cfg) 0 u ms) =
        [ viewWrite Pressure (saveFile cfg); viewWrite Density (saveFile cfg);
          viewWrite Velocity (saveFile cfg) ] /\
      r_out (finalRun M cfg (rkUpdate L M cfg) 0 u ms) =
        [ viewWrite Pressure (saveFile cfg); viewWrite Density (saveFile cfg);
          viewWrite Velocity (saveFile cfg) ]) /\
  (forall (L : Libm reals) (MS : Type) (M : Mesh reals MS) (cfg : Config reals)
          (u : list (list reals)) (ms : MS) (fuel : nat),
      let n := floorR ((timeEnd cfg - timeStart cfg) / timeStep cfg) + 1 in
      (0 < timeStep cfg)%R -> (timeStart cfg <= timeEnd cfg)%R ->
      n <= fuel ->
      forwardEuler L M cfg fuel u ms =
        Some (n, finalRun M cfg (eulerUpdate L M cfg) n u ms) /\
      rungeKutta L M cfg fuel u ms =
        Some (n, finalRun M cfg (rkUpdate L M cfg) n u ms)) /\
  (forall (L : Libm reals) (MS : Type) (M : Mesh reals MS) (cfg : Config reals)
          (u : list (list reals)) (ms : MS) (fuel : nat),
      (timeEnd cfg < timeStart cfg)%R ->
      forwardEuler L M cfg fuel u ms =
        Some (0, finalRun M cfg (eulerUpdate L M cfg) 0 u ms) /\
      rungeKutta L M cfg fuel u ms =
        Some (0, finalRun M cfg (rkUpdate L M cfg) 0 u ms)).
Proof.
  split; [|split; [|split]].
  - intros A L MS M cfg u ms n fuel Hs. split.
    + intros Hf. unfold forwardEuler, rungeKutta.
      rewrite !(integrate_exact M cfg _ n fuel u ms Hs Hf).
      repeat split; apply finalRun_flushed.
    + intros Hf. unfold forwardEuler, rungeKutta.
      rewrite !(integrate_out_of_fuel M cfg _ n fuel u ms Hs Hf). split; reflexivity.
  - intros A L MS M cfg u ms fuel Ht.
    assert (Hs : stopsAt cfg 0 = true).
    { unfold stopsAt, timeAt. simpl. rewrite Ht. reflexivity. }
    unfold forwardEuler, rungeKutta.
    rewrite !(integrate_exact M cfg _ 0 fuel u ms Hs (Nat.le_0_l fuel)).
    repeat split.
  - intros L MS M cfg u ms fuel n Hdt Hle Hf.
    assert (Hs : stopsAt cfg n = true).
    { unfold n. rewrite Nat.add_1_r. apply stopsAt_reals; [exact Hdt|].
      apply floorR_spec. apply Rmult_le_pos; [lra|].
      apply Rlt_le, Rinv_0_lt_compat. exact Hdt. }
    unfold forwardEuler, rungeKutta.
    rewrite !(integrate_exact M cfg _ n fuel u ms Hs Hf). split; reflexivity.
  - intros L MS M cfg u ms fuel Hlt.
    assert (Hs : stopsAt cfg 0 = true) by (apply stopsAt_reals_0; exact Hlt).
    unfold forwardEuler, rungeKutta.
    rewrite !(integrate_exact M cfg _ 0 fuel u ms Hs (Nat.le_0_l fuel)).
    split; reflexivity.
Qed.

(** C10, the claim as stated fails in binary64: with [timeStart = 0],
    [timeStep] the double nearest 0.1 and [timeEnd] 16 times that value
    (the double nearest 1.6), [(timeEnd - timeStart)/timeStep] is 16 and
    the claim gives 17 iterations; the running sum [t] reaches
    1.6000000000000003 after 16 additions, so both integrators make 16. *)
Lemma time_loop_iterations_binary64 :
  PrimFloat.mul 16 d0_1 = d1_6 /\
  (timeEnd (cfg64 d1_6 d0_1 d0_8) ⊖ timeStart (cfg64 d1_6 d0_1 d0_8))
    ⊘ timeStep (cfg64 d1_6 d0_1 d0_8) = 16%float /\
  (forall L : Libm binary64,
     option_map fst
       (forwardEuler L (restMesh binary64 1 1 (fun _ => [])) (cfg64 d1_6 d0_1 d0_8)
                     100 (zeroU binary64 1) tt) = Some 16%nat) /\
  (forall L : Libm binary64,
     option_map fst
       (rungeKutta L (restMesh binary64 1 1 (fun _ => [])) (cfg64 d1_6 d0_1 d0_8)
                   100 (zeroU binary64 1) tt) = Some 16%nat).
Proof.
  split; [reflexivity|]. split; [reflexivity|].
  split; intros L; vm_compute; reflexivity.
Qed.

(** C4 (as amended). In both integrators an iteration emits a snapshot
    when [step == 0] or the display accumulator has reached [timeRate],
    and then resets the accumulator to zero; the accumulator grows by
    [timeStep] per iteration.  So with [m >= 1] the first number of added
    time steps at which the accumulator, started from zero, passes the
    test, the snapshots of a run of [n] iterations are at the steps
    [0, m, 2m, ...] below [n].  In exact arithmetic, when
    [timeRate = m * timeStep] with [timeStep > 0], that number is [m],
    that is [timeRate / timeStep]. *)
Theorem snapshot_cadence :
  (forall (A : Arith) (L : Libm A) (MS : Type) (M : Mesh A MS) (cfg : Config A)
          (t : A) (step : nat) (tDisplay : A) (s : Run),
      let due := (tDisplay >=. timeRate cfg) || (step =? 0) in
      let e := iteration M cfg (eulerUpdate L M cfg) t step tDisplay s in
      let r := iteration M cfg (rkUpdate L M cfg) t step tDisplay s in
      fst e = (if due then f0 A else tDisplay) /\
      fst r = (if due then f0 A else tDisplay) /\
      snapshotSteps (r_out (snd e)) =
        snapshotSteps (r_out s) ++ (if due then [step] else []) /\
      snapshotSteps (r_out (snd r)) =
        snapshotSteps (r_out s) ++ (if due then [step] else [])) /\
  (forall (A : Arith) (L : Libm A) (MS : Type) (M : Mesh A MS) (cfg : Config A)
          (u : list (list A)) (ms : MS) (n m fuel : nat),
      stopsAt cfg n = true -> cadence cfg m = true -> n <= fuel ->
      exists r r',
        forwardEuler L M cfg fuel u ms = Some (n, r) /\
        rungeKutta L M cfg fuel u ms = Some (n, r') /\
        snapshotSteps (r_out r) = List.filter (fun k => k mod m =? 0) (seq 0 n) /\
        snapshotSteps (r_out r') = List.filter (fun k => k mod m =? 0) (seq 0 n)) /\
  (forall (L : Libm reals) (MS : Type) (M : Mesh reals MS) (cfg : Config reals)
          (u : list (list reals)) (ms : MS) (m fuel : nat),
      let n := floorR ((timeEnd cfg - timeStart cfg) / timeStep cfg) + 1 in
      1 <= m -> (0 < timeStep cfg)%R ->
      timeRate cfg = (INR m * timeStep cfg)%R ->
      (timeStart cfg <= timeEnd cfg)%R -> n <= fuel ->
      exists r r',
        forwardEuler L M cfg fuel u ms = Some (n, r) /\
        rungeKutta L M cfg fuel u ms = Some (n, r') /\
        snapshotSteps (r_out r) = List.filter (fun k => k mod m =? 0) (seq 0 n) /\
        snapshotSteps (r_out r') = List.filter (fun k => k mod m =? 0) (seq 0 n)).
Proof.
  assert (Hgen : forall (A : Arith) (L : Libm A) (MS : Type) (M : Mesh A MS)
          (cfg : Config A) (u : list (list A)) (ms : MS) (n m fuel : nat),
      stopsAt cfg n = true -> cadence cfg m = true -> n <= fuel ->
      exists r r',
        forwardEuler L M cfg fuel u ms = Some (n, r) /\
        rungeKutta L M cfg fuel u ms = Some (n, r') /\
        snapshotSteps (r_out r) = List.filter (fun k => k mod m =? 0) (seq 0 n) /\
        snapshotSteps (r_out r') = List.filter (fun k => k mod m =? 0) (seq 0 n)).
  { intros A L MS M cfg u ms n m fuel Hs Hc Hf.
    exists (finalRun M cfg (eulerUpdate L M cfg) n u ms),
           (finalRun M cfg (rkUpdate L M cfg) n u ms).
    unfold forwardEuler, rungeKutta.
    rewrite !(integrate_exact M cfg _ n fuel u ms Hs Hf).
    repeat split.
    - apply finalRun_snapshotSteps; [apply eulerUpdate_out|exact Hc].
    - apply finalRun_snapshotSteps; [apply rkUpdate_out|exact Hc]. }
  split; [|split].
  - intros A L MS M cfg t step tD s due e r. unfold e, r.
    rewrite !iteration_tDisplay.
    rewrite (iteration_out M cfg _ (eulerUpdate_out L M cfg)).
    rewrite (iteration_out M cfg _ (rkUpdate_out L M cfg)).
    change (snapshotDue cfg step tD) with due.
    destruct due; repeat split; try reflexivity;
      try (rewrite snapshotSteps_app; reflexivity);
      try (rewrite app_nil_r; reflexivity).
  - exact Hgen.
  - intros L MS M cfg u ms m fuel n Hm Hdt HR Hle Hf.
    apply Hgen; [|apply cadence_reals; assumption|exact Hf].
    unfold n. rewrite Nat.add_1_r. apply stopsAt_reals; [exact Hdt|].
    apply floorR_spec. apply Rmult_le_pos; [lra|].
    apply Rlt_le, Rinv_0_lt_compat. exact Hdt.
Qed.

(** C4, the claim as stated fails in binary64: with [timeStep] the
    double nearest 0.1 and [timeRate] 8 times that value (the double
    nearest 0.8), [timeRate / timeStep] is 8, but the accumulator holds
    0.7999999999999999 after 8 additions and passes the test after 9: the
    snapshots of a run over [0, 2.5] are at steps 0, 9 and 18, not 0, 8,
    16 and 24. *)
Lemma snapshot_cadence_binary64 :
  PrimFloat.mul 8 d0_1 = d0_8 /\
  timeRate (cfg64 d2_5 d0_1 d0_8) ⊘ timeStep (cfg64 d2_5 d0_1 d0_8) = 8%float /\
  accAt (cfg64 d2_5 d0_1 d0_8) 8 = 0x1.9999999999999p-1%float /\
  (forall L : Libm binary64,
     option_map (fun r => snapshotSteps (r_out (snd r)))
       (forwardEuler L (restMesh binary64 1 1 (fun _ => [])) (cfg64 d2_5 d0_1 d0_8)
                     100 (zeroU binary64 1) tt) = Some [0; 9; 18]%nat) /\
  (forall L : Libm binary64,
     option_map (fun r => snapshotSteps (r_out (snd r)))
       (rungeKutta L (restMesh binary64 1 1 (fun _ => [])) (cfg64 d2_5 d0_1 d0_8)
                   100 (zeroU binary64 1) tt) = Some [0; 9; 18]%nat).
Proof.
  split; [reflexivity|]. split; [reflexivity|]. split; [reflexivity|].
  split; intros L; vm_compute; reflexivity.
Qed.

(** The hypotheses of the two theorems above, evaluated in binary64: the
    number of iterations and the cadence of the runs just computed. *)
Example stopsAt_binary64 :
  stopsAt (cfg64 d1_6 d0_1 d0_8) 16 = true /\ stopsAt (cfg64 d2_5 d0_1 d0_8) 25 = true.
Proof. split; reflexivity. Qed.

Example cadence_binary64 :
  cadence (cfg64 d2_5 d0_1 d0_8) 9 = true /\ cadence (cfg64 d2_5 d0_1 d0_8) 8 = false.
Proof. split; reflexivity. Qed.

(** The loop does not end when adding [timeStep] leaves [t] as it is
    while [t <= timeEnd]: no fuel gives a result. *)
Lemma timeLoop_stalls {A : Arith} {MS : Type} (M : Mesh A MS) (cfg : Config A)
      (update : A -> Run -> Run) (t : A) :
  t ⊕ timeStep cfg = t -> (t <=. timeEnd cfg) = true ->
  forall fuel step tD s, timeLoop M cfg update fuel t step tD s = None.
Proof.
  intros Hsame Hle fuel. induction fuel as [|fuel IH]; intros step tD s.
  - simpl. rewrite Hle. reflexivity.
  - rewrite timeLoop_step by exact Hle. rewrite Hsame. apply IH.
Qed.

(** In binary64 this happens for [timeStart = 1], [timeStep = 2^-54] and
    [timeEnd = 2]: [1 + 2^-54] rounds to [1]. *)
Lemma time_loop_stalls_binary64 (L : Libm binary64) (fuel : nat) :
  forwardEuler L (restMesh binary64 1 1 (fun _ => []))
    (Build_Config binary64 1%float 0%float 1%float 1%float 2%float
                  0x1p-54%float 1%float 1 "out.msh" [])
    fuel (zeroU binary64 1) tt = None /\
  rungeKutta L (restMesh binary64 1 1 (fun _ => []))
    (Build_Config binary64 1%float 0%float 1%float 1%float 2%float
                  0x1p-54%float 1%float 1 "out.msh" [])
    fuel (zeroU binary64 1) tt = None.
Proof.
  unfold forwardEuler, rungeKutta, integrate.
  rewrite !timeLoop_stalls by reflexivity. split; reflexivity.
Qed.

(** ** Values that the kernel keeps inside a set

    [Z] is a set of values closed under the operations of the kernel when
    the mesh gives stiffness and flux vectors in [Z]: the values that
    compare equal to zero (C8), or the value [0] itself in exact
    arithmetic (C5). *)
Section Closed.
Context {A : Arith} {MS : Type} (M : Mesh A MS) (cfg : Config A).
Variable Z : A -> Prop.

Hypothesis Z0 : Z (f0 A).
Hypothesis Zadd : forall x y, Z x -> Z y -> Z (x ⊕ y).
Hypothesis Zsub : forall x y, Z x -> Z y -> Z (x ⊖ y).
Hypothesis Zmass : forall ms el i j y, Z y -> Z (elMassMatrix M ms el i j ⊗ y).
Hypothesis Zdt : forall y, Z y -> Z (timeStep cfg ⊗ y).
Hypothesis Zstiff : forall ms el Fq v j, Z (vget (getElStiffVector M ms el Fq v) j).
Hypothesis Zflux : forall ms el j, Z (vget (getElFlux M ms el) j).

Lemma vget_ge (v : list A) j : length v <= j -> vget v j = f0 A.
Proof. intros H. unfold vget. rewrite lookup_ge_None_2 by exact H. reflexivity. Qed.

Lemma residual_in ms Fq el v j : Z (vget (residual M ms Fq el v) j).
Proof.
  destruct (decide (j < elNumNodes M)) as [Hj|Hj].
  - rewrite vget_residual by exact Hj. apply Zsub; [apply Zstiff|apply Zflux].
  - rewrite vget_ge; [exact Z0|].
    unfold residual. rewrite minus_updLoop, updLoop_length, length_resize. lia.
Qed.

Lemma dot_in ms el i X N : (forall j, Z (vget X j)) -> Z (dot (elMassMatrix M ms el i) X N).
Proof.
  intros HX. unfold dot. apply (forLoop_inv (fun _ acc => Z acc)); [exact Z0|].
  intros j acc _ Hacc. apply Zadd; [exact Hacc|]. apply Zmass, HX.
Qed.

(** After [numStep], every entry of an element block of the first four
    equations is in [Z] as soon as the retained part [beta * u_old] is;
    the other entries are as they were. *)
Lemma numStep_in beta ms u Flux eq j :
  eq < 4 -> j < getElNum M * elNumNodes M ->
  Z (beta ⊗ vget (row u eq) j) ->
  Z (vget (row (snd (fst (numStep M cfg ms u Flux beta))) eq) j).
Proof.
  intros Heq Hj Hret.
  destruct (decide (eq < length u)) as [Hlu|Hlu].
  2:{ rewrite vget_ge; [exact Z0|]. unfold row at 1.
      rewrite lookup_ge_None_2 by (rewrite numStep_length; lia). simpl. lia. }
  destruct (decide (j < length (row u eq))) as [Hl|Hl].
  2:{ rewrite vget_ge; [exact Z0|]. rewrite numStep_row_length by assumption. lia. }
  assert (HN : 0 < elNumNodes M) by (destruct (elNumNodes M); lia).
  assert (Hdm : j = j / elNumNodes M * elNumNodes M + j mod elNumNodes M).
  { rewrite Nat.mul_comm. apply Nat.div_mod_eq. }
  assert (Hel : j / elNumNodes M < getElNum M).
  { apply Nat.Div0.div_lt_upper_bound. lia. }
  assert (Hi : j mod elNumNodes M < elNumNodes M) by (apply Nat.mod_upper_bound; lia).
  rewrite Hdm. rewrite numStep_block; try assumption; [|rewrite <- Hdm; exact Hl].
  rewrite <- Hdm. apply Zadd; [|exact Hret].
  apply Zdt, dot_in. intros j'. apply residual_in.
Qed.

Lemma numStep_out_block beta ms u Flux eq j :
  eq < 4 -> eq < length u -> getElNum M * elNumNodes M <= j ->
  vget (row (snd (fst (numStep M cfg ms u Flux beta))) eq) j = vget (row u eq) j.
Proof.
  intros Heq Hlu Hj. rewrite numStep_row by assumption.
  apply elementLoop_untouched. exact Hj.
Qed.

Lemma numStep_out_eq beta ms u Flux eq :
  4 <= eq -> row (snd (fst (numStep M cfg ms u Flux beta))) eq = row u eq.
Proof. intros Heq. apply equationLoop_row_later. exact Heq. Qed.

(** [numStep] keeps a solution inside [Z] when [beta * z] is in [Z] for
    [z] in [Z]. *)
Lemma numStep_allIn beta ms u Flux :
  (forall y, Z y -> Z (beta ⊗ y)) ->
  allIn Z u -> allIn Z (snd (fst (numStep M cfg ms u Flux beta))).
Proof.
  intros Hb Hu eq j.
  destruct (decide (eq < 4)) as [Heq|Heq].
  - destruct (decide (j < getElNum M * elNumNodes M)) as [Hj|Hj].
    + apply numStep_in; try assumption. apply Hb, Hu.
    + destruct (decide (eq < length u)) as [Hlu|Hlu].
      * rewrite numStep_out_block by (try assumption; lia). apply Hu.
      * rewrite vget_ge; [exact Z0|]. unfold row at 1.
        rewrite lookup_ge_None_2 by (rewrite numStep_length; lia). simpl. lia.
  - rewrite numStep_out_eq by lia. apply Hu.
Qed.

(** With [beta * y] in [Z] for every [y], [numStep] sends a solution of
    the mesh's size into [Z] whatever it held. *)
Lemma numStep_allIn_sized beta ms u Flux :
  (forall y, Z (beta ⊗ y)) -> sized M u -> meshSized M ->
  allIn Z (snd (fst (numStep M cfg ms u Flux beta))).
Proof.
  intros Hb [H4 Hrows] Hm eq j.
  destruct (decide (eq < 4)) as [Heq|Heq].
  - destruct (decide (j < getElNum M * elNumNodes M)) as [Hj|Hj].
    + apply numStep_in; try assumption. apply Hb.
    + rewrite vget_ge; [exact Z0|].
      rewrite numStep_row_length by lia. rewrite Hrows by exact Heq.
      unfold meshSized in Hm. unfold elNumNodes in Hj. lia.
  - rewrite vget_ge; [exact Z0|]. unfold row at 1.
    rewrite lookup_ge_None_2 by (rewrite numStep_length; lia). simpl. lia.
Qed.

Lemma fluxStep_allIn beta ms u Flux :
  (forall y, Z y -> Z (beta ⊗ y)) ->
  allIn Z u -> allIn Z (snd (fst (fluxStep M cfg ms u Flux beta))).
Proof. intros Hb Hu. rewrite fluxStep_numStep. apply numStep_allIn; assumption. Qed.

Lemma fluxStep_allIn_sized beta ms u Flux :
  (forall y, Z (beta ⊗ y)) -> sized M u -> meshSized M ->
  allIn Z (snd (fst (fluxStep M cfg ms u Flux beta))).
Proof. intros Hb Hs Hm. rewrite fluxStep_numStep. apply numStep_allIn_sized; assumption. Qed.

(** [plusTimes] with a factor [c] that keeps [Z]. *)
Lemma updLoop_pred {X : Type} (d : X) (P : X -> Prop) off n f (v : list X) :
  P d -> (forall j, P (default d (v !! j))) ->
  (forall i x, i < n -> P x -> P (f i x)) ->
  forall j, P (default d (updLoop d off n f v !! j)).
Proof.
  intros Hd Hv Hf j. rewrite updLoop_lookup. case_decide as Hr; [|apply Hv].
  specialize (Hv j). destruct (v !! j) as [x|]; simpl in *; [|exact Hd].
  apply Hf; [lia|exact Hv].
Qed.

Lemma plusTimesAll_allIn usize kd ks c :
  (forall y, Z y -> Z (y ⊗ c)) ->
  allIn Z kd -> allIn Z ks -> allIn Z (plusTimesAll M usize kd ks c).
Proof.
  intros Hc Hd Hs eq. rewrite plusTimesAll_updLoop. revert eq.
  apply (updLoop_pred [] (fun r => forall j, Z (vget r j))).
  - intros j. unfold vget. rewrite lookup_nil. exact Z0.
  - exact Hd.
  - intros eq r _ Hr. rewrite plusTimes_updLoop.
    apply (updLoop_pred (f0 A) Z); [exact Z0|exact Hr|].
    intros i x _ _. apply Hc, Hs.
Qed.
End Closed.

(** ** The zero solution *)

Section LoopState.
Context {A : Arith} (L : Libm A) {MS : Type} (M : Mesh A MS) (cfg : Config A).

(** A result of the loop is the state after some number of iterations. *)
Lemma timeLoop_inv update fuel : forall t step tD s n s',
  timeLoop M cfg update fuel t step tD s = Some (n, s') ->
  exists k, n = step + k /\ s' = snd (iterate M cfg update k t step tD s).
Proof.
  induction fuel as [|fuel IH]; intros t step tD s n s' H.
  - simpl in H. destruct (t <=. timeEnd cfg); [discriminate|].
    injection H as <- <-. exists 0. split; [lia|reflexivity].
  - destruct (t <=. timeEnd cfg) eqn:Et.
    + rewrite timeLoop_step in H by exact Et.
      apply IH in H. destruct H as (k & -> & ->).
      exists (S k). split; [lia|]. rewrite iterate_S. reflexivity.
    + rewrite timeLoop_stop in H by exact Et.
      injection H as <- <-. exists 0. split; [lia|reflexivity].
Qed.

Lemma integrate_inv update fuel u ms n r :
  integrate M cfg update fuel u ms = Some (n, r) ->
  r = finalRun M cfg update n u ms.
Proof.
  unfold integrate. intros H.
  destruct (timeLoop M cfg update fuel (timeStart cfg) 0 (f0 A) _) as [[n' s']|] eqn:E;
    [|discriminate].
  injection H as <- <-. apply timeLoop_inv in E. destruct E as (k & -> & ->).
  reflexivity.
Qed.

Lemma iteration_u update t step tD s :
  (forall s1 s2, r_mesh s1 = r_mesh s2 -> r_u s1 = r_u s2 -> r_Flux s1 = r_Flux s2 ->
                 r_u (update t s1) = r_u (update t s2)) ->
  r_u (snd (iteration M cfg update t step tD s)) = r_u (update t s).
Proof.
  intros Hframe. unfold iteration. destruct (snapshotDue cfg step tD); [|reflexivity].
  simpl. apply Hframe; reflexivity.
Qed.

(** A property of the solution that every update keeps holds after any
    number of iterations. *)
Lemma iterate_u_inv (P : list (list A) -> Prop) update :
  (forall t s, P (r_u s) -> P (r_u (update t s))) ->
  forall n t step tD s,
    P (r_u s) -> P (r_u (snd (iterate M cfg update n t step tD s))).
Proof.
  intros Hupd. induction n as [|n IH]; intros t step tD s Hs; [exact Hs|].
  rewrite iterate_S. apply IH. unfold iteration.
  destruct (snapshotDue cfg step tD); apply Hupd; exact Hs.
Qed.

Lemma updateSource_no_sources t u :
  sources cfg = [] -> updateSource L M cfg t u = u.
Proof. intros H. unfold updateSource. rewrite H. reflexivity. Qed.
End LoopState.

Section Zero.
Context {A : Arith} (L : Libm A) {MS : Type} (M : Mesh A MS) (cfg : Config A).



Hypothesis HA : ZeroArith A.
Hypothesis Hdt : scalar (timeStep cfg).
Hypothesis Hmass : forall ms el i j, scalar (elMassMatrix M ms el i j).
Hypothesis Hstiff : forall ms el Fq v j,
    isZero (vget (getElStiffVector M ms el Fq v) j) = true.
Hypothesis Hflux : forall ms el j, isZero (vget (getElFlux M ms el) j) = true.

Lemma fluxStep_zero beta ms (u : list (list A)) Flux :
  scalar beta -> allIn zeroValue u ->
  allIn zeroValue (snd (fst (fluxStep M cfg ms u Flux beta))).
Proof.
  intros Hb Hu.
  apply (fluxStep_allIn M cfg zeroValue); try assumption.
  - apply (za_zero A HA).
  - apply (za_add A HA).
  - apply (za_sub A HA).
  - intros ms' el i j y Hy. apply (Hmass ms' el i j y Hy).
  - intros y Hy. apply (Hdt y Hy).
  - intros y Hy. apply (Hb y Hy).
Qed.

Lemma plusTimesAll_zero usize (kd ks : list (list A)) c :
  scalar c -> allIn zeroValue kd -> allIn zeroValue ks ->
  allIn zeroValue (plusTimesAll M usize kd ks c).
Proof.
  intros Hc. apply (plusTimesAll_allIn M zeroValue); [apply (za_zero A HA)|].
  intros y Hy. apply (Hc y Hy).
Qed.

Lemma rkIncrement_zero (k1 k2 k3 k4 : list (list A)) eq i :
  allIn zeroValue k1 -> allIn zeroValue k2 -> allIn zeroValue k3 -> allIn zeroValue k4 ->
  isZero (rkIncrement k1 k2 k3 k4 eq i) = true.
Proof.
  intros H1 H2 H3 H4. unfold rkIncrement.
  apply (za_div6 A HA). repeat apply (za_add A HA);
    try apply (za_2 A HA); try apply H1; try apply H2; try apply H3; try apply H4.
Qed.

Lemma rkConcat_zero (u k1 k2 k3 k4 : list (list A)) :
  allIn zeroValue u -> allIn zeroValue k1 -> allIn zeroValue k2 -> allIn zeroValue k3 -> allIn zeroValue k4 ->
  allIn zeroValue (rkConcat M u k1 k2 k3 k4).
Proof.
  intros Hu H1 H2 H3 H4 eq. rewrite rkConcat_updLoop. revert eq.
  apply (updLoop_pred [] (fun r : list A => forall j, zeroValue (vget r j))).
  - intros j. unfold vget. rewrite lookup_nil. apply (za_zero A HA).
  - exact Hu.
  - intros eq r _ Hr.
    apply (updLoop_pred (f0 A) zeroValue); [apply (za_zero A HA)|exact Hr|].
    intros i x _ Hx. apply (za_add A HA); [exact Hx|].
    apply rkIncrement_zero; assumption.
Qed.

Lemma rkStages_zero ms (u : list (list A)) Flux :
  allIn zeroValue u ->
  let st := rkStages M cfg ms u Flux in
  allIn zeroValue (rk_k1 st) /\ allIn zeroValue (rk_k2 st) /\
  allIn zeroValue (rk_k3 st) /\ allIn zeroValue (rk_k4 st).
Proof.
  intros Hu st.
  destruct (rkStages_eqs M cfg ms u Flux) as (E1 & B2 & E2 & B3 & E3 & B4 & E4).
  fold st in E1, B2, E2, B3, E3, B4, E4.
  assert (K1 : allIn zeroValue (rk_k1 st)).
  { change (rk_k1 st) with (snd (fst (rk_m1 st, rk_k1 st, rk_F1 st))).
    rewrite E1. apply fluxStep_zero; [apply (za_0 A HA)|exact Hu]. }
  assert (K2 : allIn zeroValue (rk_k2 st)).
  { change (rk_k2 st) with (snd (fst (rk_m2 st, rk_k2 st, rk_F2 st))).
    rewrite E2. apply fluxStep_zero; [apply (za_0 A HA)|].
    rewrite B2. apply plusTimesAll_zero; [apply (za_half A HA)|exact Hu|exact K1]. }
  assert (K3 : allIn zeroValue (rk_k3 st)).
  { change (rk_k3 st) with (snd (fst (rk_m3 st, rk_k3 st, rk_F3 st))).
    rewrite E3. apply fluxStep_zero; [apply (za_0 A HA)|].
    rewrite B3. apply plusTimesAll_zero; [apply (za_half A HA)|exact Hu|exact K2]. }
  assert (K4 : allIn zeroValue (rk_k4 st)).
  { change (rk_k4 st) with (snd (fst (rk_m4 st, rk_k4 st, rk_F4 st))).
    rewrite E4. apply fluxStep_zero; [apply (za_0 A HA)|].
    rewrite B4. apply plusTimesAll_zero; [apply (za_1 A HA)|exact Hu|exact K3]. }
  repeat split; assumption.
Qed.

Hypothesis Hsrc : sources cfg = [].

Lemma eulerUpdate_zero t s :
  allIn zeroValue (r_u s) -> allIn zeroValue (r_u (eulerUpdate L M cfg t s)).
Proof.
  intros Hu. rewrite eulerUpdate_u, updateSource_no_sources by exact Hsrc.
  apply fluxStep_zero; [apply (za_1 A HA)|exact Hu].
Qed.

Lemma rkUpdate_zero t s :
  allIn zeroValue (r_u s) -> allIn zeroValue (r_u (rkUpdate L M cfg t s)).
Proof.
  intros Hu. unfold rkUpdate. simpl.
  rewrite updateSource_no_sources by exact Hsrc.
  destruct (rkStages_zero (r_mesh s) (r_u s) (r_Flux s) Hu) as (K1 & K2 & K3 & K4).
  apply rkConcat_zero; assumption.
Qed.
End Zero.

(** C8. With no source, a solution that is zero at every node and
    equation, and a mesh whose stiffness and flux vectors are zero, the
    solution is zero at every node and equation after every time step,
    under [forwardEuler] and under [rungeKutta]: after any number of
    iterations of either loop, and in the result either integrator
    returns.  Zero is the code's [== 0]; the arithmetic is any in which
    sums, differences and sixths of zeros are zero and in which the time
    step, the mass-matrix entries and the literals 0, 1, 2 and 0.5 times a
    zero give a zero (exact arithmetic, and binary64 on finite values). *)
Theorem zero_solution_stays_zero
  {A : Arith} (L : Libm A) {MS : Type} (M : Mesh A MS) (cfg : Config A)
  (u : list (list A)) (ms : MS) :
  ZeroArith A ->
  scalar (timeStep cfg) ->
  (forall ms el i j, scalar (elMassMatrix M ms el i j)) ->
  (forall ms el Fq v j, isZero (vget (getElStiffVector M ms el Fq v) j) = true) ->
  (forall ms el j, isZero (vget (getElFlux M ms el) j) = true) ->
  sources cfg = [] ->
  allIn zeroValue u ->
  (forall n,
     allIn zeroValue
           (r_u (runAfter M cfg (eulerUpdate L M cfg) n u ms)) /\
     allIn zeroValue
           (r_u (runAfter M cfg (rkUpdate L M cfg) n u ms))) /\
  (forall fuel n r,
     forwardEuler L M cfg fuel u ms = Some (n, r) ->
     allIn zeroValue (r_u r)) /\
  (forall fuel n r,
     rungeKutta L M cfg fuel u ms = Some (n, r) ->
     allIn zeroValue (r_u r)).
Proof.
  intros HA Hdt Hmass Hstiff Hflux Hsrc Hu.
  assert (Hrun : forall n,
     allIn zeroValue
           (r_u (runAfter M cfg (eulerUpdate L M cfg) n u ms)) /\
     allIn zeroValue
           (r_u (runAfter M cfg (rkUpdate L M cfg) n u ms))).
  { intros n. unfold runAfter. split.
    - apply (iterate_u_inv M cfg (allIn zeroValue)); [|exact Hu].
      intros t s. apply eulerUpdate_zero; assumption.
    - apply (iterate_u_inv M cfg (allIn zeroValue)); [|exact Hu].
      intros t s. apply rkUpdate_zero; assumption. }
  split; [exact Hrun|]. split.
  - intros fuel n r H. apply integrate_inv in H. subst r. apply (Hrun n).
  - intros fuel n r H. apply integrate_inv in H. subst r. apply (Hrun n).
Qed.

(** ** The two arithmetics *)

Lemma binary64_flt_irrefl (x : binary64) : (x <. x) = false.
Proof.
  simpl. rewrite FloatAxioms.ltb_spec. unfold SFltb.
  destruct (Prim2SF x) as [s| s | | s m e]; simpl; try reflexivity.
  - destruct s; reflexivity.
  - destruct s; simpl; rewrite Z.compare_refl, Pos.compare_cont_refl; reflexivity.
Qed.

Lemma binary64_isZero (x : binary64) :
  isZero x = true -> x = 0%float \/ x = (-0)%float.
Proof.
  unfold isZero. simpl. rewrite FloatAxioms.eqb_spec. intros H.
  rewrite <- (SF2Prim_Prim2SF x).
  change (Prim2SF 0) with (S754_zero false) in H.
  destruct (Prim2SF x) as [s| s | | s m e]; simpl in H; try discriminate.
  - destruct s; [right|left]; reflexivity.
  - destruct s; discriminate.
  - destruct s; discriminate.
Qed.

(** A factor is a [scalar] of binary64 as soon as it sends the two zeros
    to zeros, which a computation settles. *)
Lemma binary64_scalar (c : binary64) :
  isZero (fmul binary64 c 0%float) = true ->
  isZero (fmul binary64 c (-0)%float) = true ->
  isZero (fmul binary64 0%float c) = true ->
  isZero (fmul binary64 (-0)%float c) = true ->
  scalar c.
Proof.
  intros H1 H2 H3 H4 y Hy.
  destruct (binary64_isZero y Hy) as [-> | ->]; split; assumption.
Qed.

Lemma binary64_ZeroArith : ZeroArith binary64.
Proof.
  constructor.
  - reflexivity.
  - intros x y Hx Hy.
    destruct (binary64_isZero x Hx) as [-> | ->];
      destruct (binary64_isZero y Hy) as [-> | ->]; reflexivity.
  - intros x y Hx Hy.
    destruct (binary64_isZero x Hx) as [-> | ->];
      destruct (binary64_isZero y Hy) as [-> | ->]; reflexivity.
  - intros x Hx. destruct (binary64_isZero x Hx) as [-> | ->]; reflexivity.
  - apply binary64_scalar; reflexivity.
  - apply binary64_scalar; reflexivity.
  - apply binary64_scalar; reflexivity.
  - apply binary64_scalar; reflexivity.
Qed.

Lemma reals_isZero (x : reals) : isZero x = true <-> x = 0%R.
Proof.
  unfold isZero. simpl. destruct (Req_dec_T x 0); split; intros; try easy.
Qed.

Lemma reals_scalar (c : reals) : scalar c.
Proof.
  intros y Hy. apply reals_isZero in Hy. subst y.
  split; apply reals_isZero; simpl; lra.
Qed.

Lemma reals_ZeroArith : ZeroArith reals.
Proof.
  constructor.
  - apply reals_isZero. reflexivity.
  - intros x y Hx Hy. apply reals_isZero in Hx, Hy. apply reals_isZero.
    simpl. subst. lra.
  - intros x y Hx Hy. apply reals_isZero in Hx, Hy. apply reals_isZero.
    simpl. subst. lra.
  - intros x Hx. apply reals_isZero in Hx. apply reals_isZero.
    simpl. subst. lra.
  - apply reals_scalar.
  - apply reals_scalar.
  - apply reals_scalar.
  - apply reals_scalar.
Qed.

Lemma reals_ExactArith : ExactArith reals.
Proof. constructor; intros; simpl; lra. Qed.

Lemma flt_reals (x y : R) : (flt reals x y = true) <-> (x < y)%R.
Proof. simpl. destruct (Rlt_dec x y); split; intros; try easy. Qed.

Lemma flt_reals_false (x y : R) : (flt reals x y = false) <-> (y <= x)%R.
Proof. simpl. destruct (Rlt_dec x y); split; intros; try easy; lra. Qed.

(** ** The output of a run *)

Section UpdLoopId.
Context {X : Type} (d : X).
Lemma updLoop_id off n f (v : list X) :
  (forall i x, i < n -> f i x = x) -> updLoop d off n f v = v.
Proof.
  intros Hf. apply list_eq. intros j. rewrite updLoop_lookup.
  case_decide as Hr; [|reflexivity].
  destruct (v !! j) as [x|]; [|reflexivity]. simpl. rewrite Hf by lia. reflexivity.
Qed.
End UpdLoopId.

Section Trace.
Context {A : Arith} (L : Libm A) {MS : Type} (M : Mesh A MS) (cfg : Config A).
Variable update : A -> Run (A:=A) (MS:=MS) -> Run (A:=A) (MS:=MS).

(** The last of [n+1] iterations, on the state the first [n] leave. *)
Lemma iterate_snoc n : forall t step tD s,
  iterate M cfg update (S n) t step tD s =
  (fst (iteration M cfg update (Nat.iter n (advance cfg) t) (step + n)
                  (fst (iterate M cfg update n t step tD s))
                  (snd (iterate M cfg update n t step tD s))) ⊕ timeStep cfg,
   snd (iteration M cfg update (Nat.iter n (advance cfg) t) (step + n)
                  (fst (iterate M cfg update n t step tD s))
                  (snd (iterate M cfg update n t step tD s)))).
Proof.
  induction n as [|n IH]; intros t step tD s.
  - rewrite iterate_S. simpl. rewrite Nat.add_0_r. reflexivity.
  - rewrite iterate_S, IH. rewrite (iterate_S M cfg update n).
    rewrite iter_advance. replace (S step + n) with (step + S n) by lia.
    reflexivity.
Qed.

Hypothesis update_out : forall t s, r_out (update t s) = r_out s.
Hypothesis update_frame : forall t s1 s2,
    r_mesh s1 = r_mesh s2 -> r_u s1 = r_u s2 -> r_Flux s1 = r_Flux s2 ->
    r_u (update t s1) = r_u (update t s2).

Lemma runAfter_S_out n u ms :
  r_out (runAfter M cfg update (S n) u ms) =
  r_out (runAfter M cfg update n u ms) ++
  (if snapshotDue cfg n (displayAt M cfg update n u ms)
   then snapshot M cfg (timeAt cfg n) n (r_u (runAfter M cfg update n u ms))
   else []).
Proof.
  unfold runAfter. rewrite iterate_snoc. simpl snd.
  rewrite (iteration_out M cfg update update_out). simpl.
  destruct (snapshotDue _ _ _); [reflexivity|]. rewrite app_nil_r. reflexivity.
Qed.

Lemma runAfter_S_u n u ms :
  r_u (runAfter M cfg update (S n) u ms) =
  r_u (update (timeAt cfg n) (runAfter M cfg update n u ms)).
Proof.
  unfold runAfter. rewrite iterate_snoc. simpl snd.
  apply iteration_u. intros s1 s2. apply update_frame.
Qed.

Lemma displayAt_S n u ms :
  displayAt M cfg update (S n) u ms =
  (if snapshotDue cfg n (displayAt M cfg update n u ms) then f0 A else displayAt M cfg update n u ms)
  ⊕ timeStep cfg.
Proof.
  unfold displayAt. rewrite iterate_snoc. simpl fst.
  rewrite iteration_tDisplay. reflexivity.
Qed.

Lemma pressureSnapshots_app (o1 o2 : list (GmshCall A)) :
  pressureSnapshots (o1 ++ o2) = pressureSnapshots o1 ++ pressureSnapshots o2.
Proof. unfold pressureSnapshots. apply flat_map_app. Qed.

(** Every pressure snapshot in the output holds the solution as it was
    at the start of its iteration, with that iteration's time. *)
Lemma runAfter_snapshots n u ms step t data :
  (step, t, data) ∈ pressureSnapshots (r_out (runAfter M cfg update n u ms)) ->
  step < n /\ t = timeAt cfg step /\
  data = g_p M (r_u (runAfter M cfg update step u ms)).
Proof.
  induction n as [|n IH].
  - unfold runAfter. simpl. intros H. apply elem_of_nil in H. contradiction.
  - rewrite runAfter_S_out, pressureSnapshots_app. intros H.
    apply elem_of_app in H. destruct H as [H|H].
    + destruct (IH H) as (H1 & H2 & H3). repeat split; try assumption. lia.
    + destruct (snapshotDue cfg n (displayAt M cfg update n u ms)).
      * simpl in H. apply list_elem_of_singleton in H. injection H as -> -> ->.
        repeat split. lia.
      * apply elem_of_nil in H. contradiction.
Qed.
End Trace.

Lemma eulerUpdate_frame {A : Arith} (L : Libm A) {MS : Type} (M : Mesh A MS)
      (cfg : Config A) t (s1 s2 : Run) :
  r_mesh s1 = r_mesh s2 -> r_u s1 = r_u s2 -> r_Flux s1 = r_Flux s2 ->
  r_u (eulerUpdate L M cfg t s1) = r_u (eulerUpdate L M cfg t s2).
Proof. intros Hm Hu HF. rewrite !eulerUpdate_u, Hm, Hu, HF. reflexivity. Qed.

Lemma rkUpdate_frame {A : Arith} (L : Libm A) {MS : Type} (M : Mesh A MS)
      (cfg : Config A) t (s1 s2 : Run) :
  r_mesh s1 = r_mesh s2 -> r_u s1 = r_u s2 -> r_Flux s1 = r_Flux s2 ->
  r_u (rkUpdate L M cfg t s1) = r_u (rkUpdate L M cfg t s2).
Proof. intros Hm Hu HF. unfold rkUpdate. simpl. rewrite Hm, Hu, HF. reflexivity. Qed.

(** ** A mesh at rest in exact arithmetic *)

Section Rest.
Context {A : Arith} (L : Libm A) {MS : Type} (M : Mesh A MS) (cfg : Config A).

Hypothesis HE : ExactArith A.
Hypothesis Hstiff : forall ms el Fq v j,
    vget (getElStiffVector M ms el Fq v) j = f0 A.
Hypothesis Hflux : forall ms el j, vget (getElFlux M ms el) j = f0 A.

Lemma null_add (x y : A) : null x -> null y -> null (x ⊕ y).
Proof. unfold null. intros -> ->. apply (ea_add_0_l A HE). Qed.

Lemma null_sub (x y : A) : null x -> null y -> null (x ⊖ y).
Proof. unfold null. intros -> ->. apply (ea_sub_0_0 A HE). Qed.

Lemma null_mass ms el i j (y : A) : null y -> null (elMassMatrix M ms el i j ⊗ y).
Proof. unfold null. intros ->. apply (ea_mul_0_r A HE). Qed.

Lemma null_dt (y : A) : null y -> null (timeStep cfg ⊗ y).
Proof. unfold null. intros ->. apply (ea_mul_0_r A HE). Qed.

Lemma rest_dot ms Fq el i v :
  dot (elMassMatrix M ms el i) (residual M ms Fq el v) (elNumNodes M) = f0 A.
Proof.
  apply (dot_in M null eq_refl null_add null_mass).
  intros j. apply (residual_in M null eq_refl null_sub Hstiff Hflux).
Qed.

(** With [beta = 1] the kernel leaves the solution as it is. *)
Lemma rest_elementStep ms Fq el v : elementStep M cfg ms Fq (f1 A) el v = v.
Proof.
  rewrite elementStep_updLoop. apply updLoop_id. intros i x _.
  rewrite rest_dot, (ea_mul_0_r A HE), (ea_mul_1_l A HE), (ea_add_0_l A HE).
  reflexivity.
Qed.

Lemma rest_numStep ms u Flux :
  snd (fst (numStep M cfg ms u Flux (f1 A))) = u.
Proof.
  unfold numStep.
  apply (forLoop_inv (fun _ (s : MS * list (list A) * list (list (list A))) =>
                        snd (fst s) = u)); [reflexivity|].
  intros eq s _ Hs. rewrite equationStep_u, Hs.
  rewrite (forLoop_ext _ _ (fun _ v => v)) by (intros; apply rest_elementStep).
  replace (forLoop (getElNum M) (fun _ v => v) (row u eq)) with (row u eq).
  - apply insert_row_id.
  - symmetry. apply (forLoop_inv (fun _ w => w = row u eq)); [reflexivity|].
    intros i w _ Hw. exact Hw.
Qed.

Lemma rest_eulerUpdate t s :
  r_u (eulerUpdate L M cfg t s) = updateSource L M cfg t (r_u s).
Proof. rewrite eulerUpdate_u, fluxStep_numStep. apply rest_numStep. Qed.

(** With [beta = 0] the kernel leaves zeros, so every stage vector of
    [rungeKutta] is zero and the combination adds nothing. *)
Lemma rest_stage ms u Flux :
  sized M u -> meshSized M ->
  allIn null (snd (fst (fluxStep M cfg ms u Flux (f0 A)))).
Proof.
  intros Hs Hm.
  apply (fluxStep_allIn_sized M cfg null eq_refl null_add null_sub
           null_mass null_dt Hstiff Hflux); [|exact Hs|exact Hm].
  intros y. apply (ea_mul_0_l A HE).
Qed.

Lemma plusTimesAll_sized (kd ks : list (list A)) c :
  sized M kd -> sized M (plusTimesAll M (length kd) kd ks c).
Proof.
  intros [H4 Hrows]. split.
  - rewrite plusTimesAll_length. exact H4.
  - intros eq Heq. rewrite plusTimesAll_row by lia.
    rewrite plusTimes_length. apply Hrows. exact Heq.
Qed.

Lemma rest_rkIncrement (k1 k2 k3 k4 : list (list A)) eq i :
  allIn null k1 -> allIn null k2 -> allIn null k3 -> allIn null k4 ->
  rkIncrement k1 k2 k3 k4 eq i = f0 A.
Proof.
  intros H1 H2 H3 H4. unfold rkIncrement.
  rewrite (H1 eq i), (H2 eq i), (H3 eq i), (H4 eq i).
  rewrite (ea_mul_0_r A HE), !(ea_add_0_l A HE). apply (ea_div_0_6 A HE).
Qed.

Lemma rest_rkConcat (u k1 k2 k3 k4 : list (list A)) :
  allIn null k1 -> allIn null k2 -> allIn null k3 -> allIn null k4 ->
  rkConcat M u k1 k2 k3 k4 = u.
Proof.
  intros H1 H2 H3 H4. rewrite rkConcat_updLoop. apply updLoop_id.
  intros eq r _. apply updLoop_id. intros i x _.
  rewrite rest_rkIncrement by assumption. apply (ea_add_0_r A HE).
Qed.

Lemma rest_rkUpdate t s :
  sized M (r_u s) -> meshSized M ->
  r_u (rkUpdate L M cfg t s) = updateSource L M cfg t (r_u s).
Proof.
  intros Hs Hm. unfold rkUpdate. simpl.
  assert (Hu := updateSource_sized L M cfg t _ Hs).
  set (u := updateSource L M cfg t (r_u s)) in *.
  destruct (rkStages_eqs M cfg (r_mesh s) u (r_Flux s))
    as (E1 & B2 & E2 & B3 & E3 & B4 & E4).
  set (st := rkStages M cfg (r_mesh s) u (r_Flux s)) in *.
  apply rest_rkConcat.
  - change (rk_k1 st) with (snd (fst (rk_m1 st, rk_k1 st, rk_F1 st))).
    rewrite E1. apply rest_stage; assumption.
  - change (rk_k2 st) with (snd (fst (rk_m2 st, rk_k2 st, rk_F2 st))).
    rewrite E2. apply rest_stage; [|exact Hm]. rewrite B2.
    apply plusTimesAll_sized. exact Hu.
  - change (rk_k3 st) with (snd (fst (rk_m3 st, rk_k3 st, rk_F3 st))).
    rewrite E3. apply rest_stage; [|exact Hm]. rewrite B3.
    apply plusTimesAll_sized. exact Hu.
  - change (rk_k4 st) with (snd (fst (rk_m4 st, rk_k4 st, rk_F4 st))).
    rewrite E4. apply rest_stage; [|exact Hm]. rewrite B4.
    apply plusTimesAll_sized. exact Hu.
Qed.

(** The runs of the two integrators hold the same solution and output
    after any number of iterations. *)
Lemma rest_runs_agree u ms n :
  sized M u -> meshSized M ->
  sized M (r_u (runAfter M cfg (eulerUpdate L M cfg) n u ms)) /\
  r_u (runAfter M cfg (rkUpdate L M cfg) n u ms) =
    r_u (runAfter M cfg (eulerUpdate L M cfg) n u ms) /\
  r_out (runAfter M cfg (rkUpdate L M cfg) n u ms) =
    r_out (runAfter M cfg (eulerUpdate L M cfg) n u ms) /\
  displayAt M cfg (rkUpdate L M cfg) n u ms =
    displayAt M cfg (eulerUpdate L M cfg) n u ms.
Proof.
  intros Hs Hm. induction n as [|n (IHs & IHu & IHo & IHd)].
  - repeat split; try reflexivity; apply Hs.
  - assert (Hu : r_u (runAfter M cfg (eulerUpdate L M cfg) (S n) u ms) =
                 updateSource L M cfg (timeAt cfg n)
                   (r_u (runAfter M cfg (eulerUpdate L M cfg) n u ms))).
    { rewrite (runAfter_S_u M cfg _ (eulerUpdate_frame L M cfg)).
      apply rest_eulerUpdate. }
    split; [rewrite Hu; apply updateSource_sized; exact IHs|].
    split; [|split].
    + rewrite (runAfter_S_u M cfg _ (rkUpdate_frame L M cfg)).
      rewrite rest_rkUpdate by (try rewrite IHu; assumption).
      rewrite IHu, Hu. reflexivity.
    + rewrite (runAfter_S_out M cfg _ (rkUpdate_out L M cfg)).
      rewrite (runAfter_S_out M cfg _ (eulerUpdate_out L M cfg)).
      rewrite IHo, IHu, IHd. reflexivity.
    + rewrite !displayAt_S, IHd. reflexivity.
Qed.

Lemma rest_run_S u ms n :
  r_u (runAfter M cfg (eulerUpdate L M cfg) (S n) u ms) =
  updateSource L M cfg (timeAt cfg n)
               (r_u (runAfter M cfg (eulerUpdate L M cfg) n u ms)).
Proof.
  rewrite (runAfter_S_u M cfg _ (eulerUpdate_frame L M cfg)).
  apply rest_eulerUpdate.
Qed.
End Rest.

(** ** The point source *)

Section PointSource.
Context {A : Arith} (L : Libm A) {MS : Type} (M : Mesh A MS) (cfg : Config A).

Lemma g_p_get (u : list (list A)) el i :
  el < getElNum M -> i < getElNumNodes M ->
  vget (row (g_p M u) el) i = vget (row u 0) (el * elNumNodes M + i).
Proof.
  intros Hel Hi. unfold g_p, row at 1. rewrite list_lookup_fmap.
  rewrite lookup_seq_lt by exact Hel. simpl. unfold vget at 1.
  rewrite list_lookup_fmap, lookup_seq_lt by exact Hi. reflexivity.
Qed.

Lemma srcValue_unit (src : list A) t :
  ExactArith A ->
  vget src 5 = f1 A -> vget src 6 = f1 A -> vget src 7 = f0 A ->
  srcValue L src t = sin L (f2 A ⊗ M_PI A ⊗ t).
Proof.
  intros HE H5 H6 H7. unfold srcValue. rewrite H5, H6, H7.
  rewrite (ea_mul_1_l A HE), (ea_add_0_r A HE), (ea_mul_1_r A HE). reflexivity.
Qed.

(** With one source, active at [t], a node of its set holds the source's
    value after the injection stage. *)
Lemma single_source_value (src : list A) t u k :
  sources cfg = [src] -> (t <. vget src 8) = true ->
  k ∈ row (srcIndices L M cfg) 0 -> k < length (row u 0) ->
  vget (row (updateSource L M cfg t u) 0) k = srcValue L src t.
Proof.
  intros Hsrc Ha Hk Hlen. unfold vget at 1, updateSource.
  rewrite (sourceLoop_last L M cfg t u k (length (sources cfg)) 0).
  - destruct (lookup_lt_is_Some_2 _ _ Hlen) as [x Hx]. rewrite Hx, Hsrc. reflexivity.
  - rewrite Hsrc. simpl. lia.
  - unfold active. rewrite Hsrc. exact Ha.
  - exact Hk.
  - rewrite Hsrc. simpl. intros src' Hs. lia.
Qed.
End PointSource.

(** C5 (as amended). One source of amplitude 1, frequency 1, phase 0 that
    is active throughout, a zero initial state, zero stiffness and flux,
    exact arithmetic, any mass matrices.  At every iteration, of time [t], the pressure at a
    node of the source is [sin(2*pi*t)] once the injection is done, and
    the update of either integrator leaves it so.  The snapshot comes
    before the injection in the loop body: the snapshot emitted at step 0
    records the initial zero, and the one emitted at a step [j+1] records
    [sin(2*pi*t_j)], the value injected one iteration earlier.  Solution
    and output are the same under [forwardEuler] and [rungeKutta]. *)
Theorem point_source_snapshots
  {A : Arith} (L : Libm A) {MS : Type} (M : Mesh A MS) (cfg : Config A)
  (u0 : list (list A)) (ms : MS) (src : list A) (k n : nat) :
  let e := fun n => runAfter M cfg (eulerUpdate L M cfg) n u0 ms in
  let r := fun n => runAfter M cfg (rkUpdate L M cfg) n u0 ms in
  ExactArith A ->
  (forall ms el Fq v j, vget (getElStiffVector M ms el Fq v) j = f0 A) ->
  (forall ms el j, vget (getElFlux M ms el) j = f0 A) ->
  meshSized M -> sized M u0 -> allIn null u0 ->
  sources cfg = [src] ->
  vget src 5 = f1 A -> vget src 6 = f1 A -> vget src 7 = f0 A ->
  (forall j, j <= n -> (timeAt cfg j <. vget src 8) = true) ->
  k ∈ row (srcIndices L M cfg) 0 ->
  vget (row (updateSource L M cfg (timeAt cfg n) (r_u (e n))) 0) k =
    sin L (f2 A ⊗ M_PI A ⊗ timeAt cfg n) /\
  vget (row (r_u (e (S n))) 0) k = sin L (f2 A ⊗ M_PI A ⊗ timeAt cfg n) /\
  r_u (r n) = r_u (e n) /\
  r_out (r n) = r_out (e n) /\
  (forall step t data,
     (step, t, data) ∈ pressureSnapshots (r_out (e n)) ->
     t = timeAt cfg step /\
     forall el i, el < getElNum M -> i < getElNumNodes M ->
                  el * elNumNodes M + i = k ->
       vget (row data el) i =
       match step with
       | O => f0 A
       | S j => sin L (f2 A ⊗ M_PI A ⊗ timeAt cfg j)
       end).
Proof.
  intros e r HE Hstiff Hflux Hm Hs Hz Hsrc H5 H6 H7 Hact Hk.
  assert (Hagree := fun n => rest_runs_agree L M cfg HE Hstiff Hflux u0 ms n Hs Hm).
  assert (Hkn : k < numNodes M).
  { rewrite row_srcIndices in Hk by (rewrite Hsrc; simpl; lia).
    apply elem_of_indice in Hk. apply Hk. }
  assert (Hlen : forall n, k < length (row (r_u (e n)) 0)).
  { intros n'. destruct (Hagree n') as ([_ Hrows] & _). unfold e.
    rewrite Hrows by lia. exact Hkn. }
  assert (Hinj : forall n', n' <= n ->
     vget (row (updateSource L M cfg (timeAt cfg n') (r_u (e n'))) 0) k =
     sin L (f2 A ⊗ M_PI A ⊗ timeAt cfg n')).
  { intros n' Hn'. rewrite (single_source_value L M cfg src) by auto.
    apply srcValue_unit; assumption. }
  assert (Hafter : forall n', n' <= n ->
     vget (row (r_u (e (S n'))) 0) k = sin L (f2 A ⊗ M_PI A ⊗ timeAt cfg n')).
  { intros n' Hn'. unfold e.
    rewrite (rest_run_S L M cfg HE Hstiff Hflux). apply Hinj. exact Hn'. }
  split; [apply Hinj; lia|]. split; [apply Hafter; lia|].
  destruct (Hagree n) as (_ & Hu & Ho & _).
  split; [exact Hu|]. split; [exact Ho|].
  intros step t data Hin.
  apply (runAfter_snapshots M cfg _ (eulerUpdate_out L M cfg)) in Hin.
  destruct Hin as (Hstep & -> & ->). split; [reflexivity|].
  intros el i Hel Hi Heq. rewrite g_p_get by assumption. rewrite Heq.
  destruct step as [|j]; [apply Hz|apply Hafter; lia].
Qed.

(** ** The concrete scenarios *)

Lemma Rpow_2 (x : R) : Rpow x 2 = (x * x)%R.
Proof. unfold Rpow. destruct (Req_dec_T 2 2); [reflexivity|contradiction]. Qed.

Lemma vget_replicate {A : Arith} n j : vget (replicate n (f0 A)) j = f0 A.
Proof.
  unfold vget. destruct (decide (j < n)) as [H|H].
  - rewrite lookup_replicate_2 by exact H. reflexivity.
  - rewrite lookup_ge_None_2 by (rewrite length_replicate; lia). reflexivity.
Qed.

Lemma zeroU_sized {A : Arith} {MS} (M : Mesh A MS) :
  sized M (zeroU A (getNumNodes M)).
Proof.
  split; [reflexivity|]. intros eq Heq. unfold zeroU, row.
  rewrite lookup_replicate_2 by exact Heq. simpl. apply length_replicate.
Qed.

Lemma zeroU_null {A : Arith} n : allIn null (zeroU A n).
Proof.
  intros eq j. unfold zeroU, row. destruct (decide (eq < 4)) as [H|H].
  - rewrite lookup_replicate_2 by exact H. simpl. apply vget_replicate.
  - rewrite lookup_ge_None_2 by (rewrite length_replicate; lia). reflexivity.
Qed.

Lemma pointMesh_source : 0 ∈ row (srcIndices libm_reals pointMesh pointCfg) 0.
Proof.
  rewrite row_srcIndices by (simpl; lia). apply elem_of_indice.
  split; [unfold numNodes; simpl; lia|].
  unfold inSource, dist2, radius2. simpl pow. rewrite !Rpow_2.
  apply flt_reals. unfold vget, row, unitSource. simpl. lra.
Qed.

Lemma pointCfg_stopsAt : stopsAt pointCfg 2 = true.
Proof.
  apply stopsAt_spec. split.
  - intros k Hk. apply fle_reals. rewrite timeAt_reals.
    destruct k as [|[|k]]; [simpl; lra|simpl; lra|lia].
  - apply fle_reals_false. rewrite timeAt_reals. simpl. lra.
Qed.

(** C5, the claim as stated fails.  One node at the origin inside a
    source of amplitude 1, frequency 1, phase 0; time step and snapshot
    rate 1/4; exact arithmetic.  [forwardEuler] makes two iterations and
    emits the snapshots of steps 0 and 1.  The snapshot of step 1, at the
    time [t = 1/4], records the pressure 0 at the source node: the value
    [sin(2*pi*0)] injected during step 0.  The claim gives
    [sin(2*pi*1/4) = 1]. *)
Lemma point_source_snapshot_lags :
  forwardEuler libm_reals pointMesh pointCfg 2 (zeroU reals 1) tt =
    Some (2, finalRun pointMesh pointCfg
               (eulerUpdate libm_reals pointMesh pointCfg) 2 (zeroU reals 1) tt) /\
  0 ∈ row (srcIndices libm_reals pointMesh pointCfg) 0 /\
  pressureSnapshots
    (r_out (finalRun pointMesh pointCfg
              (eulerUpdate libm_reals pointMesh pointCfg) 2 (zeroU reals 1) tt)) =
    [ (0, 0%R, [[0%R]]); (1, (1 / 4)%R, [[0%R]]) ] /\
  Rtrigo_def.sin (2 * PI * (1 / 4)) = 1%R.
Proof.
  split.
  { unfold forwardEuler. apply integrate_exact; [exact pointCfg_stopsAt|lia]. }
  split; [exact pointMesh_source|]. split.
  - unfold finalRun. simpl r_out. rewrite pressureSnapshots_app.
    rewrite !(runAfter_S_out pointMesh pointCfg _
                (eulerUpdate_out libm_reals pointMesh pointCfg)).
    rewrite !pressureSnapshots_app.
    rewrite !(displayAt_S pointMesh pointCfg _).
    assert (Hd0 : snapshotDue pointCfg 0
              (displayAt pointMesh pointCfg
                 (eulerUpdate libm_reals pointMesh pointCfg) 0 (zeroU reals 1) tt) = true).
    { unfold snapshotDue. apply orb_true_r. }
    rewrite Hd0.
    assert (Hd1 : snapshotDue pointCfg 1 (f0 reals ⊕ timeStep pointCfg) = true).
    { unfold snapshotDue. apply orb_true_iff. left. apply fle_reals. simpl. lra. }
    rewrite Hd1.
    rewrite (rest_run_S libm_reals pointMesh pointCfg reals_ExactArith)
      by (intros; apply (vget_replicate (A:=reals))).
    unfold snapshot, pressureSnapshots, g_p. simpl flat_map. simpl app.
    unfold runAfter, initialRun. simpl iterate. simpl r_u. simpl r_out.
    simpl map. 
    rewrite (single_source_value libm_reals pointMesh pointCfg unitSource);
      [|reflexivity
       |apply flt_reals; unfold vget, unitSource, timeAt; simpl; lra
       |exact pointMesh_source
       |simpl; lia].
    assert (Hv : srcValue libm_reals unitSource 0%R = 0%R).
    { unfold srcValue, vget, unitSource. simpl.
      rewrite Rmult_0_r, Rplus_0_r, sin_0. lra. }
    assert (Ht : (0 + 1 / 4 = 1 / 4)%R) by lra.
    rewrite Hv, Ht. reflexivity.
  - replace (2 * PI * (1 / 4))%R with (PI / 2)%R by lra. apply sin_PI2.
Qed.

(** ** The theorems at concrete inputs *)

(** One Euler update stage on [toyMesh] in binary64.  For equation 0 and
    element 0: stiffness [[2+1; 1]], flux [[1; 0]], residual [[2; 1]],
    matrix [[2 1] [1 2]], so the block becomes
    [[0.25*5 + 1; 0.25*4 + 2]]. *)
Example fluxStep_toy_binary64 :
  snd (fst (fluxStep (toyMesh binary64) toyCfg64 0 u64 [] 1%float)) =
  [ [2.25; 3; 6.75; 7]; [-0.5; -0.25; -0.5; -0.25];
    [1.75; 1.75; 1.75; 1.75]; [0; 1; 0; 1] ]%float.
Proof. reflexivity. Qed.

(** The first stage of [rungeKutta] on the same input, the vector
    [plusTimes] leaves for the second stage, and the combined solution. *)
Example rkStages_toy_binary64 :
  let st := rkStages (toyMesh binary64) toyCfg64 0 u64 [] in
  row (rk_k1 st) 0 = [1.25; 1; 3.75; 3]%float /\
  row (rk_b2 st) 0 = [0.625; 0.5; 1.875; 1.5]%float /\
  row (rk_k2 st) 0 = [0.21875; 0.34375; 1.65625; 1.53125]%float /\
  vget (row (rkConcat (toyMesh binary64) u64
                      (rk_k1 st) (rk_k2 st) (rk_k3 st) (rk_k4 st)) 0) 0 =
    rkSum u64 (rk_k1 st) (rk_k2 st) (rk_k3 st) (rk_k4 st) 0 0.
Proof. repeat split; reflexivity. Qed.

Lemma uR_sized : sized (toyMesh reals) uR.
Proof.
  split; [reflexivity|]. intros eq Heq.
  destruct eq as [|[|[|[|eq]]]]; try reflexivity. lia.
Qed.

Lemma toyMesh_sized : meshSized (toyMesh reals).
Proof. reflexivity. Qed.

Lemma toyMesh_source_0 : 0 ∈ row (srcIndices libm_reals (toyMesh reals) toyCfg) 0.
Proof.
  rewrite row_srcIndices by (simpl; lia). apply elem_of_indice.
  split; [unfold numNodes; simpl; lia|].
  unfold inSource, dist2, radius2. simpl pow. rewrite !Rpow_2.
  apply flt_reals. unfold vget, row, unitSource. simpl. lra.
Qed.

(** C1 at element 1, node 0 of equation 0 of [toyMesh], at time 0. *)
Lemma forwardEuler_step_block_witness :
  let M := toyMesh reals in
  let u := updateSource libm_reals M toyCfg 0%R (r_u runR) in
  let ms1 := fst (updateFlux M (r_mesh runR) u (r_Flux runR)
                             (v0 toyCfg) (c0 toyCfg) (rho0 toyCfg)) in
  let Flux1 := snd (updateFlux M (r_mesh runR) u (r_Flux runR)
                               (v0 toyCfg) (c0 toyCfg) (rho0 toyCfg)) in
  let mse := fst (precomputed M toyCfg (f1 reals) 0 ms1 u Flux1) in
  let Fq := snd (precomputed M toyCfg (f1 reals) 0 ms1 u Flux1) in
  let ue := uAtElement M toyCfg (f1 reals) 0 1 ms1 u Flux1 in
  vget (row (r_u (eulerUpdate libm_reals M toyCfg 0%R runR)) 0) 2 =
    timeStep toyCfg ⊗ dot (elMassMatrix M mse 1 0) (residual M mse Fq 1 ue) 2
    ⊕ vget (row u 0) 2.
Proof.
  exact (proj1 (forwardEuler_step_block libm_reals (toyMesh reals) toyCfg
                  0%R runR 0 1 0 uR_sized toyMesh_sized
                  ltac:(lia) ltac:(simpl; lia) ltac:(unfold elNumNodes; simpl; lia)
                  (Rmult_1_l _))).
Defined.

(** C2 at equation 1, node 2 of [toyMesh]. *)
Lemma rungeKutta_stage_scaling_witness :
  let st := rkStages (toyMesh reals) toyCfg 0 uR [] in
  vget (row (rk_b2 st) 1) 2 = vget (row (rk_k1 st) 1) 2 ⊗ fhalf reals /\
  vget (row (rk_b3 st) 1) 2 = vget (row (rk_k2 st) 1) 2 ⊗ fhalf reals /\
  vget (row (rk_b4 st) 1) 2 = vget (row (rk_k3 st) 1) 2 ⊗ f1 reals.
Proof.
  destruct (rungeKutta_stage_scaling (toyMesh reals) toyCfg 0 uR [] 1 2
              uR_sized ltac:(lia) ltac:(unfold numNodes; simpl; lia))
    as (_ & H2 & _ & H3 & _ & H4 & _).
  exact (conj H2 (conj H3 H4)).
Defined.

(** C3 at equation 2, node 3 of [toyMesh], at time 0. *)
Lemma rungeKutta_combination_witness :
  let M := toyMesh reals in
  let u := updateSource libm_reals M toyCfg 0%R (r_u runR) in
  let st := rkStages M toyCfg (r_mesh runR) u (r_Flux runR) in
  vget (row (r_u (rkUpdate libm_reals M toyCfg 0%R runR)) 2) 3 =
  vget (row u 2) 3 ⊕
  (vget (row (rk_k1 st) 2) 3 ⊕ f2 reals ⊗ vget (row (rk_k2 st) 2) 3 ⊕
   f2 reals ⊗ vget (row (rk_k3 st) 2) 3 ⊕ vget (row (rk_k4 st) 2) 3) ⊘ f6 reals.
Proof.
  exact (rungeKutta_combination libm_reals (toyMesh reals) toyCfg 0%R runR 2 3
           uR_sized ltac:(lia) ltac:(unfold numNodes; simpl; lia)).
Defined.

(** C6 on [toyMesh] with the unit source at the origin: node 0, at the
    centre, is in the set; node 1, at distance 1 from it, is not. *)
Lemma source_membership_witness :
  0 ∈ row (srcIndices libm_reals (toyMesh reals) toyCfg) 0 /\
  1 ∉ row (srcIndices libm_reals (toyMesh reals) toyCfg) 0.
Proof.
  split.
  - apply (proj1 (source_membership libm_reals (toyMesh reals) toyCfg 0 0
                    ltac:(simpl; lia))).
    split; [unfold numNodes; simpl; lia|].
    unfold dist2, radius2. simpl pow. rewrite !Rpow_2.
    apply flt_reals. unfold vget, row, unitSource. simpl. lra.
  - apply (proj2 (source_membership libm_reals (toyMesh reals) toyCfg 0 1
                    ltac:(simpl; lia))).
    + apply flt_reals_false. lra.
    + unfold dist2, radius2. simpl pow. rewrite !Rpow_2.
      unfold vget, row, unitSource. simpl. lra.
Defined.

(** C7 for the unit source on [toyMesh] at time 0, at node 0. *)
Lemma source_injection_witness :
  vget (row (injectSource libm_reals (toyMesh reals) toyCfg 0%R 0 uR) 0) 0 =
    vget unitSource 5 ⊗
    sin libm_reals (f2 reals ⊗ M_PI reals ⊗ vget unitSource 6 ⊗ 0%R
                    ⊕ vget unitSource 7) /\
  vget (row (updateSource libm_reals (toyMesh reals) toyCfg 0%R uR) 0) 0 =
    vget unitSource 5 ⊗
    sin libm_reals (f2 reals ⊗ M_PI reals ⊗ vget unitSource 6 ⊗ 0%R
                    ⊕ vget unitSource 7).
Proof.
  destruct (source_injection libm_reals (toyMesh reals) toyCfg 0%R uR 0 0
              ltac:(simpl; lia) toyMesh_source_0 ltac:(simpl; lia))
    as (Hact & _).
  assert (Ha : (flt reals 0%R (vget (row (sources toyCfg) 0) 8)) = true).
  { apply flt_reals. unfold vget, row, unitSource. simpl. lra. }
  destruct (Hact Ha) as [H1 H2]. split; [exact H1|].
  apply H2. intros src' Hs. simpl in Hs. lia.
Defined.

(** C8 on a mesh at rest of 2 elements of 2 nodes, in exact arithmetic:
    node 1 of equation 0 after three iterations of either loop. *)
Lemma zero_solution_stays_zero_witness :
  let M := restMesh reals 2 2 (fun _ => []) in
  let cfg := cfgR 1 (1 / 4) (1 / 2) [] in
  isZero (vget (row (r_u (runAfter M cfg (eulerUpdate libm_reals M cfg) 3
                                   (zeroU reals 4) tt)) 0) 1) = true /\
  isZero (vget (row (r_u (runAfter M cfg (rkUpdate libm_reals M cfg) 3
                                   (zeroU reals 4) tt)) 0) 1) = true.
Proof.
  intros M cfg.
  destruct (zero_solution_stays_zero libm_reals M cfg (zeroU reals 4) tt
              reals_ZeroArith (reals_scalar _) (fun _ _ _ _ => reals_scalar _)
              (fun _ _ _ _ j => proj2 (reals_isZero _) (vget_replicate (A:=reals) 2 j))
              (fun _ _ j => proj2 (reals_isZero _) (vget_replicate (A:=reals) 2 j))
              eq_refl
              (fun eq j => proj2 (reals_isZero _) (zeroU_null (A:=reals) 4 eq j)))
    as (Hrun & _).
  destruct (Hrun 3) as [He Hr]. exact (conj (He 0 1) (Hr 0 1)).
Defined.

(** C5 on the point scenario: the source node after the injection of
    iteration 1 and at the end of it, and the agreement of the two
    integrators. *)
Lemma point_source_snapshots_witness :
  let e := fun n => runAfter pointMesh pointCfg
                      (eulerUpdate libm_reals pointMesh pointCfg) n (zeroU reals 1) tt in
  let r := fun n => runAfter pointMesh pointCfg
                      (rkUpdate libm_reals pointMesh pointCfg) n (zeroU reals 1) tt in
  vget (row (updateSource libm_reals pointMesh pointCfg (timeAt pointCfg 1)
                          (r_u (e 1))) 0) 0 =
    sin libm_reals (f2 reals ⊗ M_PI reals ⊗ timeAt pointCfg 1) /\
  vget (row (r_u (e 2)) 0) 0 =
    sin libm_reals (f2 reals ⊗ M_PI reals ⊗ timeAt pointCfg 1) /\
  r_u (r 1) = r_u (e 1) /\
  r_out (r 1) = r_out (e 1).
Proof.
  intros e r.
  assert (Hact : forall j, j <= 1 ->
            (flt reals (timeAt pointCfg j) (vget unitSource 8)) = true).
  { intros j Hj. apply flt_reals. rewrite timeAt_reals.
    assert (INR j <= 1)%R by (apply (le_INR j 1); exact Hj).
    unfold vget, unitSource. simpl. lra. }
  destruct (point_source_snapshots libm_reals pointMesh pointCfg (zeroU reals 1) tt
              unitSource 0 1 reals_ExactArith
              (fun _ _ _ _ j => vget_replicate (A:=reals) 1 j)
              (fun _ _ j => vget_replicate (A:=reals) 1 j)
              eq_refl (zeroU_sized pointMesh) (zeroU_null 1)
              eq_refl eq_refl eq_refl eq_refl Hact pointMesh_source)
    as (H1 & H2 & H3 & H4 & _).
  exact (conj H1 (conj H2 (conj H3 H4))).
Defined.

(** ** The element loop in any order *)

Lemma fold_left_permutation {S X : Type} (f : S -> X -> S) (l l' : list X) :
  (forall s x y, f (f s x) y = f (f s y) x) ->
  Permutation l l' -> forall s, fold_left f l s = fold_left f l' s.
Proof.
  intros Hc Hp. induction Hp as [|x l l' Hp IH|x y l|l l' l'' _ IH1 _ IH2]; intros s.
  - reflexivity.
  - simpl. apply IH.
  - simpl. rewrite Hc. reflexivity.
  - rewrite IH1. apply IH2.
Qed.

Section ElementOrder.
Context {A : Arith} {MS : Type} (M : Mesh A MS) (cfg : Config A).
Hypothesis Hloc : localStiff M.

Lemma elementStep_lookup ms Fq beta el (v : list A) j :
  elementStep M cfg ms Fq beta el v !! j =
  if decide (el * elNumNodes M <= j < el * elNumNodes M + elNumNodes M)
  then (fun y => timeStep cfg ⊗
                   dot (elMassMatrix M ms el (j - el * elNumNodes M))
                       (residual M ms Fq el v) (elNumNodes M)
                 ⊕ beta ⊗ y) <$> (v !! j)
  else v !! j.
Proof. rewrite elementStep_updLoop, updLoop_lookup. reflexivity. Qed.

Lemma residual_local ms Fq el (v w : list A) :
  (forall i, i < elNumNodes M ->
             v !! (el * elNumNodes M + i) = w !! (el * elNumNodes M + i)) ->
  residual M ms Fq el v = residual M ms Fq el w.
Proof. intros H. unfold residual. rewrite (Hloc ms el Fq v w H). reflexivity. Qed.

Lemma elementStep_other ms Fq beta el el' (v : list A) i :
  el <> el' -> i < elNumNodes M ->
  elementStep M cfg ms Fq beta el v !! (el' * elNumNodes M + i) =
  v !! (el' * elNumNodes M + i).
Proof.
  intros Hne Hi. rewrite elementStep_lookup, decide_False; [reflexivity|]. nia.
Qed.

Lemma elementStep_comm ms Fq beta a b (v : list A) :
  elementStep M cfg ms Fq beta b (elementStep M cfg ms Fq beta a v) =
  elementStep M cfg ms Fq beta a (elementStep M cfg ms Fq beta b v).
Proof.
  destruct (decide (a = b)) as [->|Hne]; [reflexivity|].
  apply list_eq. intros j. rewrite !elementStep_lookup.
  rewrite (residual_local ms Fq b (elementStep M cfg ms Fq beta a v) v)
    by (intros i Hi; apply elementStep_other; [exact Hne|exact Hi]).
  rewrite (residual_local ms Fq a (elementStep M cfg ms Fq beta b v) v)
    by (intros i Hi; apply elementStep_other; [congruence|exact Hi]).
  repeat case_decide; try reflexivity. nia.
Qed.

Lemma elementLoop_untouched_lookup ms Fq beta k (v : list A) j :
  k * elNumNodes M <= j ->
  forLoop k (elementStep M cfg ms Fq beta) v !! j = v !! j.
Proof.
  induction k as [|k IH]; intros Hj; [reflexivity|].
  rewrite forLoop_S, elementStep_lookup, decide_False by lia.
  apply IH. lia.
Qed.

Lemma elementLoop_local ms Fq beta el i (v : list A) :
  el < getElNum M -> i < elNumNodes M -> el * elNumNodes M + i < length v ->
  vget (forLoop (getElNum M) (elementStep M cfg ms Fq beta) v) (el * elNumNodes M + i) =
  timeStep cfg ⊗ dot (elMassMatrix M ms el i) (residual M ms Fq el v) (elNumNodes M)
  ⊕ beta ⊗ vget v (el * elNumNodes M + i).
Proof.
  intros Hel Hi Hlen. rewrite elementLoop_block by assumption.
  rewrite (residual_local ms Fq el _ v); [reflexivity|].
  intros i' Hi'. apply elementLoop_untouched_lookup. lia.
Qed.
End ElementOrder.

(** X1. The element loop of [numStep] when the stiffness vector of an
    element reads [u[eq]] at the element's own nodes only: the iterations
    can be taken in any order of the elements, with the result of the
    loop in index order; and the block of an element is computed from the
    values [u[eq]] held before the loop, [timeStep] times the row of the
    element's matrix applied to the residual, plus [beta] times the old
    entry. *)
Theorem element_loop_any_order
  {A : Arith} {MS : Type} (M : Mesh A MS) (cfg : Config A)
  (ms : MS) (Fq : list (list A)) (beta : A) (order : list nat) (ueq : list A) :
  localStiff M ->
  Permutation order (seq 0 (getElNum M)) ->
  elementLoop M cfg ms Fq beta order ueq =
    forLoop (getElNum M) (elementStep M cfg ms Fq beta) ueq /\
  forall el i, el < getElNum M -> i < elNumNodes M ->
    el * elNumNodes M + i < length ueq ->
    vget (elementLoop M cfg ms Fq beta order ueq) (el * elNumNodes M + i) =
    timeStep cfg ⊗ dot (elMassMatrix M ms el i) (residual M ms Fq el ueq) (elNumNodes M)
    ⊕ beta ⊗ vget ueq (el * elNumNodes M + i).
Proof.
  intros Hloc Hp.
  assert (E : elementLoop M cfg ms Fq beta order ueq =
              forLoop (getElNum M) (elementStep M cfg ms Fq beta) ueq).
  { unfold elementLoop, forLoop. apply fold_left_permutation; [|exact Hp].
    intros s x y. apply elementStep_comm. exact Hloc. }
  split; [exact E|]. intros el i Hel Hi Hlen. rewrite E.
  apply elementLoop_local; assumption.
Qed.

(** ** The Euler step and the first Runge-Kutta stage *)

Section Retention.
Context {A : Arith} (L : Libm A) {MS : Type} (M : Mesh A MS) (cfg : Config A).

Lemma equationStep_mesh_flux beta eq (s : MS * list (list A) * list (list (list A))) :
  fst (fst (equationStep M cfg beta eq s)) =
    fst (precomputeFlux M (fst (fst s)) (row (snd (fst s)) eq) (row (snd s) eq) eq) /\
  snd (equationStep M cfg beta eq s) =
    <[eq := snd (precomputeFlux M (fst (fst s)) (row (snd (fst s)) eq) (row (snd s) eq) eq)]>
      (snd s).
Proof.
  destruct s as [[ms u] Flux]. simpl.
  destruct (precomputeFlux M ms (row u eq) (row Flux eq) eq) as [ms' Fq].
  split; reflexivity.
Qed.

(** The mesh state and [Flux] along the equation loop do not depend on
    [beta]: [precomputeFlux] for equation [eq] reads [u[eq]], which the
    loop has not written yet. *)
Lemma equationLoop_mesh_flux beta beta' k ms (u : list (list A)) Flux :
  k <= 4 ->
  fst (fst (forLoop k (equationStep M cfg beta) (ms, u, Flux))) =
  fst (fst (forLoop k (equationStep M cfg beta') (ms, u, Flux))) /\
  snd (forLoop k (equationStep M cfg beta) (ms, u, Flux)) =
  snd (forLoop k (equationStep M cfg beta') (ms, u, Flux)).
Proof.
  induction k as [|k IH]; intros Hk; [split; reflexivity|].
  destruct IH as [IHm IHF]; [lia|].
  rewrite !forLoop_S.
  destruct (equationStep_mesh_flux beta k (forLoop k (equationStep M cfg beta) (ms, u, Flux)))
    as [-> ->].
  destruct (equationStep_mesh_flux beta' k (forLoop k (equationStep M cfg beta') (ms, u, Flux)))
    as [-> ->].
  rewrite IHm, IHF.
  rewrite (equationLoop_row_later M cfg beta k k (ms, u, Flux)) by lia.
  rewrite (equationLoop_row_later M cfg beta' k k (ms, u, Flux)) by lia.
  split; reflexivity.
Qed.

Lemma precomputed_beta beta beta' eq ms (u : list (list A)) Flux :
  eq < 4 ->
  precomputed M cfg beta eq ms u Flux = precomputed M cfg beta' eq ms u Flux.
Proof.
  intros Heq. unfold precomputed.
  destruct (equationLoop_mesh_flux beta beta' eq ms u Flux) as [Hm HF]; [lia|].
  assert (Hu := equationLoop_row_later M cfg beta eq eq (ms, u, Flux) (Nat.le_refl eq)).
  assert (Hu' := equationLoop_row_later M cfg beta' eq eq (ms, u, Flux) (Nat.le_refl eq)).
  destruct (forLoop eq (equationStep M cfg beta) (ms, u, Flux)) as [[m1 u1] F1].
  destruct (forLoop eq (equationStep M cfg beta') (ms, u, Flux)) as [[m2 u2] F2].
  simpl in *. rewrite Hm, HF, Hu, Hu'. reflexivity.
Qed.

Hypothesis HE : ExactArith A.
Hypothesis Hloc : localStiff M.

Lemma numStep_local beta eq el i ms (u : list (list A)) Flux :
  eq < 4 -> eq < length u -> el < getElNum M -> i < elNumNodes M ->
  el * elNumNodes M + i < length (row u eq) ->
  vget (row (snd (fst (numStep M cfg ms u Flux beta))) eq) (el * elNumNodes M + i) =
  timeStep cfg ⊗
    dot (elMassMatrix M (fst (precomputed M cfg beta eq ms u Flux)) el i)
        (residual M (fst (precomputed M cfg beta eq ms u Flux))
                  (snd (precomputed M cfg beta eq ms u Flux)) el (row u eq))
        (elNumNodes M)
  ⊕ beta ⊗ vget (row u eq) (el * elNumNodes M + i).
Proof.
  intros Heq Hlen Hel Hi Hin. rewrite numStep_row by assumption.
  apply elementLoop_local; assumption.
Qed.

Lemma numStep_retained beta eq el i ms (u : list (list A)) Flux :
  eq < 4 -> eq < length u -> el < getElNum M -> i < elNumNodes M ->
  el * elNumNodes M + i < length (row u eq) ->
  vget (row (snd (fst (numStep M cfg ms u Flux beta))) eq) (el * elNumNodes M + i) =
  vget (row (snd (fst (numStep M cfg ms u Flux (f0 A)))) eq) (el * elNumNodes M + i)
  ⊕ beta ⊗ vget (row u eq) (el * elNumNodes M + i).
Proof.
  intros Heq Hlen Hel Hi Hin. rewrite !numStep_local by assumption.
  rewrite (precomputed_beta beta (f0 A)) by exact Heq.
  rewrite (ea_mul_0_l A HE), (ea_add_0_r A HE). reflexivity.
Qed.
End Retention.

(** X2. One iteration of [forwardEuler] against stage 1 of [rungeKutta]
    on the same state, in exact arithmetic and with a stiffness vector
    that reads the element's own nodes only: both leave the same mesh
    state and the same [Flux], and the solution of the Euler step is the
    stage vector [k1] plus the solution after the source injection, entry
    by entry.  ([numStep] uses [beta] in the retained term [beta * u]
    alone.) *)
Theorem euler_step_is_first_stage
  {A : Arith} (L : Libm A) {MS : Type} (M : Mesh A MS) (cfg : Config A)
  (t : A) (s : Run) (eq j : nat) :
  let u := updateSource L M cfg t (r_u s) in
  let st := rkStages M cfg (r_mesh s) u (r_Flux s) in
  ExactArith A -> localStiff M -> meshSized M -> sized M (r_u s) ->
  eq < 4 -> j < numNodes M ->
  r_mesh (eulerUpdate L M cfg t s) = rk_m1 st /\
  r_Flux (eulerUpdate L M cfg t s) = rk_F1 st /\
  vget (row (r_u (eulerUpdate L M cfg t s)) eq) j =
    vget (row (rk_k1 st) eq) j ⊕ vget (row u eq) j.
Proof.
  intros u st HE Hloc Hm Hs Heq Hj.
  destruct (updateSource_sized L M cfg t _ Hs) as [H4 Hrows]. fold u in H4, Hrows.
  destruct (rkStages_eqs M cfg (r_mesh s) u (r_Flux s)) as (E1 & _). fold st in E1.
  assert (Em : rk_m1 st = fst (fst (fluxStep M cfg (r_mesh s) u (r_Flux s) (f0 A))))
    by (rewrite <- E1; reflexivity).
  assert (Ek : rk_k1 st = snd (fst (fluxStep M cfg (r_mesh s) u (r_Flux s) (f0 A))))
    by (rewrite <- E1; reflexivity).
  assert (EF : rk_F1 st = snd (fluxStep M cfg (r_mesh s) u (r_Flux s) (f0 A)))
    by (rewrite <- E1; reflexivity).
  rewrite Em, Ek, EF, eulerUpdate_u. fold u.
  assert (Eo : r_mesh (eulerUpdate L M cfg t s) =
               fst (fst (fluxStep M cfg (r_mesh s) u (r_Flux s) (f1 A))) /\
               r_Flux (eulerUpdate L M cfg t s) =
               snd (fluxStep M cfg (r_mesh s) u (r_Flux s) (f1 A))).
  { unfold eulerUpdate. fold u.
    destruct (fluxStep M cfg (r_mesh s) u (r_Flux s) (f1 A)) as [[m' u'] F'].
    split; reflexivity. }
  destruct Eo as [-> ->]. rewrite !fluxStep_numStep.
  set (ms1 := fst (updateFlux M (r_mesh s) u (r_Flux s) (v0 cfg) (c0 cfg) (rho0 cfg))).
  set (F1 := snd (updateFlux M (r_mesh s) u (r_Flux s) (v0 cfg) (c0 cfg) (rho0 cfg))).
  destruct (equationLoop_mesh_flux M cfg (f1 A) (f0 A) 4 ms1 u F1) as [Hmesh HFlux]; [lia|].
  split; [exact Hmesh|]. split; [exact HFlux|].
  unfold meshSized in Hm. unfold numNodes in Hj.
  assert (HN : 0 < elNumNodes M).
  { unfold elNumNodes. destruct (getElNumNodes M); [|lia]. nia. }
  assert (Hdm : j = j / elNumNodes M * elNumNodes M + j mod elNumNodes M).
  { rewrite Nat.mul_comm. apply Nat.div_mod_eq. }
  assert (Hel : j / elNumNodes M < getElNum M).
  { apply Nat.Div0.div_lt_upper_bound. unfold elNumNodes. nia. }
  assert (Hi : j mod elNumNodes M < elNumNodes M) by (apply Nat.mod_upper_bound; lia).
  rewrite Hdm.
  rewrite (numStep_retained M cfg HE Hloc (f1 A)); try assumption; try lia.
  - rewrite (ea_mul_1_l A HE). reflexivity.
  - rewrite <- Hdm, Hrows by exact Heq. exact Hj.
Qed.

(** ** The copy loops of a snapshot *)

(** A loop that rewrites one row of a vector of vectors. *)
Lemma forLoop_row {X : Type} (F : nat -> list X -> list X) el n (g : list (list X)) :
  forLoop n (fun i g => <[el := F i (row g el)]> g) g =
  <[el := forLoop n F (row g el)]> g.
Proof.
  destruct (decide (el < length g)) as [Hlt|Hge].
  - induction n as [|n IH].
    + rewrite !forLoop_0. symmetry. apply insert_row_id.
    + rewrite !forLoop_S, IH. rewrite row_insert_eq by exact Hlt.
      rewrite list_insert_insert_eq. reflexivity.
  - rewrite list_insert_ge by lia.
    apply (forLoop_inv (fun _ w => w = g)); [reflexivity|].
    intros i w _ ->. apply list_insert_ge. lia.
Qed.

(** Filling a row front to back, one entry or three entries per turn. *)
Lemma fill_row {X : Type} (val : nat -> X) n : forall r : list X,
  n <= length r ->
  forLoop n (fun i r => <[i := val i]> r) r = map val (seq 0 n) ++ drop n r.
Proof.
  induction n as [|n IH]; intros r Hn.
  - rewrite forLoop_0, drop_0. reflexivity.
  - rewrite forLoop_S, IH by lia. rewrite seq_S, map_app. simpl.
    destruct (lookup_lt_is_Some_2 r n) as [x Hx]; [lia|].
    rewrite (drop_S r x n Hx).
    replace n with (length (map val (seq 0 n)) + 0) at 1
      by (rewrite length_map, length_seq; lia).
    rewrite insert_app_r. simpl. rewrite <- app_assoc. reflexivity.
Qed.

Lemma length_triples {X : Type} (a b c : nat -> X) n :
  length (flat_map (fun i => [a i; b i; c i]) (seq 0 n)) = 3 * n.
Proof.
  induction n as [|n IH]; [reflexivity|].
  rewrite seq_S, flat_map_app, length_app, IH. simpl. lia.
Qed.

Lemma fill_triples {X : Type} (a b c : nat -> X) n : forall r : list X,
  3 * n <= length r ->
  forLoop n (fun i r => <[3 * i + 2 := c i]> (<[3 * i + 1 := b i]> (<[3 * i + 0 := a i]> r))) r =
  flat_map (fun i => [a i; b i; c i]) (seq 0 n) ++ drop (3 * n) r.
Proof.
  induction n as [|n IH]; intros r Hn.
  - rewrite forLoop_0. simpl. rewrite drop_0. reflexivity.
  - rewrite forLoop_S, IH by lia. rewrite seq_S, flat_map_app. simpl flat_map.
    rewrite ?app_nil_r.
    set (P := flat_map (fun i => [a i; b i; c i]) (seq 0 n)).
    assert (HP : length P = 3 * n) by apply length_triples.
    destruct (lookup_lt_is_Some_2 r (3 * n)) as [x Hx]; [lia|].
    destruct (lookup_lt_is_Some_2 r (S (3 * n))) as [y Hy]; [lia|].
    destruct (lookup_lt_is_Some_2 r (S (S (3 * n)))) as [z Hz]; [lia|].
    rewrite (drop_S r x (3 * n) Hx), (drop_S r y (S (3 * n)) Hy),
            (drop_S r z (S (S (3 * n))) Hz).
    replace (3 * n + 0) with (length P + 0) by lia.
    replace (3 * n + 1) with (length P + 1) by lia.
    replace (3 * n + 2) with (length P + 2) by lia.
    replace (3 * S n) with (S (S (S (3 * n)))) by lia.
    rewrite !insert_app_r, <- app_assoc. reflexivity.
Qed.

Lemma lookup_triples {X : Type} (a b c : nat -> X) N n :
  n < N ->
  flat_map (fun i => [a i; b i; c i]) (seq 0 N) !! (3 * n) = Some (a n) /\
  flat_map (fun i => [a i; b i; c i]) (seq 0 N) !! (3 * n + 1) = Some (b n) /\
  flat_map (fun i => [a i; b i; c i]) (seq 0 N) !! (3 * n + 2) = Some (c n).
Proof.
  induction N as [|N IH]; intros Hn; [lia|].
  rewrite seq_S, flat_map_app. simpl flat_map. rewrite ?app_nil_r.
  assert (HP := length_triples a b c N).
  destruct (decide (n = N)) as [->|Hne].
  - repeat split.
    + rewrite lookup_app_r by lia. replace (3 * N - _) with 0 by lia. reflexivity.
    + rewrite lookup_app_r by lia. replace (3 * N + 1 - _) with 1 by lia. reflexivity.
    + rewrite lookup_app_r by lia. replace (3 * N + 2 - _) with 2 by lia. reflexivity.
  - destruct IH as (Ha & Hb & Hc); [lia|].
    repeat split; rewrite lookup_app_l by lia; assumption.
Qed.

Section CopyLoops.
Context {A : Arith} {MS : Type} (M : Mesh A MS) (cfg : Config A).

Lemma vset2_outside (g : list (list A)) el i x : length g <= el -> vset2 g el i x = g.
Proof. intros H. unfold vset2. apply list_insert_ge. exact H. Qed.

Lemma vset2_thrice (g : list (list A)) el i j k x y z :
  vset2 (vset2 (vset2 g el i x) el j y) el k z =
  <[el := <[k := z]> (<[j := y]> (<[i := x]> (row g el)))]> g.
Proof.
  destruct (decide (el < length g)) as [Hlt|Hge].
  - unfold vset2. rewrite !row_insert_eq by (rewrite ?length_insert; exact Hlt).
    rewrite !list_insert_insert_eq. reflexivity.
  - rewrite (vset2_outside g) by lia. rewrite (vset2_outside g) by lia.
    rewrite (vset2_outside g) by lia. symmetry. apply list_insert_ge. lia.
Qed.

Lemma copyNodes_p u el n g :
  b_p (forLoop n (copyNode M cfg u el) g) =
  forLoop n (fun i gp => <[el := <[i := vget (row u 0) (el * elNumNodes M + i)]> (row gp el)]> gp)
          (b_p g).
Proof.
  induction n as [|n IH]; [reflexivity|]. rewrite !forLoop_S, <- IH. reflexivity.
Qed.

Lemma copyNodes_rho u el n g :
  b_rho (forLoop n (copyNode M cfg u el) g) =
  forLoop n (fun i gr =>
               <[el := <[i := vget (row u 0) (el * elNumNodes M + i) ⊘ (c0 cfg ⊗ c0 cfg)]>
                         (row gr el)]> gr)
          (b_rho g).
Proof.
  induction n as [|n IH]; [reflexivity|]. rewrite !forLoop_S, <- IH. reflexivity.
Qed.

Lemma copyNodes_v u el n g :
  b_v (forLoop n (copyNode M cfg u el) g) =
  forLoop n (fun i gv =>
               <[el := <[3 * i + 2 := vget (row u 3) (el * elNumNodes M + i)]>
                         (<[3 * i + 1 := vget (row u 2) (el * elNumNodes M + i)]>
                            (<[3 * i + 0 := vget (row u 1) (el * elNumNodes M + i)]>
                               (row gv el)))]> gv)
          (b_v g).
Proof.
  induction n as [|n IH]; [reflexivity|]. rewrite !forLoop_S, <- IH.
  unfold copyNode at 1. simpl b_v. apply vset2_thrice.
Qed.

(** The outer loop, buffer by buffer: every row is rewritten by the
    inner loop. *)
Lemma copyLoop_rows (proj : Buffers -> list (list A))
      (F : nat -> nat -> list A -> list A) u :
  (forall el n g,
      proj (forLoop n (copyNode M cfg u el) g) =
      forLoop n (fun i gp => <[el := F el i (row gp el)]> gp) (proj g)) ->
  forall k g,
    proj (forLoop k (fun el g => forLoop (getElNumNodes M) (copyNode M cfg u el) g) g) =
    updLoop [] 0 k (fun el r => forLoop (getElNumNodes M) (F el) r) (proj g).
Proof.
  intros Hproj. induction k as [|k IH]; intros g; [reflexivity|].
  rewrite forLoop_S, Hproj, forLoop_row, IH, updLoop_S. reflexivity.
Qed.

Lemma rows_filled (F : nat -> list A -> list A) (G : nat -> list A) k (g : list (list A)) :
  length g = k ->
  (forall el, el < k -> F el (row g el) = G el) ->
  updLoop [] 0 k F g = map G (seq 0 k).
Proof.
  intros Hlen HF. apply list_eq. intros j. rewrite updLoop_lookup.
  change (map G (seq 0 k)) with (G <$> seq 0 k). rewrite list_lookup_fmap.
  destruct (decide (j < k)) as [Hj|Hj].
  - rewrite decide_True by lia. rewrite lookup_seq_lt by exact Hj.
    destruct (lookup_lt_is_Some_2 g j) as [r Hr]; [lia|].
    rewrite Hr. simpl. f_equal. rewrite Nat.sub_0_r.
    rewrite <- (HF j Hj). unfold row. rewrite Hr. reflexivity.
  - rewrite decide_False by lia. rewrite lookup_seq_ge by lia.
    apply lookup_ge_None_2. lia.
Qed.

Lemma copySolution_eq u g :
  shaped M g ->
  copySolution M cfg u g =
  {| b_p := g_p M u; b_rho := g_rho M cfg u; b_v := g_v M u |}.
Proof.
  intros (Hp & Hr & Hv & Hrows).
  assert (E : forall x y : @Buffers A,
             b_p x = b_p y -> b_rho x = b_rho y -> b_v x = b_v y -> x = y).
  { intros [] []; simpl; intros -> -> ->; reflexivity. }
  apply E; simpl; unfold copySolution.
  - rewrite (copyLoop_rows b_p
               (fun el i r => <[i := vget (row u 0) (el * elNumNodes M + i)]> r) u
               (copyNodes_p u)).
    apply rows_filled; [exact Hp|]. intros el Hel.
    destruct (Hrows el Hel) as (H1 & _ & _).
    rewrite fill_row by lia. rewrite drop_ge by lia. apply app_nil_r.
  - rewrite (copyLoop_rows b_rho
               (fun el i r => <[i := vget (row u 0) (el * elNumNodes M + i)
                                      ⊘ (c0 cfg ⊗ c0 cfg)]> r) u
               (copyNodes_rho u)).
    apply rows_filled; [exact Hr|]. intros el Hel.
    destruct (Hrows el Hel) as (_ & H2 & _).
    rewrite fill_row by lia. rewrite drop_ge by lia. apply app_nil_r.
  - rewrite (copyLoop_rows b_v
               (fun el i r => <[3 * i + 2 := vget (row u 3) (el * elNumNodes M + i)]>
                                (<[3 * i + 1 := vget (row u 2) (el * elNumNodes M + i)]>
                                   (<[3 * i + 0 := vget (row u 1) (el * elNumNodes M + i)]> r)))
               u (copyNodes_v u)).
    apply rows_filled; [exact Hv|]. intros el Hel.
    destruct (Hrows el Hel) as (_ & _ & H3).
    rewrite fill_triples by lia. rewrite drop_ge by lia. apply app_nil_r.
Qed.

Lemma g_rows (G : nat -> list A) el :
  el < getElNum M -> row (map G (seq 0 (getElNum M))) el = G el.
Proof.
  intros Hel. unfold row. change (map G (seq 0 (getElNum M))) with (G <$> seq 0 (getElNum M)).
  rewrite list_lookup_fmap, lookup_seq_lt by exact Hel. reflexivity.
Qed.
End CopyLoops.

(** X3. The copy loops of a snapshot overwrite the three buffers in
    full: whatever the buffers held, after the loops they are the data
    the snapshot hands to gmsh, and for every element [el] and node [n]
    of it, with [elN = el*elNumNodes + n], [g_p[el][n]] is [u[0][elN]],
    [g_rho[el][n]] is [u[0][elN] / (c0*c0)], and [g_v[el]] holds the
    three velocity components of the node side by side, [u[1][elN]],
    [u[2][elN]], [u[3][elN]] at [3n], [3n+1], [3n+2]. *)
Theorem snapshot_buffers
  {A : Arith} {MS : Type} (M : Mesh A MS) (cfg : Config A)
  (u : list (list A)) (g : Buffers) :
  shaped M g ->
  let g' := copySolution M cfg u g in
  b_p g' = g_p M u /\ b_rho g' = g_rho M cfg u /\ b_v g' = g_v M u /\
  shaped M g' /\
  forall el n, el < getElNum M -> n < getElNumNodes M ->
    vget (row (b_p g') el) n = vget (row u 0) (el * elNumNodes M + n) /\
    vget (row (b_rho g') el) n =
      vget (row u 0) (el * elNumNodes M + n) ⊘ (c0 cfg ⊗ c0 cfg) /\
    vget (row (b_v g') el) (3 * n) = vget (row u 1) (el * elNumNodes M + n) /\
    vget (row (b_v g') el) (3 * n + 1) = vget (row u 2) (el * elNumNodes M + n) /\
    vget (row (b_v g') el) (3 * n + 2) = vget (row u 3) (el * elNumNodes M + n).
Proof.
  intros Hg g'. unfold g'. rewrite (copySolution_eq M cfg u g Hg).
  cbn [b_p b_rho b_v].
  split; [reflexivity|]. split; [reflexivity|]. split; [reflexivity|].
  split.
  - unfold shaped, g_p, g_rho, g_v. cbn [b_p b_rho b_v].
    rewrite !length_map, !length_seq. repeat split; try reflexivity.
    + rewrite g_rows by assumption. rewrite length_map, length_seq. reflexivity.
    + rewrite g_rows by assumption. rewrite length_map, length_seq. reflexivity.
    + rewrite g_rows by assumption. apply length_triples.
  - intros el n Hel Hn. unfold g_p, g_rho, g_v. rewrite !g_rows by assumption.
    destruct (lookup_triples
                (fun n => vget (row u 1) (el * elNumNodes M + n))
                (fun n => vget (row u 2) (el * elNumNodes M + n))
                (fun n => vget (row u 3) (el * elNumNodes M + n))
                (getElNumNodes M) n Hn) as (Ha & Hb & Hc).
    repeat split.
    + unfold vget at 1.
      change (map ?f ?l) with (f <$> l). rewrite list_lookup_fmap, lookup_seq_lt by exact Hn.
      reflexivity.
    + unfold vget at 1.
      change (map ?f ?l) with (f <$> l). rewrite list_lookup_fmap, lookup_seq_lt by exact Hn.
      reflexivity.
    + unfold vget at 1. rewrite Ha. reflexivity.
    + unfold vget at 1. rewrite Hb. reflexivity.
    + unfold vget at 1. rewrite Hc. reflexivity.
Qed.

(** ** Runs that do not end *)

Lemma timeAt_stalled {A : Arith} (cfg : Config A) (k : nat) :
  timeAt cfg (S k) = timeAt cfg k ->
  forall j, k <= j -> timeAt cfg j = timeAt cfg k.
Proof.
  intros Hs j Hj. induction Hj as [|j Hj IH]; [reflexivity|].
  rewrite timeAt_S, IH, <- timeAt_S. exact Hs.
Qed.

Lemma integrate_never {A : Arith} {MS : Type} (M : Mesh A MS) (cfg : Config A)
      (update : A -> Run -> Run) :
  (forall j, (timeAt cfg j <=. timeEnd cfg) = true) ->
  forall fuel u ms, integrate M cfg update fuel u ms = None.
Proof.
  intros H fuel u ms. unfold integrate.
  rewrite timeLoop_out_of_fuel; [reflexivity|]. intros j _. apply H.
Qed.

(** X4. The time loop has no exit but its test [t <= timeEnd]: when the
    test holds up to some iteration [k] and adding [timeStep] there
    leaves [t] as it is (a zero time step, or in binary64 a time step
    below half the spacing of the doubles at [t]), neither integrator
    returns, whatever the fuel. *)
Theorem time_loop_never_ends
  {A : Arith} (L : Libm A) {MS : Type} (M : Mesh A MS) (cfg : Config A) (k : nat) :
  (forall j, j <= k -> (timeAt cfg j <=. timeEnd cfg) = true) ->
  timeAt cfg (S k) = timeAt cfg k ->
  forall fuel u ms,
    forwardEuler L M cfg fuel u ms = None /\ rungeKutta L M cfg fuel u ms = None.
Proof.
  intros Hle Hs fuel u ms.
  assert (H : forall j, (timeAt cfg j <=. timeEnd cfg) = true).
  { intros j. destruct (decide (j <= k)) as [Hj|Hj]; [apply Hle; exact Hj|].
    rewrite (timeAt_stalled cfg k Hs j) by lia. apply Hle. lia. }
  unfold forwardEuler, rungeKutta. rewrite !integrate_never by exact H.
  split; reflexivity.
Qed.

(** X5. In exact arithmetic a time step that is zero or negative, with
    [timeStart <= timeEnd], keeps [t] at or below [timeEnd] for ever:
    neither integrator returns, whatever the fuel. *)
Theorem nonpositive_time_step_never_ends
  (L : Libm reals) {MS : Type} (M : Mesh reals MS) (cfg : Config reals) :
  (timeStep cfg <= 0)%R -> (timeStart cfg <= timeEnd cfg)%R ->
  forall fuel u ms,
    forwardEuler L M cfg fuel u ms = None /\ rungeKutta L M cfg fuel u ms = None.
Proof.
  intros Hdt Hle fuel u ms.
  assert (H : forall j, (timeAt cfg j <=. timeEnd cfg) = true).
  { intros j. apply fle_reals. rewrite timeAt_reals.
    assert (0 <= INR j)%R by apply pos_INR. nra. }
  unfold forwardEuler, rungeKutta. rewrite !integrate_never by exact H.
  split; reflexivity.
Qed.

(** ** The whole output of a run *)

Lemma flat_map_filter {X Y : Type} (p : X -> bool) (f : X -> list Y) (l : list X) :
  flat_map (fun x => if p x then f x else []) l = flat_map f (List.filter p l).
Proof.
  induction l as [|x l IH]; [reflexivity|]. simpl.
  destruct (p x); simpl; rewrite IH; reflexivity.
Qed.

Lemma flat_map_ext_seq {Y : Type} (f g : nat -> list Y) (a n : nat) :
  (forall k, a <= k < a + n -> f k = g k) ->
  flat_map f (seq a n) = flat_map g (seq a n).
Proof.
  revert a. induction n as [|n IH]; intros a H; [reflexivity|].
  simpl. rewrite H by lia. rewrite IH; [reflexivity|]. intros k Hk. apply H. lia.
Qed.

Section Output.
Context {A : Arith} (L : Libm A) {MS : Type} (M : Mesh A MS) (cfg : Config A).
Variable update : A -> Run (A:=A) (MS:=MS) -> Run (A:=A) (MS:=MS).
Hypothesis update_out : forall t s, r_out (update t s) = r_out s.

Lemma accAt_S j : accAt cfg (S j) = accAt cfg j ⊕ timeStep cfg.
Proof. reflexivity. Qed.

(** The output after [n] iterations, iteration by iteration. *)
Lemma runAfter_out n u ms :
  r_out (runAfter M cfg update n u ms) =
  flat_map (fun k => if snapshotDue cfg k (displayAt M cfg update k u ms)
                     then snapshot M cfg (timeAt cfg k) k
                                   (r_u (runAfter M cfg update k u ms))
                     else [])
           (seq 0 n).
Proof.
  induction n as [|n IH]; [reflexivity|].
  rewrite (runAfter_S_out M cfg update update_out), IH.
  rewrite seq_S, flat_map_app. simpl. rewrite app_nil_r. reflexivity.
Qed.

(** With the cadence [m], the display accumulator at the start of an
    iteration [k >= 1] is the sum of [j] time steps, with [j] in [1, m]
    congruent to [k] modulo [m]. *)
Lemma displayAt_cadence m u ms :
  cadence cfg m = true ->
  forall k, 1 <= k ->
    exists j, 1 <= j <= m /\ displayAt M cfg update k u ms = accAt cfg j /\
              k mod m = j mod m.
Proof.
  intros Hc. apply cadence_spec in Hc. destruct Hc as (Hm & Hbelow & Hat).
  induction k as [|k IH]; intros Hk; [lia|].
  rewrite (displayAt_S M cfg update).
  destruct k as [|k].
  - exists 1. unfold snapshotDue. simpl (0 =? 0). rewrite orb_true_r.
    repeat split; try lia.
  - destruct IH as (j & Hj & Hd & Hmod); [lia|].
    unfold snapshotDue. rewrite Hd.
    replace (S k =? 0) with false by reflexivity. rewrite orb_false_r.
    destruct (decide (j = m)) as [->|Hne].
    + rewrite Hat. exists 1. repeat split; try lia.
      rewrite <- (Nat.add_1_r (S k)), Nat.Div0.add_mod, Hmod, Nat.Div0.mod_same.
      simpl. rewrite Nat.Div0.mod_mod. reflexivity.
    + rewrite Hbelow by lia. exists (S j). repeat split; try lia.
      rewrite <- (Nat.add_1_r (S k)), <- (Nat.add_1_r j).
      rewrite Nat.Div0.add_mod, Hmod, <- Nat.Div0.add_mod. reflexivity.
Qed.

Lemma due_cadence m u ms k :
  cadence cfg m = true ->
  snapshotDue cfg k (displayAt M cfg update k u ms) = (k mod m =? 0).
Proof.
  intros Hc. destruct k as [|k].
  - unfold snapshotDue. simpl (0 =? 0). rewrite orb_true_r, Nat.Div0.mod_0_l. reflexivity.
  - destruct (displayAt_cadence m u ms Hc (S k)) as (j & Hj & Hd & Hmod); [lia|].
    apply cadence_spec in Hc. destruct Hc as (Hm & Hbelow & Hat).
    unfold snapshotDue. rewrite Hd.
    replace (S k =? 0) with false by reflexivity. rewrite orb_false_r.
    destruct (decide (j = m)) as [->|Hne].
    + rewrite Hat, Hmod, Nat.Div0.mod_same. reflexivity.
    + rewrite Hbelow by lia. rewrite Hmod, Nat.mod_small by lia.
      symmetry. apply Nat.eqb_neq. lia.
Qed.

Lemma runAfter_frames n m u ms :
  cadence cfg m = true ->
  r_out (runAfter M cfg update n u ms) =
  flat_map (fun k => snapshot M cfg (timeAt cfg k) k (r_u (runAfter M cfg update k u ms)))
           (List.filter (fun k => k mod m =? 0) (seq 0 n)).
Proof.
  intros Hc. rewrite runAfter_out, <- flat_map_filter.
  apply flat_map_ext_seq. intros k _. rewrite (due_cadence m u ms k Hc). reflexivity.
Qed.

(** When the accumulator stays below [timeRate] for the first [n] sums,
    no iteration from 1 to [n] makes a snapshot. *)
Lemma displayAt_below n u ms :
  (forall j, 1 <= j <= n -> (accAt cfg j >=. timeRate cfg) = false) ->
  forall k, 1 <= k <= S n -> displayAt M cfg update k u ms = accAt cfg k.
Proof.
  intros Hbelow. induction k as [|k IH]; intros Hk; [lia|].
  rewrite (displayAt_S M cfg update). destruct k as [|k].
  - unfold snapshotDue. simpl (0 =? 0). rewrite orb_true_r. reflexivity.
  - rewrite IH by lia. unfold snapshotDue. rewrite Hbelow by lia.
    replace (S k =? 0) with false by reflexivity. reflexivity.
Qed.

Lemma runAfter_single n u ms :
  (forall j, 1 <= j <= n -> (accAt cfg j >=. timeRate cfg) = false) ->
  r_out (runAfter M cfg update (S n) u ms) = snapshot M cfg (timeStart cfg) 0 u.
Proof.
  intros Hbelow. rewrite runAfter_out.
  change (seq 0 (S n)) with (0 :: seq 1 n). cbn [flat_map].
  unfold snapshotDue at 1. simpl (0 =? 0). rewrite orb_true_r.
  rewrite (flat_map_ext_seq _ (fun _ => []) 1 n).
  - assert (E : forall l : list nat, flat_map (fun _ : nat => @nil (GmshCall A)) l = []).
    { induction l as [|x l IHl]; [reflexivity|exact IHl]. }
    rewrite E, app_nil_r. reflexivity.
  - intros k Hk. rewrite (displayAt_below n u ms Hbelow) by lia.
    unfold snapshotDue. rewrite Hbelow by lia.
    destruct k; [lia|reflexivity].
Qed.
End Output.

(** X6. The whole output of a run.  With [n] the number of iterations
    and [m] the cadence of the snapshots, either integrator emits, for
    each step [k = 0, m, 2m, ...] below [n] in turn, the pressure, the
    density and the velocity data of the solution as [k] iterations have
    left it (before the source injection of iteration [k]), each with the
    step [k] and the time [t_k], then the log line; and after the loop
    the three [gmsh::view::write] calls for the pressure, density and
    velocity views, and nothing else.  The solution after [k+1]
    iterations is the update at time [t_k] of the one after [k]. *)
Theorem run_output
  {A : Arith} (L : Libm A) {MS : Type} (M : Mesh A MS) (cfg : Config A)
  (u : list (list A)) (ms : MS) (n m fuel : nat) :
  let writes := [ viewWrite Pressure (saveFile cfg); viewWrite Density (saveFile cfg);
                  viewWrite Velocity (saveFile cfg) ] in
  let frames := fun update =>
    flat_map (fun k => [ addModelData Pressure k (elTags M)
                           (g_p M (r_u (runAfter M cfg update k u ms))) (timeAt cfg k) 1;
                         addModelData Density k (elTags M)
                           (g_rho M cfg (r_u (runAfter M cfg update k u ms))) (timeAt cfg k) 1;
                         addModelData Velocity k (elTags M)
                           (g_v M (r_u (runAfter M cfg update k u ms))) (timeAt cfg k) 3;
                         loggerWrite (timeAt cfg k) k ])
             (List.filter (fun k => k mod m =? 0) (seq 0 n)) in
  stopsAt cfg n = true -> cadence cfg m = true -> n <= fuel ->
  option_map (fun r => r_out (snd r)) (forwardEuler L M cfg fuel u ms) =
    Some (frames (eulerUpdate L M cfg) ++ writes) /\
  option_map (fun r => r_out (snd r)) (rungeKutta L M cfg fuel u ms) =
    Some (frames (rkUpdate L M cfg) ++ writes) /\
  r_u (runAfter M cfg (eulerUpdate L M cfg) 0 u ms) = u /\
  r_u (runAfter M cfg (rkUpdate L M cfg) 0 u ms) = u /\
  forall k,
    r_u (runAfter M cfg (eulerUpdate L M cfg) (S k) u ms) =
      r_u (eulerUpdate L M cfg (timeAt cfg k) (runAfter M cfg (eulerUpdate L M cfg) k u ms)) /\
    r_u (runAfter M cfg (rkUpdate L M cfg) (S k) u ms) =
      r_u (rkUpdate L M cfg (timeAt cfg k) (runAfter M cfg (rkUpdate L M cfg) k u ms)).
Proof.
  intros writes frames Hs Hc Hf. unfold forwardEuler, rungeKutta.
  rewrite !(integrate_exact M cfg _ n fuel u ms Hs Hf). simpl option_map.
  unfold finalRun. cbn [r_out snd].
  rewrite (runAfter_frames M cfg _ (eulerUpdate_out L M cfg) n m u ms Hc).
  rewrite (runAfter_frames M cfg _ (rkUpdate_out L M cfg) n m u ms Hc).
  split; [reflexivity|]. split; [reflexivity|].
  split; [reflexivity|]. split; [reflexivity|].
  intros k. split.
  - apply runAfter_S_u. apply eulerUpdate_frame.
  - apply runAfter_S_u. apply rkUpdate_frame.
Qed.

(** X7. A snapshot rate the run never reaches (the sums of [timeStep]
    stay below [timeRate] for as many iterations as the run makes; or
    [timeRate] is a NaN, against which the test [tDisplay >= timeRate]
    always fails): the run exports the initial solution, at step 0 with
    the time [timeStart], and nothing after it but the final writes. *)
Theorem unreached_rate_single_snapshot
  {A : Arith} (L : Libm A) {MS : Type} (M : Mesh A MS) (cfg : Config A)
  (u : list (list A)) (ms : MS) (n fuel : nat) :
  let out := [ addModelData Pressure 0 (elTags M) (g_p M u) (timeStart cfg) 1;
               addModelData Density 0 (elTags M) (g_rho M cfg u) (timeStart cfg) 1;
               addModelData Velocity 0 (elTags M) (g_v M u) (timeStart cfg) 3;
               loggerWrite (timeStart cfg) 0;
               viewWrite Pressure (saveFile cfg); viewWrite Density (saveFile cfg);
               viewWrite Velocity (saveFile cfg) ] in
  stopsAt cfg (S n) = true -> S n <= fuel ->
  (forall j, 1 <= j <= n -> (accAt cfg j >=. timeRate cfg) = false) ->
  option_map (fun r => r_out (snd r)) (forwardEuler L M cfg fuel u ms) = Some out /\
  option_map (fun r => r_out (snd r)) (rungeKutta L M cfg fuel u ms) = Some out.
Proof.
  intros out Hs Hf Hbelow. unfold forwardEuler, rungeKutta.
  rewrite !(integrate_exact M cfg _ (S n) fuel u ms Hs Hf). simpl option_map.
  unfold finalRun. cbn [r_out snd].
  rewrite (runAfter_single M cfg _ (eulerUpdate_out L M cfg) n u ms Hbelow).
  rewrite (runAfter_single M cfg _ (rkUpdate_out L M cfg) n u ms Hbelow).
  split; reflexivity.
Qed.

(** ** Shape of the solution, source radius, density *)

Section Shape.
Context {A : Arith} (L : Libm A) {MS : Type} (M : Mesh A MS) (cfg : Config A).

Lemma eulerUpdate_sized t s : sized M (r_u s) -> sized M (r_u (eulerUpdate L M cfg t s)).
Proof.
  intros Hs. rewrite eulerUpdate_u. apply fluxStep_sized, updateSource_sized, Hs.
Qed.

Lemma rkUpdate_sized t s : sized M (r_u s) -> sized M (r_u (rkUpdate L M cfg t s)).
Proof.
  intros Hs. destruct (updateSource_sized L M cfg t _ Hs) as [H4 Hrows].
  unfold rkUpdate. cbn [r_u]. split.
  - rewrite rkConcat_length. exact H4.
  - intros eq Heq. rewrite rkConcat_row by lia. rewrite updLoop_length.
    apply Hrows. exact Heq.
Qed.

Lemma runAfter_sized update n u ms :
  (forall t s, sized M (r_u s) -> sized M (r_u (update t s))) ->
  sized M u -> sized M (r_u (runAfter M cfg update n u ms)).
Proof.
  intros Hupd Hu. unfold runAfter.
  apply (iterate_u_inv M cfg (sized M) update Hupd). exact Hu.
Qed.
End Shape.

(** X8. Neither integrator changes the shape of the solution: started
    on four equations of [numNodes] entries each, a run that ends after
    [n] iterations returns four equations of [numNodes] entries each,
    and so is the solution after any number of iterations on the way. *)
Theorem run_keeps_shape
  {A : Arith} (L : Libm A) {MS : Type} (M : Mesh A MS) (cfg : Config A)
  (u : list (list A)) (ms : MS) (n fuel : nat) :
  sized M u -> stopsAt cfg n = true -> n <= fuel ->
  (exists r, forwardEuler L M cfg fuel u ms = Some (n, r) /\ sized M (r_u r)) /\
  (exists r, rungeKutta L M cfg fuel u ms = Some (n, r) /\ sized M (r_u r)) /\
  forall k, sized M (r_u (runAfter M cfg (eulerUpdate L M cfg) k u ms)) /\
            sized M (r_u (runAfter M cfg (rkUpdate L M cfg) k u ms)).
Proof.
  intros Hu Hs Hf. unfold forwardEuler, rungeKutta.
  rewrite !(integrate_exact M cfg _ n fuel u ms Hs Hf).
  split; [|split].
  - eexists. split; [reflexivity|]. unfold finalRun. cbn [r_u].
    apply runAfter_sized; [apply eulerUpdate_sized|exact Hu].
  - eexists. split; [reflexivity|]. unfold finalRun. cbn [r_u].
    apply runAfter_sized; [apply rkUpdate_sized|exact Hu].
  - intros k. split; apply runAfter_sized;
      [apply eulerUpdate_sized|exact Hu|apply rkUpdate_sized|exact Hu].
Qed.

Section Radius.
Context {MS : Type} (M : Mesh reals MS).
Open Scope R_scope.

Lemma dist2_nonneg (src : list reals) n : 0 <= dist2 libm_reals M src n.
Proof.
  unfold dist2. cbn [pow libm_reals f2 reals fadd fsub]. rewrite !Rpow_2.
  set (x := _ - _). set (y := _ - _). set (z := _ - _). nra.
Qed.

Lemma indice_ext (src src' : list reals) :
  (forall n, inSource libm_reals M src' n = inSource libm_reals M src n) ->
  indice libm_reals M src' = indice libm_reals M src.
Proof.
  intros H. rewrite !indice_filter. apply filter_ext. exact H.
Qed.
End Radius.

(** X9. The radius of a source enters the membership test through its
    square alone (exact arithmetic): two sources with the same centre
    and radii of equal absolute value have the same node set, so a
    negative radius is not rejected and selects what its absolute value
    does; and a source of radius zero selects no node, since no squared
    distance is below zero. *)
Theorem source_radius_squared
  {MS : Type} (M : Mesh reals MS) (src src' : list reals) :
  vget src' 1 = vget src 1 -> vget src' 2 = vget src 2 -> vget src' 3 = vget src 3 ->
  (Rabs (vget src' 4) = Rabs (vget src 4) ->
   indice libm_reals M src' = indice libm_reals M src) /\
  (vget src 4 = 0%R -> indice libm_reals M src = []).
Proof.
  intros H1 H2 H3. split.
  - intros Hr. apply indice_ext. intros n. unfold inSource, dist2, radius2.
    rewrite H1, H2, H3. cbn [pow libm_reals f2 reals]. rewrite !Rpow_2.
    replace (vget src' 4 * vget src' 4)%R with (vget src 4 * vget src 4)%R; [reflexivity|].
    assert (E : forall x : R, (x * x = Rabs x * Rabs x)%R).
    { intros x. unfold Rabs. destruct (Rcase_abs x); lra. }
    rewrite (E (vget src 4)), (E (vget src' 4)), Hr. reflexivity.
  - intros Hr. rewrite indice_filter.
    assert (E : forall l, List.filter (inSource libm_reals M src) l = []).
    { induction l as [|n l IH]; [reflexivity|]. cbn [List.filter].
      replace (inSource libm_reals M src n) with false; [exact IH|].
      symmetry. unfold inSource. apply flt_reals_false.
      unfold radius2. cbn [pow libm_reals f2 reals]. rewrite Rpow_2, Hr.
      assert (H0 := dist2_nonneg M src n). lra. }
    apply E.
Qed.

Section Density.
Context {MS : Type} (M : Mesh binary64 MS) (cfg : Config binary64).

Lemma div_by_zero (x d : float) :
  d = 0%float \/ d = (-0)%float ->
  PrimFloat.is_nan (x / d) || PrimFloat.is_infinity (x / d) = true.
Proof.
  intros Hd. rewrite <- (SF2Prim_Prim2SF (x / d)), FloatAxioms.div_spec.
  destruct Hd as [-> | ->].
  - change (Prim2SF 0) with (S754_zero false).
    destruct (Prim2SF x) as [s| s | | s m e]; try destruct s; reflexivity.
  - change (Prim2SF (-0)) with (S754_zero true).
    destruct (Prim2SF x) as [s| s | | s m e]; try destruct s; reflexivity.
Qed.

Lemma zero_by_zero (x d : float) :
  x = 0%float \/ x = (-0)%float -> d = 0%float \/ d = (-0)%float ->
  PrimFloat.is_nan (x / d) = true.
Proof. intros [-> | ->] [-> | ->]; reflexivity. Qed.
End Density.

(** X10. The density of a snapshot is the pressure divided by [c0*c0],
    with no test on the divisor.  In binary64, when [c0*c0] compares
    equal to zero ([c0] zero, or so small that its square underflows),
    every entry of the density data is an infinity or a NaN, whatever
    the solution; and it is a NaN where the pressure is zero. *)
Theorem density_without_sound_speed
  {MS : Type} (M : Mesh binary64 MS) (cfg : Config binary64)
  (u : list (list binary64)) (el n : nat) :
  (c0 cfg ⊗ c0 cfg ==. 0%float) = true ->
  el < getElNum M -> n < getElNumNodes M ->
  let rho := vget (row (g_rho M cfg u) el) n in
  PrimFloat.is_nan rho || PrimFloat.is_infinity rho = true /\
  (isZero (vget (row u 0) (el * elNumNodes M + n)) = true -> PrimFloat.is_nan rho = true).
Proof.
  intros Hc Hel Hn rho.
  assert (Hd := binary64_isZero (c0 cfg ⊗ c0 cfg) Hc).
  assert (E : rho = (vget (row u 0) (el * elNumNodes M + n) / (c0 cfg * c0 cfg))%float).
  { unfold rho, g_rho. rewrite g_rows by exact Hel. unfold vget at 1.
    change (map ?f ?l) with (f <$> l). rewrite list_lookup_fmap, lookup_seq_lt by exact Hn.
    reflexivity. }
  rewrite E. split.
  - apply div_by_zero. exact Hd.
  - intros Hz. apply zero_by_zero; [|exact Hd]. apply binary64_isZero. exact Hz.
Qed.

(** ** Output settings *)

Section OutputSettings.
Context {A : Arith} (L : Libm A) {MS : Type} (M : Mesh A MS) (cfg : Config A).
Variables (rate : A) (file : string).

Variable update : A -> Run (A:=A) (MS:=MS) -> Run (A:=A) (MS:=MS).
Hypothesis update_same : forall t s s', sameState s s' -> sameState (update t s) (update t s').

Lemma iteration_same t step tD tD' s s' :
  sameState s s' ->
  sameState (snd (iteration M cfg update t step tD s))
            (snd (iteration M (withOutput cfg rate file) update t step tD' s')).
Proof.
  intros Hs. unfold iteration.
  destruct (snapshotDue cfg step tD), (snapshotDue _ step tD');
    cbn [snd]; apply update_same; exact Hs.
Qed.

Lemma timeLoop_same fuel : forall t step tD tD' s s',
  sameState s s' ->
  computed (timeLoop M cfg update fuel t step tD s) =
  computed (timeLoop M (withOutput cfg rate file) update fuel t step tD' s').
Proof.
  induction fuel as [|fuel IH]; intros t step tD tD' s s' Hs.
  - simpl. destruct (t <=. timeEnd cfg); [reflexivity|].
    destruct Hs as (Hm & Hu & HF). simpl. rewrite Hm, Hu, HF. reflexivity.
  - destruct (t <=. timeEnd cfg) eqn:Et.
    + rewrite !timeLoop_step by exact Et. apply IH. apply iteration_same. exact Hs.
    + rewrite !timeLoop_stop by exact Et.
      destruct Hs as (Hm & Hu & HF). simpl. rewrite Hm, Hu, HF. reflexivity.
Qed.

Lemma integrate_same fuel u ms :
  computed (integrate M cfg update fuel u ms) =
  computed (integrate M (withOutput cfg rate file) update fuel u ms).
Proof.
  unfold integrate.
  assert (H := timeLoop_same fuel (timeStart cfg) 0 (f0 A) (f0 A)
                 {| r_mesh := precomputeMassMatrix M ms; r_u := u;
                    r_Flux := replicate 4 (replicate (getNumNodes M) (replicate 3 (f0 A)));
                    r_out := [] |}
                 {| r_mesh := precomputeMassMatrix M ms; r_u := u;
                    r_Flux := replicate 4 (replicate (getNumNodes M) (replicate 3 (f0 A)));
                    r_out := [] |}
                 (conj eq_refl (conj eq_refl eq_refl))).
  change (timeStart (withOutput cfg rate file)) with (timeStart cfg).
  destruct (timeLoop M cfg update fuel _ _ _ _) as [[n s]|];
    destruct (timeLoop M (withOutput cfg rate file) update fuel _ _ _ _) as [[n' s']|];
    simpl in *; congruence.
Qed.
End OutputSettings.

Lemma eulerUpdate_same {A : Arith} (L : Libm A) {MS : Type} (M : Mesh A MS)
      (cfg : Config A) t (s s' : Run) :
  r_mesh s = r_mesh s' /\ r_u s = r_u s' /\ r_Flux s = r_Flux s' ->
  r_mesh (eulerUpdate L M cfg t s) = r_mesh (eulerUpdate L M cfg t s') /\
  r_u (eulerUpdate L M cfg t s) = r_u (eulerUpdate L M cfg t s') /\
  r_Flux (eulerUpdate L M cfg t s) = r_Flux (eulerUpdate L M cfg t s').
Proof.
  intros (Hm & Hu & HF). unfold eulerUpdate. rewrite Hm, Hu, HF.
  destruct (fluxStep M cfg (r_mesh s') (updateSource L M cfg t (r_u s')) (r_Flux s') (f1 A))
    as [[m u] F].
  repeat split.
Qed.

Lemma rkUpdate_same {A : Arith} (L : Libm A) {MS : Type} (M : Mesh A MS)
      (cfg : Config A) t (s s' : Run) :
  r_mesh s = r_mesh s' /\ r_u s = r_u s' /\ r_Flux s = r_Flux s' ->
  r_mesh (rkUpdate L M cfg t s) = r_mesh (rkUpdate L M cfg t s') /\
  r_u (rkUpdate L M cfg t s) = r_u (rkUpdate L M cfg t s') /\
  r_Flux (rkUpdate L M cfg t s) = r_Flux (rkUpdate L M cfg t s').
Proof.
  intros (Hm & Hu & HF). unfold rkUpdate. cbn [r_mesh r_u r_Flux].
  rewrite Hm, Hu, HF. repeat split.
Qed.

(** X11. What a run computes does not depend on its output settings:
    with another snapshot rate and output file, either integrator makes
    the same number of iterations and ends with the same mesh state,
    solution and flux (and runs out of fuel on the same fuel).  The snapshots read the solution and never write it, and the
    loop test does not read the display accumulator. *)
Theorem output_settings_leave_solution
  {A : Arith} (L : Libm A) {MS : Type} (M : Mesh A MS) (cfg : Config A)
  (rate : A) (file : string) (fuel : nat)
  (u : list (list A)) (ms : MS) :
  computed (forwardEuler L M (withOutput cfg rate file) fuel u ms) =
  computed (forwardEuler L M cfg fuel u ms) /\
  computed (rungeKutta L M (withOutput cfg rate file) fuel u ms) =
  computed (rungeKutta L M cfg fuel u ms).
Proof.
  unfold forwardEuler, rungeKutta. split; symmetry.
  - change (eulerUpdate L M (withOutput cfg rate file))
      with (eulerUpdate L M cfg).
    apply integrate_same. intros t s s'. apply eulerUpdate_same.
  - change (rkUpdate L M (withOutput cfg rate file))
      with (rkUpdate L M cfg).
    apply integrate_same. intros t s s'. apply rkUpdate_same.
Qed.

(** ** The further properties at concrete inputs *)

(** The stiffness vector of [toyMesh] reads the two nodes of its
    element. *)
Lemma toyMesh_local (A : Arith) : localStiff (toyMesh A).
Proof.
  intros ms el Fq v w H.
  assert (H0 := H 0 ltac:(unfold elNumNodes; simpl; lia)).
  assert (H1 := H 1 ltac:(unfold elNumNodes; simpl; lia)).
  unfold elNumNodes in H0, H1. simpl getElNumNodes in H0, H1.
  rewrite Nat.add_0_r in H0.
  simpl getElStiffVector. unfold vget. rewrite H0, H1. reflexivity.
Qed.

Lemma u64_sized : sized (toyMesh binary64) u64.
Proof.
  split; [reflexivity|]. intros eq Heq.
  destruct eq as [|[|[|[|eq]]]]; try reflexivity. lia.
Qed.

Lemma toyCfg_stopsAt : stopsAt toyCfg 5 = true.
Proof.
  apply (stopsAt_reals toyCfg 4); simpl; lra.
Qed.

Lemma toyCfg_cadence : cadence toyCfg 2 = true.
Proof.
  apply (cadence_reals toyCfg 2); simpl; try lia; lra.
Qed.

(** X1 on [toyMesh] in binary64, the two elements taken in the order
    1, 0. *)
Lemma element_loop_any_order_witness :
  elementLoop (toyMesh binary64) toyCfg64 1 [] 1%float [1; 0] [1; 2; 3; 4]%float =
  forLoop 2 (elementStep (toyMesh binary64) toyCfg64 1 [] 1%float) [1; 2; 3; 4]%float.
Proof.
  exact (proj1 (element_loop_any_order (toyMesh binary64) toyCfg64 1 [] 1%float
                  [1; 0] [1; 2; 3; 4]%float (toyMesh_local binary64)
                  (perm_swap 0 1 []))).
Defined.

(** X2 on [toyMesh] in exact arithmetic, at equation 0, node 1, time 0. *)
Lemma euler_step_is_first_stage_witness :
  let M := toyMesh reals in
  let u := updateSource libm_reals M toyCfg 0%R (r_u runR) in
  let st := rkStages M toyCfg (r_mesh runR) u (r_Flux runR) in
  r_mesh (eulerUpdate libm_reals M toyCfg 0%R runR) = rk_m1 st /\
  r_Flux (eulerUpdate libm_reals M toyCfg 0%R runR) = rk_F1 st /\
  vget (row (r_u (eulerUpdate libm_reals M toyCfg 0%R runR)) 0) 1 =
    vget (row (rk_k1 st) 0) 1 ⊕ vget (row u 0) 1.
Proof.
  exact (euler_step_is_first_stage libm_reals (toyMesh reals) toyCfg 0%R runR 0 1
           reals_ExactArith (toyMesh_local reals) toyMesh_sized uR_sized
           ltac:(lia) ltac:(unfold numNodes; simpl; lia)).
Defined.

Lemma allocBuffers_shaped {A : Arith} {MS : Type} (M : Mesh A MS) :
  shaped M (allocBuffers M).
Proof.
  unfold shaped, allocBuffers. cbn [b_p b_rho b_v].
  rewrite !length_replicate. repeat split; try reflexivity.
  - unfold row. rewrite lookup_replicate_2 by assumption. apply length_replicate.
  - unfold row. rewrite lookup_replicate_2 by assumption. apply length_replicate.
  - unfold row. rewrite lookup_replicate_2 by assumption. apply length_replicate.
Qed.

(** X3 on [toyMesh] in binary64: the buffers as allocated, filled from
    [u64]. *)
Lemma snapshot_buffers_witness :
  b_p (copySolution (toyMesh binary64) toyCfg64 u64 (allocBuffers (toyMesh binary64))) =
    [[1; 2]; [3; 4]]%float /\
  b_v (copySolution (toyMesh binary64) toyCfg64 u64 (allocBuffers (toyMesh binary64))) =
    [[0; 1; 0; 0; 1; 1]; [0; 1; 0; 0; 1; 1]]%float.
Proof.
  destruct (snapshot_buffers (toyMesh binary64) toyCfg64 u64
              (allocBuffers (toyMesh binary64)) (allocBuffers_shaped _))
    as (Hp & _ & Hv & _).
  split; [rewrite Hp|rewrite Hv]; reflexivity.
Defined.

(** X4 on [stallCfg]: the clock reaches 1 after one step and stays
    there. *)
Lemma time_loop_never_ends_witness :
  timeAt stallCfg 1 = 1%float /\ timeAt stallCfg 2 = 1%float /\
  forall L : Libm binary64,
    forwardEuler L (restMesh binary64 1 1 (fun _ => [])) stallCfg 1000
                 (zeroU binary64 1) tt = None /\
    rungeKutta L (restMesh binary64 1 1 (fun _ => [])) stallCfg 1000
               (zeroU binary64 1) tt = None.
Proof.
  split; [reflexivity|]. split; [reflexivity|]. intros L.
  apply (time_loop_never_ends L _ stallCfg 1).
  - intros j Hj. destruct j as [|[|j]]; [reflexivity|reflexivity|lia].
  - reflexivity.
Defined.

(** X5 with the time step 0 over [0, 1]. *)
Lemma nonpositive_time_step_never_ends_witness :
  forwardEuler libm_reals (toyMesh reals) (cfgR 1 0 (1 / 2) [unitSource]) 1000 uR 0 = None /\
  rungeKutta libm_reals (toyMesh reals) (cfgR 1 0 (1 / 2) [unitSource]) 1000 uR 0 = None.
Proof.
  apply (nonpositive_time_step_never_ends libm_reals (toyMesh reals)
           (cfgR 1 0 (1 / 2) [unitSource])); simpl; lra.
Defined.

(** X6 on [toyMesh] with [toyCfg]: 5 iterations, snapshots at the steps
    0, 2 and 4. *)
Lemma run_output_witness :
  List.filter (fun k => k mod 2 =? 0) (seq 0 5) = [0; 2; 4] /\
  option_map (fun r => length (r_out (snd r)))
             (forwardEuler libm_reals (toyMesh reals) toyCfg 5 uR 0) = Some 15 /\
  option_map (fun r => length (r_out (snd r)))
             (rungeKutta libm_reals (toyMesh reals) toyCfg 5 uR 0) = Some 15.
Proof.
  destruct (run_output libm_reals (toyMesh reals) toyCfg uR 0 5 2 5
              toyCfg_stopsAt toyCfg_cadence (Nat.le_refl 5)) as (He & Hr & _).
  split; [reflexivity|].
  destruct (forwardEuler libm_reals (toyMesh reals) toyCfg 5 uR 0) as [[n r]|];
    [|discriminate].
  destruct (rungeKutta libm_reals (toyMesh reals) toyCfg 5 uR 0) as [[n' r']|];
    [|discriminate].
  simpl in He, Hr. injection He as He. injection Hr as Hr.
  simpl. rewrite He, Hr. split; reflexivity.
Defined.

(** X7 on [toyMesh] over [0, 1] with the time step 1/4 and a snapshot
    rate of 10. *)
Lemma unreached_rate_single_snapshot_witness :
  option_map (fun r => length (r_out (snd r)))
             (forwardEuler libm_reals (toyMesh reals) (cfgR 1 (1 / 4) 10 [unitSource])
                           5 uR 0) = Some 7 /\
  option_map (fun r => length (r_out (snd r)))
             (rungeKutta libm_reals (toyMesh reals) (cfgR 1 (1 / 4) 10 [unitSource])
                         5 uR 0) = Some 7.
Proof.
  assert (Hs : stopsAt (cfgR 1 (1 / 4) 10 [unitSource]) 5 = true).
  { apply (stopsAt_reals _ 4); simpl; lra. }
  assert (Hb : forall j, 1 <= j <= 4 ->
            (fle reals (timeRate (cfgR 1 (1 / 4) 10 [unitSource]))
                 (accAt (cfgR 1 (1 / 4) 10 [unitSource]) j)) = false).
  { intros j Hj. apply fle_reals_false. rewrite accAt_reals.
    assert (H := le_INR j 4 ltac:(lia)). simpl in H. simpl. lra. }
  destruct (unreached_rate_single_snapshot libm_reals (toyMesh reals)
              (cfgR 1 (1 / 4) 10 [unitSource]) uR 0 4 5 Hs (Nat.le_refl 5) Hb)
    as (He & Hr).
  destruct (forwardEuler libm_reals (toyMesh reals) _ 5 uR 0) as [[n r]|];
    [|discriminate].
  destruct (rungeKutta libm_reals (toyMesh reals) _ 5 uR 0) as [[n' r']|];
    [|discriminate].
  simpl in He, Hr. injection He as He. injection Hr as Hr.
  simpl. rewrite He, Hr. split; reflexivity.
Defined.

(** The same in binary64 with a NaN for the snapshot rate. *)
Example nan_rate_binary64 (L : Libm binary64) :
  option_map (fun r => snapshotSteps (r_out (snd r)))
    (forwardEuler L (restMesh binary64 1 1 (fun _ => [])) (cfg64 1 0.25 nan)
                  100 (zeroU binary64 1) tt) = Some [0].
Proof. vm_compute. reflexivity. Qed.

(** X8 on [toyMesh] with [toyCfg]. *)
Lemma run_keeps_shape_witness :
  sized (toyMesh reals)
        (r_u (runAfter (toyMesh reals) toyCfg
                       (eulerUpdate libm_reals (toyMesh reals) toyCfg) 5 uR 0)) /\
  sized (toyMesh reals)
        (r_u (runAfter (toyMesh reals) toyCfg
                       (rkUpdate libm_reals (toyMesh reals) toyCfg) 5 uR 0)).
Proof.
  exact (proj2 (proj2 (run_keeps_shape libm_reals (toyMesh reals) toyCfg uR 0 5 5
                         uR_sized toyCfg_stopsAt (Nat.le_refl 5))) 5).
Defined.

(** X9: the unit source and its mirror image of radius -1 on
    [toyMesh]. *)
Lemma source_radius_squared_witness :
  indice libm_reals (toyMesh reals) mirrorSource =
  indice libm_reals (toyMesh reals) unitSource.
Proof.
  apply (proj1 (source_radius_squared (toyMesh reals) unitSource mirrorSource
                  eq_refl eq_refl eq_refl)).
  unfold vget, mirrorSource, unitSource. simpl.
  unfold Rabs. repeat destruct Rcase_abs; lra.
Defined.

(** X10 on [toyMesh] with [slowCfg], whose [c0 = 2^-600] has a square
    that underflows: the density of the pressure 1 at node 0. *)
Lemma density_without_sound_speed_witness :
  (c0 slowCfg * c0 slowCfg)%float = 0%float /\
  vget (row (g_rho (toyMesh binary64) slowCfg u64) 0) 0 = infinity /\
  PrimFloat.is_nan (vget (row (g_rho (toyMesh binary64) slowCfg u64) 0) 0)
  || PrimFloat.is_infinity (vget (row (g_rho (toyMesh binary64) slowCfg u64) 0) 0) = true.
Proof.
  split; [reflexivity|]. split; [reflexivity|].
  exact (proj1 (density_without_sound_speed (toyMesh binary64) slowCfg u64 0 0
                  eq_refl ltac:(simpl; lia) ltac:(simpl; lia))).
Defined.

(** ** Degenerate meshes *)

Section EmptyMesh.
Context {A : Arith} (L : Libm A) {MS : Type} (M : Mesh A MS) (cfg : Config A).
Hypothesis Hel : getElNum M = 0.
Hypothesis Hnodes : getNumNodes M = 0.

Lemma empty_numStep beta ms (u : list (list A)) Flux :
  snd (fst (numStep M cfg ms u Flux beta)) = u.
Proof.
  unfold numStep.
  apply (forLoop_inv (fun _ (s : MS * list (list A) * list (list (list A))) =>
                        snd (fst s) = u)); [reflexivity|].
  intros eq s _ Hs. rewrite equationStep_u, Hs, Hel, forLoop_0.
  apply insert_row_id.
Qed.

Lemma empty_fluxStep beta ms (u : list (list A)) Flux :
  snd (fst (fluxStep M cfg ms u Flux beta)) = u.
Proof. rewrite fluxStep_numStep. apply empty_numStep. Qed.

Lemma empty_indice src : indice L M src = [].
Proof. unfold indice, numNodes. rewrite Hnodes. reflexivity. Qed.

Lemma empty_updateSource t (u : list (list A)) : updateSource L M cfg t u = u.
Proof.
  unfold updateSource.
  apply (forLoop_inv (fun _ w => w = u)); [reflexivity|].
  intros src w Hsrc ->.
  destruct (active cfg t src) eqn:Ha.
  - rewrite injectSource_active by exact Ha.
    rewrite row_srcIndices by exact Hsrc. rewrite empty_indice.
    apply insert_row_id.
  - apply injectSource_inactive. exact Ha.
Qed.

Lemma empty_plusTimesAll usize (kd ks : list (list A)) c :
  plusTimesAll M usize kd ks c = kd.
Proof.
  rewrite plusTimesAll_updLoop. apply updLoop_id. intros eq r _.
  unfold numNodes. rewrite Hnodes. reflexivity.
Qed.

Lemma empty_rkConcat (u k1 k2 k3 k4 : list (list A)) : rkConcat M u k1 k2 k3 k4 = u.
Proof.
  rewrite rkConcat_updLoop. apply updLoop_id. intros eq r _.
  unfold numNodes. rewrite Hnodes. reflexivity.
Qed.

Lemma empty_eulerUpdate t s : r_u (eulerUpdate L M cfg t s) = r_u s.
Proof. rewrite eulerUpdate_u, empty_fluxStep. apply empty_updateSource. Qed.

Lemma empty_rkUpdate t s : r_u (rkUpdate L M cfg t s) = r_u s.
Proof. unfold rkUpdate. cbn [r_u]. rewrite empty_rkConcat. apply empty_updateSource. Qed.

Lemma empty_runAfter update n u ms :
  (forall t s, r_u (update t s) = r_u s) ->
  r_u (runAfter M cfg update n u ms) = u.
Proof.
  intros Hupd. unfold runAfter.
  apply (iterate_u_inv M cfg (fun w => w = u) update).
  - intros t s Hs. rewrite Hupd. exact Hs.
  - reflexivity.
Qed.
End EmptyMesh.

(** X12. A mesh without elements or nodes: [numStep] leaves the solution
    as it is, no source has a node to write, and a run of either
    integrator returns the solution it was given; every snapshot it
    writes on the way carries empty data. *)
Theorem empty_mesh_run
  {A : Arith} (L : Libm A) {MS : Type} (M : Mesh A MS) (cfg : Config A)
  (u : list (list A)) (ms : MS) (n fuel : nat) :
  getElNum M = 0 -> getNumNodes M = 0 ->
  stopsAt cfg n = true -> n <= fuel ->
  (forall beta ms' Flux, snd (fst (numStep M cfg ms' u Flux beta)) = u) /\
  (forall t, updateSource L M cfg t u = u) /\
  (exists r, forwardEuler L M cfg fuel u ms = Some (n, r) /\ r_u r = u /\
             forall step t data, (step, t, data) ∈ pressureSnapshots (r_out r) -> data = []) /\
  (exists r, rungeKutta L M cfg fuel u ms = Some (n, r) /\ r_u r = u /\
             forall step t data, (step, t, data) ∈ pressureSnapshots (r_out r) -> data = []).
Proof.
  intros Hel Hnodes Hs Hf.
  split; [intros beta ms' Flux; apply empty_numStep; exact Hel|].
  split; [intros t; apply empty_updateSource; exact Hnodes|].
  unfold forwardEuler, rungeKutta.
  rewrite !(integrate_exact M cfg _ n fuel u ms Hs Hf).
  assert (Hdata : forall update,
            (forall t s, r_out (update t s) = r_out s) ->
            forall step t data,
              (step, t, data) ∈ pressureSnapshots (r_out (finalRun M cfg update n u ms)) ->
              data = []).
  { intros update Hout step t data Hin. unfold finalRun in Hin. cbn [r_out] in Hin.
    rewrite pressureSnapshots_app in Hin. apply elem_of_app in Hin.
    destruct Hin as [Hin|Hin].
    - apply (runAfter_snapshots M cfg update Hout) in Hin.
      destruct Hin as (_ & _ & ->). unfold g_p. rewrite Hel. reflexivity.
    - simpl in Hin. apply elem_of_nil in Hin. contradiction. }
  split.
  - eexists. split; [reflexivity|]. split.
    + unfold finalRun. cbn [r_u].
      apply (empty_runAfter M cfg). apply (empty_eulerUpdate L M cfg Hel Hnodes).
    + apply Hdata. apply eulerUpdate_out.
  - eexists. split; [reflexivity|]. split.
    + unfold finalRun. cbn [r_u].
      apply (empty_runAfter M cfg). apply (empty_rkUpdate L M cfg Hnodes).
    + apply Hdata. apply rkUpdate_out.
Qed.

(** X12 on the mesh at rest without elements. *)
Lemma empty_mesh_run_witness :
  updateSource libm_reals (restMesh reals 0 2 (fun _ => [])) toyCfg 0%R (zeroU reals 0) =
    zeroU reals 0 /\
  option_map (fun r => r_u (snd r))
             (forwardEuler libm_reals (restMesh reals 0 2 (fun _ => [])) toyCfg 5
                           (zeroU reals 0) tt) = Some (zeroU reals 0).
Proof.
  destruct (empty_mesh_run libm_reals (restMesh reals 0 2 (fun _ => []))
              toyCfg (zeroU reals 0) tt 5 5 eq_refl eq_refl
              toyCfg_stopsAt (Nat.le_refl 5)) as (_ & Hsrc & (r & He & Hu & _) & _).
  split; [apply Hsrc|]. rewrite He. simpl. rewrite Hu. reflexivity.
Defined.

(** X13. A medium at rest (the mesh gives zero stiffness and flux
    vectors), in exact arithmetic: an iteration of either integrator
    changes the solution by the source injection alone, and the two
    integrators go through the same solutions and write the same
    output. *)
Theorem rest_medium_runs
  {A : Arith} (L : Libm A) {MS : Type} (M : Mesh A MS) (cfg : Config A)
  (u : list (list A)) (ms : MS) (n : nat) :
  ExactArith A ->
  (forall ms el Fq v j, vget (getElStiffVector M ms el Fq v) j = f0 A) ->
  (forall ms el j, vget (getElFlux M ms el) j = f0 A) ->
  meshSized M -> sized M u ->
  r_u (runAfter M cfg (eulerUpdate L M cfg) (S n) u ms) =
    updateSource L M cfg (timeAt cfg n)
                 (r_u (runAfter M cfg (eulerUpdate L M cfg) n u ms)) /\
  r_u (runAfter M cfg (rkUpdate L M cfg) n u ms) =
    r_u (runAfter M cfg (eulerUpdate L M cfg) n u ms) /\
  r_out (runAfter M cfg (rkUpdate L M cfg) n u ms) =
    r_out (runAfter M cfg (eulerUpdate L M cfg) n u ms).
Proof.
  intros HE Hstiff Hflux Hm Hs.
  destruct (rest_runs_agree L M cfg HE Hstiff Hflux u ms n Hs Hm) as (_ & Hu & Ho & _).
  split; [apply (rest_run_S L M cfg HE Hstiff Hflux)|].
  split; assumption.
Qed.

(** X13 on the point scenario, after two iterations. *)
Lemma rest_medium_runs_witness :
  r_u (runAfter pointMesh pointCfg (rkUpdate libm_reals pointMesh pointCfg) 2
                (zeroU reals 1) tt) =
  r_u (runAfter pointMesh pointCfg (eulerUpdate libm_reals pointMesh pointCfg) 2
                (zeroU reals 1) tt).
Proof.
  exact (proj1 (proj2 (rest_medium_runs libm_reals pointMesh pointCfg (zeroU reals 1) tt 2
                         reals_ExactArith
                         (fun _ _ _ _ j => vget_replicate (A:=reals) 1 j)
                         (fun _ _ j => vget_replicate (A:=reals) 1 j)
                         eq_refl (zeroU_sized pointMesh)))).
Defined.

(** ** The calls to the mesh *)

Section Counting.
Context {A : Arith} (L : Libm A) {MS : Type} (M : Mesh A MS) (cfg : Config A).

Lemma counting_equationStep beta eq ms c (u : list (list A)) Flux :
  equationStep (counting M) cfg beta eq (ms, c, u, Flux) =
  (fst (fst (equationStep M cfg beta eq (ms, u, Flux))), moreCalls 0 1 c,
   snd (fst (equationStep M cfg beta eq (ms, u, Flux))),
   snd (equationStep M cfg beta eq (ms, u, Flux))).
Proof.
  unfold equationStep. cbn [precomputeFlux counting fst snd].
  destruct (precomputeFlux M ms (row u eq) (row Flux eq) eq) as [ms' Fq].
  reflexivity.
Qed.

Lemma counting_equationLoop beta k ms c (u : list (list A)) Flux :
  forLoop k (equationStep (counting M) cfg beta) (ms, c, u, Flux) =
  (fst (fst (forLoop k (equationStep M cfg beta) (ms, u, Flux))), moreCalls 0 k c,
   snd (fst (forLoop k (equationStep M cfg beta) (ms, u, Flux))),
   snd (forLoop k (equationStep M cfg beta) (ms, u, Flux))).
Proof.
  induction k as [|k IH].
  - destruct c. reflexivity.
  - rewrite !forLoop_S, IH.
    destruct (forLoop k (equationStep M cfg beta) (ms, u, Flux)) as [[ms' u'] F'].
    cbn [fst snd]. rewrite counting_equationStep. destruct c. reflexivity.
Qed.

Lemma counting_fluxStep beta ms c (u : list (list A)) Flux :
  fluxStep (counting M) cfg (ms, c) u Flux beta =
  (fst (fst (fluxStep M cfg ms u Flux beta)), moreCalls 1 4 c,
   snd (fst (fluxStep M cfg ms u Flux beta)),
   snd (fluxStep M cfg ms u Flux beta)).
Proof.
  unfold fluxStep. cbn [updateFlux counting fst snd].
  destruct (updateFlux M ms u Flux (v0 cfg) (c0 cfg) (rho0 cfg)) as [ms' F'].
  cbn [fst snd]. unfold numStep. rewrite counting_equationLoop. destruct c. reflexivity.
Qed.

Lemma moreCalls_add j k j' k' c :
  moreCalls j k (moreCalls j' k' c) = moreCalls (j + j') (k + k') c.
Proof. unfold moreCalls. cbn. f_equal; lia. Qed.

Lemma counting_eulerUpdate t c (s : Run) :
  eulerUpdate L (counting M) cfg t (withCalls c s) =
  withCalls (moreCalls 1 4 c) (eulerUpdate L M cfg t s).
Proof.
  unfold eulerUpdate. cbn [withCalls r_mesh r_u r_Flux r_out].
  change (updateSource L (counting M) cfg t (r_u s))
    with (updateSource L M cfg t (r_u s)).
  rewrite counting_fluxStep.
  destruct (fluxStep M cfg (r_mesh s) (updateSource L M cfg t (r_u s)) (r_Flux s) (f1 A))
    as [[ms' u'] F'].
  reflexivity.
Qed.

Lemma counting_rkStages ms c (u : list (list A)) Flux :
  let st' := rkStages (counting M) cfg (ms, c) u Flux in
  let st := rkStages M cfg ms u Flux in
  rk_m4 st' = (rk_m4 st, moreCalls 4 16 c) /\ rk_F4 st' = rk_F4 st /\
  rk_k1 st' = rk_k1 st /\ rk_k2 st' = rk_k2 st /\
  rk_k3 st' = rk_k3 st /\ rk_k4 st' = rk_k4 st.
Proof.
  unfold rkStages.
  rewrite counting_fluxStep.
  destruct (fluxStep M cfg ms u Flux (f0 A)) as [[m1 k1] F1]. cbn [fst snd].
  change (plusTimesAll (counting M)) with (plusTimesAll M).
  rewrite counting_fluxStep.
  destruct (fluxStep M cfg m1 (plusTimesAll M (length u) u k1 (fhalf A)) F1 (f0 A))
    as [[m2 k2] F2]. cbn [fst snd].
  rewrite counting_fluxStep.
  destruct (fluxStep M cfg m2 (plusTimesAll M (length u) u k2 (fhalf A)) F2 (f0 A))
    as [[m3 k3] F3]. cbn [fst snd].
  rewrite counting_fluxStep.
  destruct (fluxStep M cfg m3 (plusTimesAll M (length u) u k3 (f1 A)) F3 (f0 A))
    as [[m4 k4] F4]. cbn [fst snd].
  cbn [rk_m4 rk_F4 rk_k1 rk_k2 rk_k3 rk_k4].
  rewrite !moreCalls_add. repeat split.
Qed.

Lemma counting_rkUpdate t c (s : Run) :
  rkUpdate L (counting M) cfg t (withCalls c s) =
  withCalls (moreCalls 4 16 c) (rkUpdate L M cfg t s).
Proof.
  unfold rkUpdate. cbn [withCalls r_mesh r_u r_Flux r_out].
  change (updateSource L (counting M) cfg t (r_u s))
    with (updateSource L M cfg t (r_u s)).
  change (rkConcat (counting M)) with (rkConcat M).
  destruct (counting_rkStages (r_mesh s) c (updateSource L M cfg t (r_u s)) (r_Flux s))
    as (-> & -> & -> & -> & -> & ->).
  reflexivity.
Qed.

Variables (j k : nat).
Variable update : A -> Run (A:=A) (MS:=MS) -> Run (A:=A) (MS:=MS).
Variable update' : A -> Run (A:=A) (MS:=MS * Calls) -> Run (A:=A) (MS:=MS * Calls).
Hypothesis counting_update : forall t c s,
    update' t (withCalls c s) = withCalls (moreCalls j k c) (update t s).

Lemma counting_iteration t step tD c (s : Run) :
  iteration (counting M) cfg update' t step tD (withCalls c s) =
  (fst (iteration M cfg update t step tD s),
   withCalls (moreCalls j k c) (snd (iteration M cfg update t step tD s))).
Proof.
  unfold iteration. destruct (snapshotDue cfg step tD); cbn [fst snd].
  - f_equal. apply (counting_update t c
      {| r_mesh := r_mesh s; r_u := r_u s; r_Flux := r_Flux s;
         r_out := r_out s ++ snapshot M cfg t step (r_u s) |}).
  - f_equal. apply counting_update.
Qed.

Lemma counting_iterate n : forall t step tD c (s : Run),
  iterate (counting M) cfg update' n t step tD (withCalls c s) =
  (fst (iterate M cfg update n t step tD s),
   withCalls (moreCalls (n * j) (n * k) c) (snd (iterate M cfg update n t step tD s))).
Proof.
  induction n as [|n IH]; intros t step tD c s.
  - destruct c. reflexivity.
  - rewrite !iterate_S, counting_iteration. cbn [fst snd].
    rewrite IH, moreCalls_add. do 3 f_equal; lia.
Qed.

Lemma counting_runAfter n u ms :
  runAfter (counting M) cfg update' n u (ms, noCalls) =
  withCalls {| massMatrixCalls := 1; updateFluxCalls := n * j;
               precomputeFluxCalls := n * k |}
            (runAfter M cfg update n u ms).
Proof.
  unfold runAfter.
  change (initialRun (counting M) u (ms, noCalls))
    with (withCalls {| massMatrixCalls := 1; updateFluxCalls := 0;
                       precomputeFluxCalls := 0 |} (initialRun M u ms)).
  rewrite counting_iterate. cbn [snd]. unfold moreCalls. cbn.
  rewrite !Nat.add_0_r. reflexivity.
Qed.
End Counting.

(** X14. The calls a run makes to the mesh.  Run on the mesh with a
    call counter, either integrator computes what it computes on the
    mesh itself, writes the same output, and after [n] iterations has
    called [precomputeMassMatrix] once; [forwardEuler] has called
    [updateFlux] [n] times and [precomputeFlux] [4n] times, [rungeKutta]
    [4n] and [16n] times. *)
Theorem mesh_calls_of_a_run
  {A : Arith} (L : Libm A) {MS : Type} (M : Mesh A MS) (cfg : Config A)
  (u : list (list A)) (ms : MS) (n : nat) :
  runAfter (counting M) cfg (eulerUpdate L (counting M) cfg) n u (ms, noCalls) =
    withCalls {| massMatrixCalls := 1; updateFluxCalls := n;
                 precomputeFluxCalls := 4 * n |}
              (runAfter M cfg (eulerUpdate L M cfg) n u ms) /\
  runAfter (counting M) cfg (rkUpdate L (counting M) cfg) n u (ms, noCalls) =
    withCalls {| massMatrixCalls := 1; updateFluxCalls := 4 * n;
                 precomputeFluxCalls := 16 * n |}
              (runAfter M cfg (rkUpdate L M cfg) n u ms).
Proof.
  split.
  - rewrite (counting_runAfter M cfg 1 4 (eulerUpdate L M cfg)
               (eulerUpdate L (counting M) cfg) (counting_eulerUpdate L M cfg)).
    do 2 f_equal; lia.
  - rewrite (counting_runAfter M cfg 4 16 (rkUpdate L M cfg)
               (rkUpdate L (counting M) cfg) (counting_rkUpdate L M cfg)).
    do 2 f_equal; lia.
Qed.

(** ** The layout of the exported data *)

Section WellFormed.
Context {A : Arith} {MS : Type} (M : Mesh A MS) (cfg : Config A).

Lemma Forall_rows (G : nat -> list A) k N :
  (forall el, length (G el) = N) ->
  Forall (fun r => length r = N) (map G (seq 0 k)).
Proof.
  intros H. induction (seq 0 k) as [|el l IH]; [constructor|].
  cbn [map]. constructor; [apply H|exact IH].
Qed.

Lemma snapshot_wellFormed t step (u : list (list A)) :
  Forall (wellFormed M) (snapshot M cfg t step u).
Proof.
  assert (Hlen : forall G : nat -> list A, length (map G (seq 0 (getElNum M))) = getElNum M).
  { intros G. rewrite length_map, length_seq. reflexivity. }
  unfold snapshot. constructor; [|constructor; [|constructor; [|constructor; [|constructor]]]].
  - split; [reflexivity|]. split; [unfold elTags; rewrite length_map, length_seq; reflexivity|].
    split; [apply Hlen|].
    apply Forall_rows. intros el. rewrite length_map, length_seq. lia.
  - split; [reflexivity|]. split; [unfold elTags; rewrite length_map, length_seq; reflexivity|].
    split; [apply Hlen|].
    apply Forall_rows. intros el. rewrite length_map, length_seq. lia.
  - split; [reflexivity|]. split; [unfold elTags; rewrite length_map, length_seq; reflexivity|].
    split; [apply Hlen|].
    apply Forall_rows. intros el. apply length_triples.
  - exact I.
Qed.

Variable update : A -> Run (A:=A) (MS:=MS) -> Run (A:=A) (MS:=MS).
Hypothesis update_out : forall t s, r_out (update t s) = r_out s.

Lemma finalRun_wellFormed n u ms :
  Forall (wellFormed M) (r_out (finalRun M cfg update n u ms)).
Proof.
  unfold finalRun. cbn [r_out]. apply Forall_app. split.
  - rewrite (runAfter_out M cfg update update_out).
    induction (seq 0 n) as [|k l IH]; [constructor|].
    cbn [flat_map]. apply Forall_app. split; [|exact IH].
    destruct (snapshotDue cfg k _); [apply snapshot_wellFormed|constructor].
  - repeat constructor.
Qed.
End WellFormed.

(** X15. Every [gmsh::view::addModelData] call of a run hands gmsh data
    in the layout of "ElementNodeData": as many tags as the mesh has
    elements, the tags of the elements in index order, one data row per
    element, and in each row [numComponents] values for each node of the
    element, with 1 component for the pressure and the density views and
    3 for the velocity view. *)
Theorem snapshots_well_formed
  {A : Arith} (L : Libm A) {MS : Type} (M : Mesh A MS) (cfg : Config A)
  (u : list (list A)) (ms : MS) (n fuel : nat) :
  stopsAt cfg n = true -> n <= fuel ->
  (exists r, forwardEuler L M cfg fuel u ms = Some (n, r) /\
             Forall (wellFormed M) (r_out r)) /\
  (exists r, rungeKutta L M cfg fuel u ms = Some (n, r) /\
             Forall (wellFormed M) (r_out r)) /\
  elTags M = map (elTag M) (seq 0 (getElNum M)).
Proof.
  intros Hs Hf. unfold forwardEuler, rungeKutta.
  rewrite !(integrate_exact M cfg _ n fuel u ms Hs Hf).
  split; [|split; [|reflexivity]].
  - eexists. split; [reflexivity|].
    apply finalRun_wellFormed. apply eulerUpdate_out.
  - eexists. split; [reflexivity|].
    apply finalRun_wellFormed. apply rkUpdate_out.
Qed.

(** X15 on [toyMesh] with [toyCfg]. *)
Lemma snapshots_well_formed_witness :
  exists r, forwardEuler libm_reals (toyMesh reals) toyCfg 5 uR 0 = Some (5, r) /\
            Forall (wellFormed (toyMesh reals)) (r_out r).
Proof.
  exact (proj1 (snapshots_well_formed libm_reals (toyMesh reals) toyCfg uR 0 5 5
                  toyCfg_stopsAt (Nat.le_refl 5))).
Defined.
